(** * The Lutron keypad button classifier

    A shallow embedding of [custom_components/lutron_custom/__init__.py]:
    the class [LutronButton], its constructor, [button_callback],
    [button_action] and the two timer closures [long_press_func] and
    [super_long_press_func].

    The Python object is a record; the [threading.Timer] objects it creates
    live in a store indexed by reference, because the attribute
    [self.timer] holds a reference and a timer thread outlives the moment
    the attribute is overwritten.  Every body executed under [self.lock]
    is one atomic step of a scheduler; the part of [Timer.run] that runs
    outside the lock (the test of the [finished] flag) is a step of its
    own, so that a callback waiting for the lock is a state of the model. *)

From stdpp Require Import base tactics option list strings pretty.
From Stdlib Require Import ZArith Lia.

Local Open Scope string_scope.
Local Open Scope list_scope.
Local Open Scope Z_scope.

(** ** Values that come from outside the module *)

(** [pylutron.Button.Event]: the two members the module compares against,
    and any other value the subscription may deliver. *)
Inductive Event :=
| PRESSED
| RELEASED
| OTHER (value : Z).

Global Instance Event_eq_dec : EqDecision Event.
Proof. solve_decision. Defined.

(** The attributes of [pylutron.Button] and [pylutron.Keypad] that the
    constructor reads. *)
Record Button := mkButton {
  name : string;
  number : Z;
  button_type : option string }.

Record Keypad := mkKeypad {
  keypad_name : string }.

(** A Python exception, identified by its text. *)
Inductive Exn := Exception (msg : string).

(** A [dict] with string keys and values, in insertion order. *)
Definition dict := list (string * string).

(** What the module needs of its environment: [homeassistant.util.slugify],
    the built-in [repr] on [str], and for the two collaborators reached
    through [hass] whether a call returns ([None]) or raises ([Some e]).
    The outcome may depend on the time of the call and on its arguments. *)
Record Platform := mkPlatform {
  slugify : string → string;
  repr : string → string;
  bus_fire_outcome : Z → string → dict → option Exn;
  log_entry_outcome : Z → string → string → string → option Exn }.

(** ** Module constants *)

Definition DOMAIN : string := "lutron_custom".
Definition ATTR_ID : string := "id".
Definition ATTR_ACTION : string := "action".
Definition ATTR_FULL_ID : string := "full_id".

(** ** Timers *)

(** The two closures a [Timer] of this module can be given. *)
Inductive Closure :=
| long_press
| super_long_press.

(** Where the thread of a [threading.Timer] is:
    [Created] before [start()], [Waiting] inside [finished.wait(interval)],
    [Calling] after it found [finished] unset and entered its function
    (it may still be waiting for [self.lock]), [Ran] after the function was
    left, [Skipped] when it woke up with [finished] set and called nothing. *)
Inductive Phase :=
| Created
| Waiting
| Calling
| Ran
| Skipped.

Global Instance Phase_eq_dec : EqDecision Phase.
Proof. solve_decision. Defined.

(** A [threading.Timer] object; times are in milliseconds. *)
Record Timer := mkTimer {
  interval : Z;
  function : Closure;
  started : Z;
  finished : bool;
  phase : Phase }.

Definition with_started (t : Z) (o : Timer) : Timer :=
  mkTimer (interval o) (function o) t (finished o) (phase o).

Definition with_finished (b : bool) (o : Timer) : Timer :=
  mkTimer (interval o) (function o) (started o) b (phase o).

Definition with_phase (p : Phase) (o : Timer) : Timer :=
  mkTimer (interval o) (function o) (started o) (finished o) p.

(** ** The object and the world around it *)

Record LutronButton := mkLutronButton {
  _has_release_event : bool;
  _id : string;
  _keypad : Keypad;
  _area_name : string;
  _button_name : string;
  _button : Button;
  _event : string;
  _full_id : string;
  timer : option nat }.

(** The thread a call is made from. *)
Inductive Thread :=
| RawThread
| TimerThread (ref : nat).

Global Instance Thread_eq_dec : EqDecision Thread.
Proof. solve_decision. Defined.

(** The calls the object makes on other objects. *)
Inductive Call :=
| button_subscribe
| logger_info (full_id : string) (event : Event)
| timer_cancel (ref : nat)
| timer_start (ref : nat)
| bus_fire (event_type : string) (data : dict)
| logbook_log_entry (entry_name message domain : string).

Record Entry := mkEntry {
  at_time : Z;
  by_thread : Thread;
  what : Call }.

(** [self], the store of timer objects, and the history of calls; [now]
    and [running] are set by the scheduler before a body runs. *)
Record World := mkWorld {
  self : LutronButton;
  timers : list Timer;
  now : Z;
  running : Thread;
  trace : list Entry }.

Definition with_timer (r : option nat) (b : LutronButton) : LutronButton :=
  mkLutronButton (_has_release_event b) (_id b) (_keypad b) (_area_name b)
    (_button_name b) (_button b) (_event b) (_full_id b) r.

Definition with_self (b : LutronButton) (w : World) : World :=
  mkWorld b (timers w) (now w) (running w) (trace w).

Definition with_timers (ts : list Timer) (w : World) : World :=
  mkWorld (self w) ts (now w) (running w) (trace w).

Definition with_trace (tr : list Entry) (w : World) : World :=
  mkWorld (self w) (timers w) (now w) (running w) tr.

Definition entering (t : Z) (th : Thread) (w : World) : World :=
  mkWorld (self w) (timers w) t th (trace w).

(** ** A state and exception monad *)

Inductive Res (A : Type) :=
| Ok (a : A)
| Raise (e : Exn).
Arguments Ok {A} a.
Arguments Raise {A} e.

Definition M (A : Type) : Type := World → Res A * World.

Global Instance M_ret : MRet M := λ A a w, (Ok a, w).

Global Instance M_bind : MBind M := λ A B k m w,
  match m w with
  | (Ok a, w1) => k a w1
  | (Raise e, w1) => (Raise e, w1)
  end.

Definition get : M World := λ w, (Ok w, w).
Definition modify (f : World → World) : M unit := λ w, (Ok (), f w).
Definition raise_on (o : option Exn) : M unit :=
  λ w, (match o with None => Ok () | Some e => Raise e end, w).

(** Record a call, made now by the running thread. *)
Definition call (c : Call) : M unit :=
  modify (λ w, with_trace (trace w ++ [mkEntry (now w) (running w) c]) w).

(** [self.timer = r] *)
Definition set_timer (r : option nat) : M unit :=
  modify (λ w, with_self (with_timer r (self w)) w).

(** ** [threading.Timer] *)

(** [Timer(interval, function)]: a new object, its reference returned. *)
Definition Timer_new (i : Z) (f : Closure) : M nat :=
  λ w, (Ok (length (timers w)),
        with_timers (timers w ++ [mkTimer i f 0 false Created]) w).

(** [t.start()]: the thread begins to wait; a thread can be started only
    once ([RuntimeError] otherwise). *)
Definition Timer_start (r : nat) : M unit :=
  call (timer_start r) ;;
  w ← get;
  match timers w !! r with
  | Some o =>
      if bool_decide (phase o = Created) then
        modify (with_timers
          (alter (λ o, with_phase Waiting (with_started (now w) o)) r (timers w)))
      else raise_on (Some (Exception "RuntimeError: threads can only be started once"))
  | None => mret ()
  end.

(** [t.cancel()]: sets [finished]; it stops the timer only if the thread
    has not yet left its wait. *)
Definition Timer_cancel (r : nat) : M unit :=
  call (timer_cancel r) ;;
  modify (λ w, with_timers (alter (with_finished true) r (timers w)) w).

(** ** Python built-ins used by the module *)

(** [needle in hay] on [str]. *)
Fixpoint str_contains (needle hay : string) : bool :=
  String.prefix needle hay ||
  match hay with
  | EmptyString => false
  | String _ rest => str_contains needle rest
  end.

(** [str(d)] for a [dict] of strings. *)
Definition str_dict (P : Platform) (d : dict) : string :=
  "{" +:+ String.concat ", "
            (map (λ kv, repr P kv.1 +:+ ": " +:+ repr P kv.2) d) +:+ "}".

(** ** The class [LutronButton] *)

Section LutronButton.
Variable hass : Platform.

(** [LutronButton.__init__], up to the subscription. *)
Definition __init__ (area_name : string) (keypad : Keypad) (button : Button)
  : LutronButton :=
  let name0 := keypad_name keypad +:+ ": " +:+ name button in
  let name1 :=
    if bool_decide (name button = "Unknown Button")
    then name0 +:+ " " +:+ pretty (number button)
    else name0 in
  {| _has_release_event :=
       match button_type button with
       | None => false
       | Some ty => str_contains "RaiseLower" ty
       end;
     _id := slugify hass name1;
     _keypad := keypad;
     _area_name := area_name;
     _button_name := name button;
     _button := button;
     _event := "lutron_event";
     _full_id := slugify hass (area_name +:+ " " +:+ name1);
     timer := None |}.

(** The world right after construction at time [t0]: no timer object yet,
    and [button.subscribe(self.button_callback, None)] has been called. *)
Definition construct (t0 : Z) (area_name : string) (keypad : Keypad)
    (button : Button) : World :=
  {| self := __init__ area_name keypad button;
     timers := [];
     now := t0;
     running := RawThread;
     trace := [mkEntry t0 RawThread button_subscribe] |}.

(** [hass.bus.fire(event_type, data)] *)
Definition hass_bus_fire (event_type : string) (data : dict) : M unit :=
  call (bus_fire event_type data) ;;
  w ← get;
  raise_on (bus_fire_outcome hass (now w) event_type data).

(** [logbook.log_entry(hass, name, message, domain)] *)
Definition logbook_log (entry_name message domain : string) : M unit :=
  call (logbook_log_entry entry_name message domain) ;;
  w ← get;
  raise_on (log_entry_outcome hass (now w) entry_name message domain).

(** The [data] dict of [button_action]. *)
Definition action_data (b : LutronButton) (action : string) : dict :=
  [ (ATTR_ID, _id b);
    (ATTR_ACTION, action);
    (ATTR_FULL_ID, _full_id b);
    ("area_name", _area_name b);
    ("button_name", _button_name b) ].

(** [LutronButton.button_action] *)
Definition button_action (action : string) : M unit :=
  w ← get;
  let data := action_data (self w) action in
  hass_bus_fire (_event (self w)) data ;;
  logbook_log action (str_dict hass data) DOMAIN.

(** The closure [super_long_press_func], inside its [with self.lock]. *)
Definition super_long_press_func : M unit :=
  set_timer None ;;
  button_action "super_long_pressed".

(** The closure [long_press_func], inside its [with self.lock]. *)
Definition long_press_func : M unit :=
  button_action "long_pressed" ;;
  r ← Timer_new 1000 super_long_press;
  set_timer (Some r) ;;
  Timer_start r.

Definition closure_body (f : Closure) : M unit :=
  match f with
  | long_press => long_press_func
  | super_long_press => super_long_press_func
  end.

(** The first statement under the lock in [button_callback]:
    [if self.timer: self.timer.cancel(); self.timer = None]. *)
Definition cancel_pending : M unit :=
  w ← get;
  match timer (self w) with
  | Some r => Timer_cancel r ;; set_timer None
  | None => mret ()
  end.

(** [LutronButton.button_callback]; of its arguments only [event] is
    read. *)
Definition button_callback (event : Event) : M unit :=
  w ← get;
  call (logger_info (_full_id (self w)) event) ;;
  cancel_pending ;;
  (if bool_decide (event = PRESSED) then
     button_action "pressed" ;;
     r ← Timer_new 500 long_press;
     set_timer (Some r) ;;
     Timer_start r
   else mret ()) ;;
  (if bool_decide (event = RELEASED) then
     button_action "released"
   else mret ()).

(** ** The scheduler *)

(** What can happen to one button: the subscription delivers a raw event
    ([Raw]); the thread of timer [r] returns from its wait and tests
    [finished] ([Wake]); the thread of timer [r], having entered its
    function, obtains the lock and runs the body ([Run]).  Each happens
    at a time [t]. *)
Inductive Label :=
| Raw (t : Z) (event : Event)
| Wake (t : Z) (r : nat)
| Run (t : Z) (r : nat).

Definition label_time (l : Label) : Z :=
  match l with Raw t _ | Wake t _ | Run t _ => t end.

Definition set_phase (r : nat) (p : Phase) (w : World) : World :=
  with_timers (alter (with_phase p) r (timers w)) w.

(** The end of [Timer.run]: [self.finished.set()], reached only when the
    function returned. *)
Definition set_finished (r : nat) (w : World) : World :=
  with_timers (alter (with_finished true) r (timers w)) w.

(** One step; [None] when the step cannot happen in this world (time
    would run backwards, the timer does not exist, its thread is
    elsewhere, or its interval has not elapsed). *)
Definition step (l : Label) (w : World) : option (Res unit * World) :=
  if bool_decide (now w ≤ label_time l) then
    match l with
    | Raw t event => Some (button_callback event (entering t RawThread w))
    | Wake t r =>
        match timers w !! r with
        | Some o =>
            if bool_decide (phase o = Waiting) then
              if finished o then
                Some (Ok (), set_phase r Skipped (entering t (TimerThread r) w))
              else if bool_decide (started o + interval o ≤ t) then
                Some (Ok (), set_phase r Calling (entering t (TimerThread r) w))
              else None
            else None
        | None => None
        end
    | Run t r =>
        match timers w !! r with
        | Some o =>
            if bool_decide (phase o = Calling) then
              match closure_body (function o) (entering t (TimerThread r) w) with
              | (Ok u, w1) => Some (Ok u, set_finished r (set_phase r Ran w1))
              | (Raise e, w1) => Some (Raise e, set_phase r Ran w1)
              end
            else None
        | None => None
        end
    end
  else None.

(** A schedule, run from a world; an exception ends the step that raised
    it (it leaves through the caller of the callback), not the run. *)
Fixpoint exec (ls : list Label) (w : World) : option World :=
  match ls with
  | [] => Some w
  | l :: ls' =>
      match step l w with
      | Some (_, w1) => exec ls' w1
      | None => None
      end
  end.

End LutronButton.

(** ** Observations *)

(** [d.get(k)] *)
Fixpoint dict_get (k : string) (d : dict) : option string :=
  match d with
  | [] => None
  | (k', v) :: d' => if bool_decide (k' = k) then Some v else dict_get k d'
  end.

(** The events handed to [hass.bus.fire], oldest first: when, by which
    thread, and the value under ["action"]. *)
Definition fired_entry (e : Entry) : option (Z * Thread * string) :=
  match what e with
  | bus_fire _ data =>
      match dict_get ATTR_ACTION data with
      | Some a => Some (at_time e, by_thread e, a)
      | None => None
      end
  | _ => None
  end.

Definition fired (w : World) : list (Z * Thread * string) :=
  omap fired_entry (trace w).

(** Only the action names. *)
Definition actions (w : World) : list string :=
  (λ x, x.2) <$> fired w.

(** A timer whose function can still run: its thread waits and nobody
    cancelled it, or it is past the test of [finished]. *)
Definition outstanding (o : Timer) : bool :=
  match phase o with
  | Waiting => negb (finished o)
  | Calling => true
  | _ => false
  end.

(** The references of the timers that are outstanding. *)
Definition pending (w : World) : list nat :=
  filter (λ r, (outstanding <$> timers w !! r) = Some true)
         (seq 0 (length (timers w))).

(** The state the spec calls IDLE: [self.timer] is [None] and no timer is
    outstanding. *)
Definition idle (w : World) : Prop :=
  timer (self w) = None ∧ pending w = [].

(** No raw event in a schedule: only timers act. *)
Definition is_raw (l : Label) : bool :=
  match l with Raw _ _ => true | _ => false end.

Definition timers_only (ls : list Label) : Prop :=
  Forall (λ l, is_raw l = false) ls.

(** A platform whose collaborators never raise. *)
Definition never_raises (hass : Platform) : Prop :=
  (∀ t ty d, bus_fire_outcome hass t ty d = None) ∧
  (∀ t n m d, log_entry_outcome hass t n m d = None).

(** ** The bodies in closed form *)

(** The worlds and entries the bodies produce, written out. *)
Definition fire_entry (b : LutronButton) (t : Z) (th : Thread) (a : string)
  : Entry :=
  mkEntry t th (bus_fire (_event b) (action_data b a)).

Definition log_entry (hass : Platform) (b : LutronButton) (t : Z) (th : Thread)
    (a : string) : Entry :=
  mkEntry t th (logbook_log_entry a (str_dict hass (action_data b a)) DOMAIN).

(** After [self.timer = Timer(i, f); self.timer.start()]. *)
Definition armed (i : Z) (f : Closure) (w : World) : World :=
  mkWorld (with_timer (Some (length (timers w))) (self w))
    (timers w ++ [mkTimer i f (now w) false Waiting])
    (now w) (running w)
    (trace w ++ [mkEntry (now w) (running w) (timer_start (length (timers w)))]).

(** After [if self.timer: self.timer.cancel(); self.timer = None]. *)
Definition cancelled (w : World) : World :=
  match timer (self w) with
  | Some r =>
      mkWorld (with_timer None (self w))
        (alter (with_finished true) r (timers w))
        (now w) (running w)
        (trace w ++ [mkEntry (now w) (running w) (timer_cancel r)])
  | None => w
  end.

(** After the [_LOGGER.info] line. *)
Definition logged (event : Event) (w : World) : World :=
  with_trace
    (trace w ++ [mkEntry (now w) (running w)
                   (logger_info (_full_id (self w)) event)]) w.

(** What a collaborator call did, read back from its entry. *)
Definition failure (hass : Platform) (e : Entry) : option Exn :=
  match what e with
  | bus_fire ty d => bus_fire_outcome hass (at_time e) ty d
  | logbook_log_entry n m d => log_entry_outcome hass (at_time e) n m d
  | _ => None
  end.

(** ** The steps as a relation *)

(** The thread a label runs on. *)
Definition thread_of (l : Label) : Thread :=
  match l with
  | Raw _ _ => RawThread
  | Wake _ r | Run _ r => TimerThread r
  end.

(** [step] as a relation: one constructor for each way a step succeeds. *)
Inductive stepped (hass : Platform) (w : World) : Label → Res unit → World → Prop :=
| stepped_raw t event res w' :
    now w ≤ t →
    button_callback hass event (entering t RawThread w) = (res, w') →
    stepped hass w (Raw t event) res w'
| stepped_skip t r o :
    now w ≤ t →
    timers w !! r = Some o → phase o = Waiting → finished o = true →
    stepped hass w (Wake t r) (Ok ())
      (set_phase r Skipped (entering t (TimerThread r) w))
| stepped_wake t r o :
    now w ≤ t →
    timers w !! r = Some o → phase o = Waiting → finished o = false →
    started o + interval o ≤ t →
    stepped hass w (Wake t r) (Ok ())
      (set_phase r Calling (entering t (TimerThread r) w))
| stepped_run_ok t r o w1 :
    now w ≤ t →
    timers w !! r = Some o → phase o = Calling →
    closure_body hass (function o) (entering t (TimerThread r) w) = (Ok (), w1) →
    stepped hass w (Run t r) (Ok ()) (set_finished r (set_phase r Ran w1))
| stepped_run_raise t r o x w1 :
    now w ≤ t →
    timers w !! r = Some o → phase o = Calling →
    closure_body hass (function o) (entering t (TimerThread r) w) = (Raise x, w1) →
    stepped hass w (Run t r) (Raise x) (set_phase r Ran w1).

(** ** The call history *)

(** The attributes set once by the constructor. *)
Definition identity (b : LutronButton) : LutronButton := with_timer None b.

(** The entries [cancelled] appends. *)
Definition cancel_entries (w : World) : list Entry :=
  match timer (self w) with
  | Some r => [mkEntry (now w) (running w) (timer_cancel r)]
  | None => []
  end.

(** Entries other than the calls on the two collaborators. *)
Definition quiet (e : Entry) : Prop :=
  match what e with
  | bus_fire _ _ | logbook_log_entry _ _ _ => False
  | _ => True
  end.

(** The four classified actions. *)
Definition classified : list string :=
  ["pressed"; "released"; "long_pressed"; "super_long_pressed"].

(** What one body does to the collaborators, with its result: nothing; an
    emission whose [fire] raised; one whose log entry raised; a complete
    emission, after which a timer may be started. *)
Inductive emission (hass : Platform) (b : LutronButton) (t : Z) (th : Thread)
  : Res unit → list Entry → Prop :=
| emission_none :
    emission hass b t th (Ok ()) []
| emission_fire_raised a x :
    a ∈ classified →
    failure hass (fire_entry b t th a) = Some x →
    emission hass b t th (Raise x) [fire_entry b t th a]
| emission_log_raised a x :
    a ∈ classified →
    failure hass (fire_entry b t th a) = None →
    failure hass (log_entry hass b t th a) = Some x →
    emission hass b t th (Raise x) [fire_entry b t th a; log_entry hass b t th a]
| emission_done a :
    a ∈ classified →
    failure hass (fire_entry b t th a) = None →
    failure hass (log_entry hass b t th a) = None →
    emission hass b t th (Ok ()) [fire_entry b t th a; log_entry hass b t th a]
| emission_armed a r :
    a ∈ classified →
    failure hass (fire_entry b t th a) = None →
    failure hass (log_entry hass b t th a) = None →
    emission hass b t th (Ok ())
      [fire_entry b t th a; log_entry hass b t th a; mkEntry t th (timer_start r)].

(** The first entries of a raw-event call: the [_LOGGER.info] line, then
    the cancellation of the timer [self.timer] refers to, if any. *)
Definition opening (event : Event) (w : World) : list Entry :=
  mkEntry (now w) (running w) (logger_info (_full_id (self w)) event)
    :: cancel_entries w.

(** A history in which every call of [hass.bus.fire] has the event name and
    the payload of [button_action] for the object [b], and is followed at
    once by its log entry unless the call raised; no log entry stands
    alone. *)
Inductive emission_log (hass : Platform) (b : LutronButton) : list Entry → Prop :=
| log_nil :
    emission_log hass b []
| log_quiet e tr :
    quiet e → emission_log hass b tr → emission_log hass b (e :: tr)
| log_failed t th a tr :
    a ∈ classified →
    failure hass (fire_entry b t th a) ≠ None →
    emission_log hass b tr →
    emission_log hass b (fire_entry b t th a :: tr)
| log_pair t th a tr :
    a ∈ classified →
    failure hass (fire_entry b t th a) = None →
    emission_log hass b tr →
    emission_log hass b (fire_entry b t th a :: log_entry hass b t th a :: tr).

(** ** Steps on a platform that never raises, in closed form *)

(** After a complete emission of [a]. *)
Definition emitted (hass : Platform) (a : string) (w : World) : World :=
  with_trace
    (trace w ++ [fire_entry (self w) (now w) (running w) a;
                 log_entry hass (self w) (now w) (running w) a]) w.

(** After a raw event delivered at [t]. *)
Definition after_raw (hass : Platform) (t : Z) (event : Event) (w : World)
  : World :=
  let w1 := cancelled (logged event (entering t RawThread w)) in
  match event with
  | PRESSED => armed 500 long_press (emitted hass "pressed" w1)
  | RELEASED => emitted hass "released" w1
  | OTHER _ => w1
  end.

(** After the function of timer [r] ran at [t]. *)
Definition after_run (hass : Platform) (t : Z) (r : nat) (f : Closure) (w : World)
  : World :=
  let w0 := entering t (TimerThread r) w in
  set_finished r (set_phase r Ran
    match f with
    | long_press => armed 1000 super_long_press (emitted hass "long_pressed" w0)
    | super_long_press =>
        emitted hass "super_long_pressed" (with_self (with_timer None (self w0)) w0)
    end).

(** The action each closure emits. *)
Definition closure_action (f : Closure) : string :=
  match f with
  | long_press => "long_pressed"
  | super_long_press => "super_long_pressed"
  end.

(** ** Predicates on runs *)

(** The worlds a single PRESS at [t1] leads to while no raw event follows:
    the long-press timer waits; it is due; it ran at [ta] and the
    super-long-press timer waits; that one is due; it ran at [tb]. *)
Inductive escalation (t1 : Z) (w : World) : Prop :=
| esc_armed :
    timers w = [mkTimer 500 long_press t1 false Waiting] →
    fired w = [(t1, RawThread, "pressed")] →
    escalation t1 w
| esc_long_due :
    timers w = [mkTimer 500 long_press t1 false Calling] →
    t1 + 500 ≤ now w →
    fired w = [(t1, RawThread, "pressed")] →
    escalation t1 w
| esc_long ta :
    t1 + 500 ≤ ta →
    timers w = [mkTimer 500 long_press t1 true Ran;
                mkTimer 1000 super_long_press ta false Waiting] →
    fired w = [(t1, RawThread, "pressed"); (ta, TimerThread 0, "long_pressed")] →
    escalation t1 w
| esc_super_due ta :
    t1 + 500 ≤ ta → ta + 1000 ≤ now w →
    timers w = [mkTimer 500 long_press t1 true Ran;
                mkTimer 1000 super_long_press ta false Calling] →
    fired w = [(t1, RawThread, "pressed"); (ta, TimerThread 0, "long_pressed")] →
    escalation t1 w
| esc_done ta tb :
    t1 + 500 ≤ ta → ta + 1000 ≤ tb →
    timers w = [mkTimer 500 long_press t1 true Ran;
                mkTimer 1000 super_long_press ta true Ran] →
    timer (self w) = None →
    fired w = [(t1, RawThread, "pressed"); (ta, TimerThread 0, "long_pressed");
               (tb, TimerThread 1, "super_long_pressed")] →
    escalation t1 w.

(** Entries made by thread [th] at time [t]. *)
Definition made_by (th : Thread) (t : Z) (e : Entry) : Prop :=
  by_thread e = th ∧ at_time e = t.

(** Timer [r] was cancelled in time: [finished] is set, its thread is still
    in its wait or left it without calling the function, and it made no
    call. *)
Definition stopped (r : nat) (w : World) : Prop :=
  (∃ o, timers w !! r = Some o ∧ finished o = true ∧
        (phase o = Waiting ∨ phase o = Skipped)) ∧
  ∀ e, e ∈ trace w → by_thread e ≠ TimerThread r.

(** The function of timer [r] ran although [cancel()] had been called on
    it before: in the history a call by the thread of [r] comes after the
    entry of the cancellation. *)
Definition ran_after_cancel (r : nat) (w : World) : Prop :=
  ∃ i j c e,
    (i < j)%nat ∧ trace w !! i = Some c ∧ trace w !! j = Some e ∧
    what c = timer_cancel r ∧ by_thread e = TimerThread r.

(** C2 as stated, for the runs from a world [w0]: whatever the schedule,
    no timer runs its function after it was cancelled. *)
Definition cancelled_timer_never_runs (hass : Platform) (w0 : World) : Prop :=
  ∀ ls w r, exec hass ls w0 = Some w → ¬ ran_after_cancel r w.

(** Between a PRESS at [t] and [t + 500]: every timer was
    started at or after [t] for 500 ms, so none is due before [t + 500];
    its thread waits or has left without a call; it is cancelled unless it
    is the one [self.timer] refers to; only the raw thread made calls. *)
Definition in_window (t : Z) (w : World) : Prop :=
  t ≤ now w ∧
  (∀ r o, timers w !! r = Some o →
     (phase o = Waiting ∨ phase o = Skipped) ∧
     t + 500 ≤ started o + interval o ∧
     (finished o = true ∨ timer (self w) = Some r)) ∧
  (∀ e, e ∈ trace w → by_thread e = RawThread).

(** No timer thread is between its test of [finished] and the lock. *)
Definition none_calling (w : World) : Prop :=
  ∀ r o, timers w !! r = Some o → phase o ≠ Calling.

(** A schedule in which no PRESS is delivered while a timer thread that
    found [finished] unset still waits for the lock. *)
Fixpoint press_race_free (hass : Platform) (ls : list Label) (w : World) : Prop :=
  match ls with
  | [] => True
  | l :: ls' =>
      (∀ t, l = Raw t PRESSED → none_calling w) ∧
      match step hass l w with
      | Some (_, w1) => press_race_free hass ls' w1
      | None => True
      end
  end.

(** At most one timer is outstanding, and it is the one [self.timer]
    refers to unless its thread is already past the test of [finished]
    (a RELEASE came too late to stop it). *)
Definition one_outstanding (w : World) : Prop :=
  ∀ r o, timers w !! r = Some o → outstanding o = true →
    (timer (self w) = Some r ∨ phase o = Calling) ∧
    ∀ r' o', timers w !! r' = Some o' → outstanding o' = true → r' = r.

(** Every outstanding timer is the one [self.timer] refers to. *)
Definition slot_owns_pending (w : World) : Prop :=
  ∀ r, r ∈ pending w → timer (self w) = Some r.

(** The first part of C6 as stated, for the runs from a world [w0]. *)
Definition at_most_one_pending (hass : Platform) (w0 : World) : Prop :=
  ∀ ls w, exec hass ls w0 = Some w → (length (pending w) ≤ 1)%nat.

(** ** Several buttons *)

(** The [hass] object that [setup] hands to every [LutronButton]: how its
    event bus and the logbook answer a call may depend on the time, on
    the arguments, and on every call made before, by any object.
    [slugify] and [repr] are functions. *)
Record Hass := mkHass {
  hass_slugify : string → string;
  hass_repr : string → string;
  bus_fire_after : list (nat * Entry) → Z → string → dict → option Exn;
  log_entry_after : list (nat * Entry) → Z → string → string → string → option Exn }.

(** The shared [hass] as a body finds it after the calls [calls]. *)
Definition serving (H : Hass) (calls : list (nat * Entry)) : Platform :=
  mkPlatform (hass_slugify H) (hass_repr H)
    (bus_fire_after H calls) (log_entry_after H calls).

(** The process: the objects in [hass.data[LUTRON_BUTTONS]], every
    [threading.Timer] object there is, for each of them the object whose
    closure it was given (the closure refers to the [self] of the call
    that created it), the time, and every call made so far with the object
    that made it. *)
Record Home := mkHome {
  buttons : list LutronButton;
  heap : list Timer;
  owner : list nat;
  clock : Z;
  history : list (nat * Entry) }.

(** What a body of object [b] runs in: its [self], and all the timers. *)
Definition view (h : Home) (b : LutronButton) : World :=
  mkWorld b (heap h) (clock h) RawThread [].

(** A raw event is delivered to the callback of the object subscribed to
    the button; the thread of a timer runs the closure of the object that
    created the timer. *)
Definition acts_for (i : nat) (l : Label) (h : Home) : bool :=
  match l with
  | Raw _ _ => true
  | Wake _ r | Run _ r => bool_decide (owner h !! r = Some i)
  end.

(** One step of object [i]: its body runs on its own [self] and on the
    timers of the whole process, against the shared [hass] as the calls
    made so far left it; the timers it creates are its own.  Each object
    has a lock of its own, so bodies of different objects do not exclude
    each other; here they take turns, a body at a time. *)
Definition home_step (H : Hass) (il : nat * Label) (h : Home) : option Home :=
  match buttons h !! il.1 with
  | Some b =>
      if acts_for il.1 il.2 h then
        match step (serving H (history h)) il.2 (view h b) with
        | Some (_, w') =>
            Some (mkHome (<[il.1 := self w']> (buttons h)) (timers w')
                    (owner h
                     ++ replicate (length (timers w') - length (heap h)) il.1)
                    (now w')
                    (history h ++ (pair il.1 <$> trace w')))
        | None => None
        end
      else None
  | None => None
  end.

(** An interleaving of the steps of several buttons. *)
Fixpoint home_exec (H : Hass) (sched : list (nat * Label)) (h : Home)
  : option Home :=
  match sched with
  | [] => Some h
  | il :: sched' =>
      match home_step H il h with
      | Some h1 => home_exec H sched' h1
      | None => None
      end
  end.

(** The process after [setup] constructed an object for each keypad
    button: no timer yet, and each object has subscribed to its button. *)
Definition install (H : Hass) (t0 : Z) (specs : list (string * Keypad * Button))
  : Home :=
  mkHome ((λ s, __init__ (serving H []) s.1.1 s.1.2 s.2) <$> specs) [] [] t0
    ((λ i, (i, mkEntry t0 RawThread button_subscribe)) <$> seq 0 (length specs)).

(** *** One button's part of the process *)

(** The reference a timer of object [i] has when [i] is alone: the
    number of timers [i] created before it. *)
Definition local_ref (ow : list nat) (i r : nat) : nat :=
  length (filter (λ j, j = i) (take r ow)).

(** The timers object [i] created, oldest first. *)
Definition own_timers (ow : list nat) (i : nat) (ts : list Timer) : list Timer :=
  omap (λ p, if decide (p.1 = i) then Some p.2 else None) (zip ow ts).

Definition local_self (ow : list nat) (i : nat) (b : LutronButton) : LutronButton :=
  with_timer (local_ref ow i <$> timer b) b.

Definition local_thread (ow : list nat) (i : nat) (th : Thread) : Thread :=
  match th with
  | RawThread => RawThread
  | TimerThread r => TimerThread (local_ref ow i r)
  end.

Definition local_call (ow : list nat) (i : nat) (c : Call) : Call :=
  match c with
  | timer_cancel r => timer_cancel (local_ref ow i r)
  | timer_start r => timer_start (local_ref ow i r)
  | _ => c
  end.

Definition local_entry (ow : list nat) (i : nat) (e : Entry) : Entry :=
  mkEntry (at_time e) (local_thread ow i (by_thread e)) (local_call ow i (what e)).

Definition local_label (ow : list nat) (i : nat) (l : Label) : Label :=
  match l with
  | Raw t event => Raw t event
  | Wake t r => Wake t (local_ref ow i r)
  | Run t r => Run t (local_ref ow i r)
  end.

(** The steps of object [i] in an interleaving, in their order. *)
Definition own_steps (ow : list nat) (i : nat) (sched : list (nat * Label))
  : list Label :=
  omap (λ il, if decide (il.1 = i) then Some (local_label ow i il.2) else None)
       sched.

(** The calls object [i] made, in their order. *)
Definition own_calls (ow : list nat) (i : nat) (calls : list (nat * Entry))
  : list Entry :=
  omap (λ ie, if decide (ie.1 = i) then Some (local_entry ow i ie.2) else None)
       calls.

(** A world of the whole process as object [i] alone would see it, after
    the calls [tr0]. *)
Definition localise (ow : list nat) (i : nat) (tr0 : list Entry) (w : World)
  : World :=
  mkWorld (local_self ow i (self w)) (own_timers ow i (timers w)) (now w)
    (local_thread ow i (running w)) (tr0 ++ (local_entry ow i <$> trace w)).

(** The shared [hass] answers the calls of object [b] the same way
    whatever was called on it before. *)
Definition answers_alike (H : Hass) (b : LutronButton) : Prop :=
  ∀ calls t a, a ∈ classified →
    bus_fire_after H calls t (_event b) (action_data b a)
      = bus_fire_after H [] t (_event b) (action_data b a) ∧
    log_entry_after H calls t a (str_dict (serving H []) (action_data b a)) DOMAIN
      = log_entry_after H [] t a (str_dict (serving H []) (action_data b a)) DOMAIN.

(** Every timer an object refers to is one it created. *)
Definition slots_owned (h : Home) : Prop :=
  length (owner h) = length (heap h) ∧
  ∀ j b r, buttons h !! j = Some b → timer b = Some r → owner h !! r = Some j.

(** Object [i]'s part of the process [h], as the world [w] of [i] alone. *)
Definition part_of (ow : list nat) (i : nat) (h : Home) (w : World) : Prop :=
  ∃ b, buttons h !! i = Some b ∧
       self w = local_self ow i b ∧
       timers w = own_timers ow i (heap h) ∧
       trace w = own_calls ow i (history h) ∧
       now w ≤ clock h.

(** ** A sample installation, for evaluation *)

Module Sample.
Definition hass : Platform :=
  mkPlatform (λ s, s) (λ s, "'" +:+ s +:+ "'") (λ _ _ _, None) (λ _ _ _ _, None).

(** A platform whose event bus is down. *)
Definition broken : Platform :=
  mkPlatform (λ s, s) (λ s, "'" +:+ s +:+ "'")
    (λ _ _ _, Some (Exception "HomeAssistantError")) (λ _ _ _ _, None).

(** A keypad button of type [Toggle]: no release capability. *)
Definition toggle : Button := mkButton "Scene 1" 3 (Some "Toggle").
(** A raise/lower button: release capability. *)
Definition raise_btn : Button := mkButton "Raise" 5 (Some "MasterRaiseLower").
Definition keypad : Keypad := mkKeypad "Entry".

Definition toggle_world : World := construct hass 0 "Hall" keypad toggle.
Definition raise_world : World := construct hass 0 "Hall" keypad raise_btn.

(** The toggle button after a PRESS at 0. *)
Definition pressed_world : World :=
  Eval vm_compute in default toggle_world (exec hass [Raw 0 PRESSED] toggle_world).

(** PRESS at 0, PRESS again at 0.3 s, then the timers run their course. *)
Definition repress_tail : list Label :=
  [Wake 300 0; Wake 800 1; Run 800 1; Wake 1800 2; Run 1800 2].
Definition repressed_world : World :=
  Eval vm_compute in
    default toggle_world
      (exec hass (Raw 0 PRESSED :: Raw 300 PRESSED :: repress_tail) toggle_world).

(** PRESS at 0, released at 0.2 s, then the cancelled timer wakes up. *)
Definition release_step_world : World :=
  Eval vm_compute in
    default toggle_world (exec hass [Raw 0 PRESSED; Raw 200 RELEASED] toggle_world).
Definition released_world : World :=
  Eval vm_compute in
    default toggle_world
      (exec hass [Raw 0 PRESSED; Raw 200 RELEASED; Wake 200 0] toggle_world).

(** PRESS at 0 and again at 0.3 s. *)
Definition repress_step_world : World :=
  Eval vm_compute in
    default toggle_world (exec hass [Raw 0 PRESSED; Raw 300 PRESSED] toggle_world).

(** PRESS at 0 with the event bus down. *)
Definition failed_world : World :=
  Eval vm_compute in
    default toggle_world (exec broken [Raw 0 PRESSED] toggle_world).

(** PRESS at 0 and the button held. *)
Definition held : list Label := [Wake 500 0; Run 500 0; Wake 1500 1; Run 1500 1].
Definition held_world : World :=
  Eval vm_compute in default toggle_world (exec hass (Raw 0 PRESSED :: held) toggle_world).

(** PRESS at 0; the RELEASE at 0.5 s comes when the thread of the
    long-press timer is already past its test of [finished]. *)
Definition late_release : list Label :=
  [Raw 0 PRESSED; Wake 500 0; Raw 500 RELEASED; Run 500 0].
Definition late_release_world : World :=
  Eval vm_compute in default toggle_world (exec hass late_release toggle_world).

(** Two buttons of one process, their streams interleaved, on a [hass]
    whose event bus refuses the events of the toggle button once any
    event was fired. *)
Definition crowded : Hass :=
  mkHass (λ s, s) (λ s, "'" +:+ s +:+ "'")
    (λ calls _ _ d,
       if bool_decide (dict_get ATTR_ID d = Some "Entry: Scene 1")
          && existsb (λ ie, match what ie.2 with bus_fire _ _ => true | _ => false end)
               calls
       then Some (Exception "HomeAssistantError") else None)
    (λ _ _ _ _ _, None).
Definition specs : list (string * Keypad * Button) :=
  [("Hall", keypad, toggle); ("Hall", keypad, raise_btn)].
Definition interleaved : list (nat * Label) :=
  [(0, Raw 0 PRESSED); (1, Raw 10 PRESSED); (0, Raw 200 RELEASED);
   (1, Wake 510 1); (1, Run 510 1); (0, Wake 600 0); (1, Raw 700 RELEASED)]%nat.
Definition two_buttons_after : Home :=
  Eval vm_compute in
    default (install crowded 0 specs)
      (home_exec crowded interleaved (install crowded 0 specs)).
(** Then the toggle button is pressed; the bus refuses the event. *)
Definition toggle_pressed_after : Home :=
  Eval vm_compute in
    default two_buttons_after
      (home_step crowded (0%nat, Raw 800 PRESSED) two_buttons_after).
End Sample.

(** ** What a step fires *)

(** The event a step hands to [hass.bus.fire], read off its label: a PRESS
    or a RELEASE fires its action, a timer that runs fires the action of
    its closure, and nothing else fires. *)
Definition label_fired (l : Label) (w : World) : list (Z * Thread * string) :=
  match l with
  | Raw t PRESSED => [(t, RawThread, "pressed")]
  | Raw t RELEASED => [(t, RawThread, "released")]
  | Raw _ (OTHER _) => []
  | Wake _ _ => []
  | Run t r =>
      match timers w !! r with
      | Some o => [(t, TimerThread r, closure_action (function o))]
      | None => []
      end
  end.

(** The events fired from the raw thread. *)
Definition raw_fired (w : World) : list (Z * Thread * string) :=
  filter (λ p, p.1.2 = RawThread) (fired w).

(** The events the raw input of a schedule asks for. *)
Definition raw_input (ls : list Label) : list (Z * Thread * string) :=
  omap (λ l, match l with
             | Raw t PRESSED => Some (t, RawThread, "pressed")
             | Raw t RELEASED => Some (t, RawThread, "released")
             | _ => None
             end) ls.

(** The steps of a schedule that fire an event. *)
Definition fires (l : Label) : bool :=
  match l with
  | Raw _ PRESSED | Raw _ RELEASED | Run _ _ => true
  | _ => false
  end.

(** ** When timers fire *)

(** Every timer was armed by an event fired when it was started: a
    long-press timer (0.5 s) by a "pressed", a super-long-press timer
    (1 s) by a "long_pressed"; a timer thread past its wait was due; and
    every event fired by a timer thread is the action of its closure,
    fired when the timer was due. *)
Definition timed (w : World) : Prop :=
  (∀ r o, timers w !! r = Some o →
     match function o with
     | long_press =>
         interval o = 500 ∧ (started o, RawThread, "pressed") ∈ fired w
     | super_long_press =>
         interval o = 1000 ∧
         ∃ r', (started o, TimerThread r', "long_pressed") ∈ fired w
     end ∧
     (phase o = Calling ∨ phase o = Ran → started o + interval o ≤ now w)) ∧
  (∀ t r a, (t, TimerThread r, a) ∈ fired w →
     ∃ o, timers w !! r = Some o ∧ a = closure_action (function o) ∧
          started o + interval o ≤ t) ∧
  (∀ t a, (t, RawThread, a) ∈ fired w → a = "pressed" ∨ a = "released").

(** ** A press in any quiet state *)

(** A timer whose function will not run any more. *)
Definition dead (o : Timer) : Prop := outstanding o = false.

(** The stages of the escalation a PRESS at [t1] starts, seen at time
    [nw] with [self.timer] being [slot]: the timers it has created so far
    and the events fired so far, the first of the timers being number [n]
    of the store.  The long-press timer waits; it is due; it ran at [ta]
    and the super-long-press timer waits; that one is due; it ran at
    [tb]. *)
Inductive chain_stage (t1 : Z) (n : nat) (nw : Z) (slot : option nat)
  : list Timer → list (Z * Thread * string) → Prop :=
| stage_armed :
    chain_stage t1 n nw slot
      [mkTimer 500 long_press t1 false Waiting]
      [(t1, RawThread, "pressed")]
| stage_long_due :
    t1 + 500 ≤ nw →
    chain_stage t1 n nw slot
      [mkTimer 500 long_press t1 false Calling]
      [(t1, RawThread, "pressed")]
| stage_long ta :
    t1 + 500 ≤ ta →
    chain_stage t1 n nw slot
      [mkTimer 500 long_press t1 true Ran;
       mkTimer 1000 super_long_press ta false Waiting]
      [(t1, RawThread, "pressed"); (ta, TimerThread n, "long_pressed")]
| stage_super_due ta :
    t1 + 500 ≤ ta → ta + 1000 ≤ nw →
    chain_stage t1 n nw slot
      [mkTimer 500 long_press t1 true Ran;
       mkTimer 1000 super_long_press ta false Calling]
      [(t1, RawThread, "pressed"); (ta, TimerThread n, "long_pressed")]
| stage_done ta tb :
    t1 + 500 ≤ ta → ta + 1000 ≤ tb → slot = None →
    chain_stage t1 n nw slot
      [mkTimer 500 long_press t1 true Ran;
       mkTimer 1000 super_long_press ta true Ran]
      [(t1, RawThread, "pressed"); (ta, TimerThread n, "long_pressed");
       (tb, TimerThread (S n), "super_long_pressed")].

(** The worlds a PRESS at [t1] leads to while no raw event follows, when
    it was delivered in a world with [n] timers that had fired [f0]: the
    [n] old timers are dead, and behind them and the old events the
    escalation is at one of its stages. *)
Definition escalating (n : nat) (f0 : list (Z * Thread * string)) (t1 : Z)
    (w : World) : Prop :=
  ∃ old chain new,
    length old = n ∧ Forall dead old ∧
    timers w = old ++ chain ∧ fired w = f0 ++ new ∧
    chain_stage t1 n (now w) (timer (self w)) chain new.

(** ** The names the constructor builds *)

(** The local [name] of [LutronButton.__init__]: keypad and button name,
    and for a button called "Unknown Button" its number. *)
Definition button_label (keypad : Keypad) (button : Button) : string :=
  let name0 := keypad_name keypad +:+ ": " +:+ name button in
  if bool_decide (name button = "Unknown Button")
  then name0 +:+ " " +:+ pretty (number button)
  else name0.

(** [hay] has [needle] as a substring. *)
Definition substring_of (needle hay : string) : Prop :=
  ∃ pre post, hay = pre +:+ needle +:+ post.

(** ** [setup]: the devices of the controller *)

(** The constants of [homeassistant.const] that [setup] uses. *)
Definition CONF_HOST : string := "host".
Definition CONF_PASSWORD : string := "password".
Definition CONF_USERNAME : string := "username".

Definition PLATFORMS : list string :=
  ["light"; "cover"; "switch"; "scene"; "binary_sensor"].

(** The pylutron objects [setup] walks through, with the attributes it
    reads: an output (its integration id stands for the object), an LED,
    an occupancy group, a keypad with its buttons and LEDs (and, as
    [kp_keypad], what the constructor of [LutronButton] reads of it), an
    area. *)
Record Output := mkOutput {
  o_id : Z;
  o_type : string;
  o_is_dimmable : bool }.

Record Led := mkLed {
  led_number : Z }.

Record OccupancyGroup := mkOccupancyGroup {
  group_id : Z }.

Record KeypadDevice := mkKeypadDevice {
  kp_keypad : Keypad;
  kp_buttons : list Button;
  kp_leds : list Led }.

Record Area := mkArea {
  a_name : string;
  a_outputs : list Output;
  a_keypads : list KeypadDevice;
  a_occupancy_group : option OccupancyGroup }.

(** The [pylutron.Lutron] object: what it was created with, and the areas
    and the GUID that [load_xml_db] fills in. *)
Record Lutron := mkLutron {
  lutron_host : string;
  lutron_user : string;
  lutron_password : string;
  areas : list Area;
  guid : string }.

(** The main repeater behind the two network calls: [load_xml_db] returns
    the GUID and the areas or raises, [connect] returns or raises. *)
Record Repeater := mkRepeater {
  xml_db : string → string → string → Exn + (string * list Area);
  connect_outcome : string → string → string → option Exn }.

(** [hass.data] under the three keys of the module; the dict under
    [LUTRON_DEVICES] has its five keys as fields.  A button object comes
    with its world. *)
Record HassData := mkHassData {
  lutron_buttons : list World;
  lutron_controller : option Lutron;
  light_devices : list (string * Output);
  cover_devices : list (string * Output);
  switch_devices : list (string * Output);
  scene_devices : list (string * string * Button * option Led);
  binary_sensor_devices : list (string * OccupancyGroup) }.

(** The calls [setup] makes on other objects. *)
Inductive SetupCall :=
| Lutron_init (host user password : string)
| load_xml_db
| connect
| info_connected (host : string)
| load_platform (platform domain : string).

Record SetupState := mkSetupState {
  data : HassData;
  setup_calls : list SetupCall }.

(** The state and exception monad of [setup]. *)
Definition Setup (A : Type) : Type := SetupState → Res A * SetupState.

Global Instance Setup_ret : MRet Setup := λ A a s, (Ok a, s).

Global Instance Setup_bind : MBind Setup := λ A B k m s,
  match m s with
  | (Ok a, s1) => k a s1
  | (Raise e, s1) => (Raise e, s1)
  end.

Definition set_data (f : HassData → HassData) : Setup unit :=
  λ s, (Ok (), mkSetupState (f (data s)) (setup_calls s)).

Definition setup_call (c : SetupCall) : Setup unit :=
  λ s, (Ok (), mkSetupState (data s) (setup_calls s ++ [c])).

Definition setup_raise {A} (e : Exn) : Setup A := λ s, (Raise e, s).

(** [d.get(k)] on the configuration, a dict of dicts. *)
Fixpoint config_get (k : string) (c : list (string * dict)) : option dict :=
  match c with
  | [] => None
  | (k', v) :: c' => if bool_decide (k' = k) then Some v else config_get k c'
  end.

(** [config[k]] where [config] may be [None]. *)
Definition subscript (config : option dict) (k : string) : Setup string :=
  match config with
  | None => setup_raise (Exception "TypeError: 'NoneType' object is not subscriptable")
  | Some d =>
      match dict_get k d with
      | Some v => mret v
      | None => setup_raise (Exception ("KeyError: " +:+ k))
      end
  end.

(** The three first statements of [setup]. *)
Definition empty_data : HassData :=
  mkHassData [] None [] [] [] [] [].

Definition with_controller (c : option Lutron) (d : HassData) : HassData :=
  mkHassData (lutron_buttons d) c (light_devices d) (cover_devices d)
    (switch_devices d) (scene_devices d) (binary_sensor_devices d).

(** The body of [for output in area.outputs]. *)
Definition sort_output (area_name : string) (d : HassData) (output : Output)
  : HassData :=
  if bool_decide (o_type output = "SYSTEM_SHADE") then
    mkHassData (lutron_buttons d) (lutron_controller d) (light_devices d)
      (cover_devices d ++ [(area_name, output)])
      (switch_devices d) (scene_devices d) (binary_sensor_devices d)
  else if o_is_dimmable output then
    mkHassData (lutron_buttons d) (lutron_controller d)
      (light_devices d ++ [(area_name, output)])
      (cover_devices d) (switch_devices d) (scene_devices d)
      (binary_sensor_devices d)
  else
    mkHassData (lutron_buttons d) (lutron_controller d) (light_devices d)
      (cover_devices d)
      (switch_devices d ++ [(area_name, output)])
      (scene_devices d) (binary_sensor_devices d).

(** The button types that make a scene. *)
Definition scene_types : list string :=
  ["SingleAction"; "Toggle"; "SingleSceneRaiseLower"; "MasterRaiseLower"].

(** The test [button.name != "Unknown Button" and button.button_type in
    (...)]. *)
Definition is_scene_button (button : Button) : bool :=
  bool_decide (name button ≠ "Unknown Button") &&
  match button_type button with
  | Some ty => bool_decide (ty ∈ scene_types)
  | None => false
  end.

(** [next((led for led in keypad.leds if led.number == button.number),
    None)] *)
Definition button_led (keypad : KeypadDevice) (button : Button) : option Led :=
  List.find (λ led, bool_decide (led_number led = number button)) (kp_leds keypad).

(** The body of [for button in keypad.buttons]; [t0] is the time of the
    call of [setup]. *)
Definition add_button (hass : Platform) (t0 : Z) (area_name : string)
    (keypad : KeypadDevice) (d : HassData) (button : Button) : HassData :=
  let d1 :=
    if is_scene_button button then
      mkHassData (lutron_buttons d) (lutron_controller d) (light_devices d)
        (cover_devices d) (switch_devices d)
        (scene_devices d
           ++ [(area_name, keypad_name (kp_keypad keypad), button,
                button_led keypad button)])
        (binary_sensor_devices d)
    else d in
  mkHassData
    (lutron_buttons d1 ++ [construct hass t0 area_name (kp_keypad keypad) button])
    (lutron_controller d1) (light_devices d1) (cover_devices d1)
    (switch_devices d1) (scene_devices d1) (binary_sensor_devices d1).

(** The body of [for area in hass.data[LUTRON_CONTROLLER].areas]. *)
Definition add_area (hass : Platform) (t0 : Z) (d : HassData) (area : Area)
  : HassData :=
  let d1 := fold_left (sort_output (a_name area)) (a_outputs area) d in
  let d2 :=
    fold_left
      (λ d keypad,
         fold_left (add_button hass t0 (a_name area) keypad) (kp_buttons keypad) d)
      (a_keypads area) d1 in
  match a_occupancy_group area with
  | Some group =>
      mkHassData (lutron_buttons d2) (lutron_controller d2) (light_devices d2)
        (cover_devices d2) (switch_devices d2) (scene_devices d2)
        (binary_sensor_devices d2 ++ [(a_name area, group)])
  | None => d2
  end.

(** [setup(hass, base_config)], called at time [t0]. *)
Definition setup (hass : Platform) (net : Repeater) (t0 : Z)
    (base_config : list (string * dict)) : Setup bool :=
  set_data (λ _, empty_data) ;;
  let config := config_get DOMAIN base_config in
  host ← subscript config CONF_HOST;
  user ← subscript config CONF_USERNAME;
  password ← subscript config CONF_PASSWORD;
  setup_call (Lutron_init host user password) ;;
  set_data (with_controller (Some (mkLutron host user password [] ""))) ;;
  setup_call load_xml_db ;;
  match xml_db net host user password with
  | inl e => setup_raise e
  | inr (g, ars) =>
      set_data (with_controller (Some (mkLutron host user password ars g))) ;;
      setup_call connect ;;
      match connect_outcome net host user password with
      | Some e => setup_raise e
      | None =>
          host' ← subscript config CONF_HOST;
          setup_call (info_connected host') ;;
          set_data (λ d,
            fold_left (add_area hass t0)
              (match lutron_controller d with Some c => areas c | None => [] end)
              d) ;;
          foldr (λ platform rest, setup_call (load_platform platform DOMAIN) ;; rest)
                (mret ()) PLATFORMS ;;
          mret true
      end
  end.

(** ** [LutronDevice] *)

(** A pylutron device behind an entity: the attributes [LutronDevice]
    reads. *)
Record Device := mkDevice {
  device_name : string;
  device_uuid : option string }.

Record LutronDevice := mkLutronDevice {
  _lutron_device : Device;
  _controller : Lutron;
  _device_area_name : string }.

(** [LutronDevice.name] *)
Definition LutronDevice_name (self : LutronDevice) : string :=
  _device_area_name self +:+ " " +:+ device_name (_lutron_device self).

(** [LutronDevice.should_poll] *)
Definition should_poll (self : LutronDevice) : bool := false.

(** [LutronDevice.unique_id] *)
Definition unique_id (self : LutronDevice) : option string :=
  match device_uuid (_lutron_device self) with
  | None => None
  | Some uuid => Some (guid (_controller self) +:+ "_" +:+ uuid)
  end.

(** ** The flattened views of the areas *)

(** Every output with the name of its area, in the order of the loops. *)
Definition all_outputs (ars : list Area) : list (string * Output) :=
  ars ≫= λ area, (λ output, (a_name area, output)) <$> a_outputs area.

(** Every button with its area and keypad, in the order of the loops. *)
Definition all_buttons (ars : list Area) : list (Area * KeypadDevice * Button) :=
  ars ≫= λ area, a_keypads area ≫= λ keypad,
    (λ button, (area, keypad, button)) <$> kp_buttons keypad.

(** The calls of a successful [setup], in their order. *)
Definition setup_calls_ok (host user password : string) : list SetupCall :=
  [Lutron_init host user password; load_xml_db; connect; info_connected host]
  ++ ((λ platform, load_platform platform DOMAIN) <$> PLATFORMS).

(** What [hass.data] holds after a successful [setup]. *)
Definition setup_data (hass : Platform) (t0 : Z) (host user password g : string)
    (ars : list Area) : HassData :=
  fold_left (add_area hass t0) ars
    (with_controller (Some (mkLutron host user password ars g)) empty_data).

(** ** What [setup] should have sorted where *)

(** The three kinds of output. *)
Definition is_cover (output : Output) : bool :=
  bool_decide (o_type output = "SYSTEM_SHADE").
Definition is_light (output : Output) : bool :=
  negb (is_cover output) && o_is_dimmable output.
Definition is_switch (output : Output) : bool :=
  negb (is_cover output) && negb (o_is_dimmable output).

(** The scene a button gives, if it gives one. *)
Definition scene_entry (abk : Area * KeypadDevice * Button)
  : option (string * string * Button * option Led) :=
  let '(area, keypad, button) := abk in
  if is_scene_button button
  then Some (a_name area, keypad_name (kp_keypad keypad), button,
             button_led keypad button)
  else None.

(** The object a button gives, with its world. *)
Definition button_world (hass : Platform) (t0 : Z)
    (abk : Area * KeypadDevice * Button) : World :=
  let '(area, keypad, button) := abk in
  construct hass t0 (a_name area) (kp_keypad keypad) button.

(** The occupancy sensor an area gives, if it gives one. *)
Definition sensor_entry (area : Area) : option (string * OccupancyGroup) :=
  (λ group, (a_name area, group)) <$> a_occupancy_group area.

(** ** A sample home, for evaluation *)

Module SampleHome.
Definition hall : Area :=
  mkArea "Hall"
    [mkOutput 1 "SYSTEM_SHADE" true; mkOutput 2 "INC" true;
     mkOutput 3 "NON_DIM" false]
    [mkKeypadDevice (mkKeypad "Entry")
       [mkButton "Scene 1" 1 (Some "Toggle");
        mkButton "Unknown Button" 2 None;
        mkButton "Raise" 3 (Some "MasterRaiseLower")]
       [mkLed 1; mkLed 7]]
    (Some (mkOccupancyGroup 9)).

Definition den : Area := mkArea "Den" [mkOutput 4 "NON_DIM" false] [] None.

(** A repeater that answers. *)
Definition net : Repeater :=
  mkRepeater (λ _ _ _, inr ("0x0123", [hall; den])) (λ _ _ _, None).

Definition settings : dict :=
  [("host", "10.0.0.2"); ("username", "lutron"); ("password", "integration")].

Definition base_config : list (string * dict) :=
  [("homeassistant", []); ("lutron_custom", settings)].

Definition before : SetupState := mkSetupState empty_data [].

Definition after : SetupState :=
  Eval vm_compute in (setup Sample.hass net 0 base_config before).2.

Definition controller : Lutron :=
  mkLutron "10.0.0.2" "lutron" "integration" [hall; den] "0x0123".

(** Two entities of the controller. *)
Definition shade : LutronDevice :=
  mkLutronDevice (mkDevice "Shade" (Some "a1")) controller "Hall".
Definition lamp : LutronDevice :=
  mkLutronDevice (mkDevice "Lamp" (Some "b2")) controller "Hall".
(** The shade again, as the entity of another area. *)
Definition shade_again : LutronDevice :=
  mkLutronDevice (mkDevice "Shade" (Some "a1")) controller "Den".

(** The toggle button of [Sample] after a PRESS and its long press. *)
Definition long_pressed_world : World :=
  Eval vm_compute in
    default Sample.toggle_world
      (exec Sample.hass [Raw 0 PRESSED; Wake 500 0; Run 500 0] Sample.toggle_world).

(** ... and released then, the cancelled timer waking up afterwards. *)
Definition let_go_world : World :=
  Eval vm_compute in
    default Sample.toggle_world
      (exec Sample.hass [Raw 700 RELEASED] long_pressed_world).
Definition let_go_later_world : World :=
  Eval vm_compute in
    default Sample.toggle_world
      (exec Sample.hass [Raw 700 RELEASED; Wake 700 1] long_pressed_world).
End SampleHome.

(** * Proofs *)

Lemma bind_eq {A B} (m : M A) (k : A → M B) (w : World) :
  (m ≫= k) w =
  match m w with
  | (Ok a, w1) => k a w1
  | (Raise e, w1) => (Raise e, w1)
  end.
Proof. reflexivity. Qed.

Lemma button_action_eq hass a w :
  let f := fire_entry (self w) (now w) (running w) a in
  let l := log_entry hass (self w) (now w) (running w) a in
  button_action hass a w =
  match failure hass f with
  | Some x => (Raise x, with_trace (trace w ++ [f]) w)
  | None =>
      (match failure hass l with
       | Some x => Raise x
       | None => Ok ()
       end,
       with_trace (trace w ++ [f; l]) w)
  end.
Proof.
  unfold button_action, hass_bus_fire, logbook_log, failure, fire_entry, log_entry.
  unfold mbind, M_bind, get, call, modify, raise_on. cbn.
  destruct (bus_fire_outcome hass _ _ _); cbn; [reflexivity|].
  unfold with_trace; cbn. rewrite <- app_assoc. cbn.
  destruct (log_entry_outcome hass _ _ _ _); reflexivity.
Qed.

Lemma arm_eq i f w :
  (r ← Timer_new i f; set_timer (Some r);; Timer_start r) w = (Ok (), armed i f w).
Proof.
  unfold Timer_new, set_timer, Timer_start, call, modify, get, armed.
  unfold mbind, M_bind. cbn. rewrite list_lookup_middle by reflexivity. cbn.
  unfold with_timers; cbn.
  rewrite alter_app_r_alt by reflexivity.
  rewrite Nat.sub_diag. reflexivity.
Qed.

Lemma cancel_pending_eq w : cancel_pending w = (Ok (), cancelled w).
Proof.
  unfold cancel_pending, cancelled, Timer_cancel, set_timer, call, modify, get.
  unfold mbind, M_bind, mret, M_ret. cbn. destruct (timer (self w)); reflexivity.
Qed.

Lemma button_callback_eq hass event w :
  button_callback hass event w =
  let w1 := cancelled (logged event w) in
  match event with
  | PRESSED =>
      match button_action hass "pressed" w1 with
      | (Ok _, w2) => (Ok (), armed 500 long_press w2)
      | (Raise x, w2) => (Raise x, w2)
      end
  | RELEASED => button_action hass "released" w1
  | OTHER _ => (Ok (), w1)
  end.
Proof.
  unfold button_callback.
  rewrite bind_eq; cbn [get]. rewrite bind_eq. cbn [call modify].
  fold (logged event w).
  rewrite bind_eq, cancel_pending_eq, bind_eq.
  destruct event.
  - rewrite bool_decide_eq_true_2 by reflexivity.
    rewrite bool_decide_eq_false_2 by discriminate.
    rewrite bind_eq.
    destruct (button_action hass "pressed" _) as [[[]|x] w2]; [|reflexivity].
    rewrite arm_eq. reflexivity.
  - rewrite bool_decide_eq_false_2 by discriminate.
    rewrite bool_decide_eq_true_2 by reflexivity.
    reflexivity.
  - rewrite !bool_decide_eq_false_2 by discriminate. reflexivity.
Qed.

Lemma long_press_func_eq hass w :
  long_press_func hass w =
  match button_action hass "long_pressed" w with
  | (Ok _, w2) => (Ok (), armed 1000 super_long_press w2)
  | (Raise x, w2) => (Raise x, w2)
  end.
Proof.
  unfold long_press_func. rewrite bind_eq.
  destruct (button_action hass "long_pressed" w) as [[[]|x] w2]; [|reflexivity].
  apply arm_eq.
Qed.

Lemma super_long_press_func_eq hass w :
  super_long_press_func hass w =
  button_action hass "super_long_pressed" (with_self (with_timer None (self w)) w).
Proof. reflexivity. Qed.

(** ** The steps, case by case *)

Lemma step_stepped hass l w res w' :
  step hass l w = Some (res, w') ↔ stepped hass w l res w'.
Proof.
  split.
  - unfold step. case_bool_decide as Hnow; [|discriminate].
    destruct l as [t event|t r|t r]; cbn in Hnow.
    + intros [= H]. apply stepped_raw; [done|].
      destruct (button_callback _ _ _); by simplify_eq.
    + destruct (timers w !! r) as [o|] eqn:Ho; [|discriminate].
      case_bool_decide as Hph; [|discriminate].
      destruct (finished o) eqn:Hfin.
      * intros [= <- <-]. by eapply stepped_skip.
      * case_bool_decide as Hdue; [|discriminate].
        intros [= <- <-]. by eapply stepped_wake.
    + destruct (timers w !! r) as [o|] eqn:Ho; [|discriminate].
      case_bool_decide as Hph; [|discriminate].
      destruct (closure_body _ _ _) as [[[]|x] w1] eqn:Hbody.
      * intros [= <- <-]. by eapply stepped_run_ok.
      * intros [= <- <-]. by eapply stepped_run_raise.
  - intros H. destruct H; unfold step; cbn [label_time].
    + rewrite bool_decide_eq_true_2 by done. by rewrite H0.
    + rewrite bool_decide_eq_true_2 by done. rewrite H0.
      rewrite bool_decide_eq_true_2 by done. by rewrite H2.
    + rewrite bool_decide_eq_true_2 by done. rewrite H0.
      rewrite bool_decide_eq_true_2 by done. rewrite H2.
      by rewrite bool_decide_eq_true_2 by done.
    + rewrite bool_decide_eq_true_2 by done. rewrite H0.
      rewrite bool_decide_eq_true_2 by done. by rewrite H2.
    + rewrite bool_decide_eq_true_2 by done. rewrite H0.
      rewrite bool_decide_eq_true_2 by done. by rewrite H2.
Qed.

Lemma exec_cons hass l ls w w' :
  exec hass (l :: ls) w = Some w' ↔
  ∃ res w1, stepped hass w l res w1 ∧ exec hass ls w1 = Some w'.
Proof.
  cbn. split.
  - destruct (step hass l w) as [[res w1]|] eqn:Hs; [|discriminate].
    intros H. exists res, w1. by rewrite <- step_stepped.
  - intros (res & w1 & Hs & H). apply step_stepped in Hs. by rewrite Hs.
Qed.

Lemma exec_app hass ls1 ls2 w w' :
  exec hass (ls1 ++ ls2) w = Some w' ↔
  ∃ w1, exec hass ls1 w = Some w1 ∧ exec hass ls2 w1 = Some w'.
Proof.
  revert w. induction ls1 as [|l ls1 IH]; intros w.
  - cbn. split; [eauto|]. by intros (w1 & [= <-] & H).
  - rewrite <- app_comm_cons. rewrite exec_cons. split.
    + intros (res & w1 & Hs & H). apply IH in H as (w2 & H1 & H2).
      exists w2. split; [|done]. apply exec_cons. eauto.
    + intros (w2 & H1 & H2). apply exec_cons in H1 as (res & w1 & Hs & H1).
      exists res, w1. split; [done|]. apply IH. eauto.
Qed.

(** Time does not run backwards. *)
Lemma stepped_now hass w l res w' :
  stepped hass w l res w' → now w ≤ label_time l.
Proof. by destruct 1. Qed.

(** ** What the bodies leave alone *)

Lemma action_data_identity b a : action_data (identity b) a = action_data b a.
Proof. reflexivity. Qed.

Lemma cancelled_trace w : trace (cancelled w) = trace w ++ cancel_entries w.
Proof.
  unfold cancelled, cancel_entries. destruct (timer (self w)); cbn; [done|].
  by rewrite app_nil_r.
Qed.

Lemma cancelled_identity w : identity (self (cancelled w)) = identity (self w).
Proof. unfold cancelled. by destruct (timer (self w)). Qed.

Lemma cancelled_slot w : timer (self (cancelled w)) = None.
Proof. unfold cancelled. by destruct (timer (self w)) eqn:E. Qed.

Lemma cancelled_now w : now (cancelled w) = now w.
Proof. unfold cancelled. by destruct (timer (self w)). Qed.

Lemma cancelled_running w : running (cancelled w) = running w.
Proof. unfold cancelled. by destruct (timer (self w)). Qed.

Lemma cancelled_timers w :
  timers (cancelled w) =
  match timer (self w) with
  | Some r => alter (with_finished true) r (timers w)
  | None => timers w
  end.
Proof. unfold cancelled. by destruct (timer (self w)). Qed.

Lemma fire_entry_identity b t th a :
  fire_entry (identity b) t th a = fire_entry b t th a.
Proof. reflexivity. Qed.

Lemma log_entry_identity hass b t th a :
  log_entry hass (identity b) t th a = log_entry hass b t th a.
Proof. reflexivity. Qed.

Ltac in_classified := unfold classified; repeat constructor.

(** [button_action] on its own: an emission, and nothing else changes. *)
Lemma button_action_emission hass a w res w' :
  a ∈ classified →
  button_action hass a w = (res, w') →
  ∃ mid, trace w' = trace w ++ mid ∧
         emission hass (identity (self w)) (now w) (running w) res mid ∧
         (mid = [fire_entry (self w) (now w) (running w) a] ∨
          mid = [fire_entry (self w) (now w) (running w) a;
                 log_entry hass (self w) (now w) (running w) a]) ∧
         self w' = self w ∧ timers w' = timers w ∧
         now w' = now w ∧ running w' = running w.
Proof.
  intros Ha. rewrite button_action_eq. cbv zeta.
  destruct (failure hass (fire_entry _ _ _ a)) as [x|] eqn:Hf.
  - intros [= <- <-]. eexists. split; [reflexivity|]. split; [|by auto].
    rewrite <- fire_entry_identity in Hf |- *.
    by apply emission_fire_raised.
  - destruct (failure hass (log_entry hass _ _ _ a)) as [x|] eqn:Hl.
    + intros [= <- <-]. eexists. split; [reflexivity|]. split; [|by auto].
      rewrite <- fire_entry_identity in Hf |- *.
      rewrite <- log_entry_identity in Hl |- *.
      by apply emission_log_raised.
    + intros [= <- <-]. eexists. split; [reflexivity|]. split; [|by auto].
      rewrite <- fire_entry_identity in Hf |- *.
      rewrite <- log_entry_identity in Hl |- *.
      by apply emission_done.
Qed.

Lemma opening_quiet event w : Forall quiet (opening event w).
Proof.
  unfold opening, cancel_entries.
  destruct (timer (self w)); repeat constructor.
Qed.

Lemma cancelled_logged event w :
  trace (cancelled (logged event w)) = trace w ++ opening event w ∧
  identity (self (cancelled (logged event w))) = identity (self w) ∧
  now (cancelled (logged event w)) = now w ∧
  running (cancelled (logged event w)) = running w ∧
  timer (self (cancelled (logged event w))) = None ∧
  timers (cancelled (logged event w)) = timers (cancelled w).
Proof.
  rewrite cancelled_trace, cancelled_identity, cancelled_now, cancelled_running,
    cancelled_slot, !cancelled_timers.
  unfold opening, logged, cancel_entries. cbn.
  rewrite <- app_assoc. done.
Qed.

(** The entries of an emission, whoever [self.timer] refers to. *)
Lemma entries_identity hass b b' t th a :
  identity b = identity b' →
  fire_entry b t th a = fire_entry b' t th a ∧
  log_entry hass b t th a = log_entry hass b' t th a.
Proof.
  intros H.
  rewrite <- (fire_entry_identity b), <- (log_entry_identity hass b), H.
  done.
Qed.

Lemma button_callback_trace hass event w res w' :
  button_callback hass event w = (res, w') →
  ∃ mid, trace w' = trace w ++ opening event w ++ mid ∧
         emission hass (identity (self w)) (now w) (running w) res mid ∧
         identity (self w') = identity (self w) ∧
         now w' = now w ∧ running w' = running w.
Proof.
  rewrite button_callback_eq. cbv zeta.
  destruct (cancelled_logged event w) as (Htr & Hid & Hnow & Hrun & _ & _).
  set (w1 := cancelled (logged event w)) in *.
  assert (∀ a res2 w2, a ∈ classified → button_action hass a w1 = (res2, w2) →
    ∃ mid, trace w2 = trace w ++ opening event w ++ mid ∧
           emission hass (identity (self w)) (now w) (running w) res2 mid ∧
           (res2 = Ok () → ∀ r,
              emission hass (identity (self w)) (now w) (running w) (Ok ())
                (mid ++ [mkEntry (now w) (running w) (timer_start r)])) ∧
           identity (self w2) = identity (self w) ∧
           now w2 = now w ∧ running w2 = running w ∧
           timers w2 = timers w1) as Hact.
  { intros a res2 w2 Ha. rewrite button_action_eq. cbv zeta.
    destruct (entries_identity hass _ _ (now w1) (running w1) a Hid) as [-> ->].
    rewrite <- fire_entry_identity, <- log_entry_identity, Hnow, Hrun.
    destruct (failure hass (fire_entry _ _ _ a)) as [x|] eqn:Hf.
    - intros [= <- <-]. eexists. cbn. rewrite Htr, <- app_assoc.
      split; [reflexivity|]. split; [by apply emission_fire_raised|].
      split; [discriminate|]. by rewrite Hid, Hnow, Hrun.
    - destruct (failure hass (log_entry hass _ _ _ a)) as [x|] eqn:Hl.
      + intros [= <- <-]. eexists. cbn. rewrite Htr, <- app_assoc.
        split; [reflexivity|]. split; [by apply emission_log_raised|].
        split; [discriminate|]. by rewrite Hid, Hnow, Hrun.
      + intros [= <- <-]. eexists. cbn. rewrite Htr, <- app_assoc.
        split; [reflexivity|]. split; [by apply emission_done|].
        split; [intros _ r; by apply emission_armed|].
        by rewrite Hid, Hnow, Hrun. }
  destruct event.
  - destruct (button_action hass "pressed" w1) as [[[]|x] w2] eqn:Hb.
    + apply Hact in Hb as (mid & Htr2 & _ & Harm & Hid2 & Hnow2 & Hrun2 & _);
        [|in_classified].
      intros [= <- <-]. eexists. unfold armed. cbn.
      rewrite Htr2, Hnow2, Hrun2, <- !app_assoc.
      split; [reflexivity|]. split; [by apply Harm|]. done.
    + apply Hact in Hb as (mid & Htr2 & Hem & _ & Hid2 & Hnow2 & Hrun2 & _);
        [|in_classified].
      intros [= <- <-]. eauto 10.
  - intros Hb.
    apply Hact in Hb as (mid & Htr2 & Hem & _ & Hid2 & Hnow2 & Hrun2 & _);
      [|in_classified].
    eauto 10.
  - intros [= <- <-]. exists []. rewrite app_nil_r.
    split; [done|]. split; [constructor|]. done.
Qed.

Lemma emission_identity hass b t th res mid :
  emission hass b t th res mid → emission hass (identity b) t th res mid.
Proof.
  destruct 1 as [|a x Ha Hf|a x Ha Hf Hl|a Ha Hf Hl|a r Ha Hf Hl].
  - constructor.
  - exact (emission_fire_raised hass (identity b) t th a x Ha Hf).
  - exact (emission_log_raised hass (identity b) t th a x Ha Hf Hl).
  - exact (emission_done hass (identity b) t th a Ha Hf Hl).
  - exact (emission_armed hass (identity b) t th a r Ha Hf Hl).
Qed.

Lemma closure_body_trace hass f w res w' :
  closure_body hass f w = (res, w') →
  ∃ mid, trace w' = trace w ++ mid ∧
         emission hass (identity (self w)) (now w) (running w) res mid ∧
         identity (self w') = identity (self w) ∧
         now w' = now w ∧ running w' = running w.
Proof.
  destruct f; cbn [closure_body].
  - rewrite long_press_func_eq, button_action_eq. cbv zeta.
    destruct (failure hass (fire_entry _ _ _ _)) as [y|] eqn:Hf;
      [|destruct (failure hass (log_entry hass _ _ _ _)) as [z|] eqn:Hl];
      intros [= <- <-]; eexists; cbn; rewrite <- ?app_assoc;
      (split; [reflexivity|]); (split; [|done]); apply emission_identity.
    + apply emission_fire_raised; [in_classified|done].
    + apply emission_log_raised; [in_classified|done..].
    + apply emission_armed; [in_classified|done..].
  - rewrite super_long_press_func_eq, button_action_eq. cbv zeta.
    destruct (failure hass (fire_entry _ _ _ _)) as [y|] eqn:Hf;
      [|destruct (failure hass (log_entry hass _ _ _ _)) as [z|] eqn:Hl];
      intros [= <- <-]; eexists; cbn;
      (split; [reflexivity|]); (split; [|done]);
      apply (emission_identity hass (with_self (with_timer None (self w)) w).(self)).
    + apply emission_fire_raised; [in_classified|done].
    + apply emission_log_raised; [in_classified|done..].
    + apply emission_done; [in_classified|done..].
Qed.

(** Every step appends quiet entries and then one emission, by its own
    thread at its own time, and leaves the identity alone. *)
Lemma stepped_trace hass w l res w' :
  stepped hass w l res w' →
  ∃ qs mid, trace w' = trace w ++ qs ++ mid ∧
            Forall quiet qs ∧
            emission hass (identity (self w)) (label_time l) (thread_of l) res mid ∧
            identity (self w') = identity (self w) ∧
            now w' = label_time l.
Proof.
  destruct 1 as [t event res w' Hnow Hb|t r o Hnow Ho Hph Hfin
                |t r o Hnow Ho Hph Hfin Hdue|t r o w1 Hnow Ho Hph Hb
                |t r o x w1 Hnow Ho Hph Hb]; cbn [label_time thread_of].
  - apply button_callback_trace in Hb as (mid & Htr & Hem & Hid & Hn & Hr).
    exists (opening event (entering t RawThread w)), mid.
    split; [done|]. split; [apply opening_quiet|]. done.
  - exists [], []. cbn. rewrite app_nil_r. repeat split; constructor.
  - exists [], []. cbn. rewrite app_nil_r. repeat split; constructor.
  - apply closure_body_trace in Hb as (mid & Htr & Hem & Hid & Hn & Hr).
    exists [], mid. cbn. repeat split; first [done|constructor].
  - apply closure_body_trace in Hb as (mid & Htr & Hem & Hid & Hn & Hr).
    exists [], mid. cbn. repeat split; first [done|constructor].
Qed.

(** ** What the bodies do to the timers *)

Lemma button_callback_store hass event w res w' :
  button_callback hass event w = (res, w') →
  (timers w' = timers (cancelled w) ∧ timer (self w') = None ∧
   (event = PRESSED → ∃ x, res = Raise x)) ∨
  (event = PRESSED ∧ res = Ok () ∧
   timers w' = timers (cancelled w) ++ [mkTimer 500 long_press (now w) false Waiting] ∧
   timer (self w') = Some (length (timers w))).
Proof.
  rewrite button_callback_eq. cbv zeta.
  destruct (cancelled_logged event w) as (_ & _ & Hnow & _ & Hslot & Hts).
  set (w1 := cancelled (logged event w)) in *.
  assert (∀ a res2 w2, button_action hass a w1 = (res2, w2) →
            self w2 = self w1 ∧ timers w2 = timers w1 ∧ now w2 = now w1) as Hact.
  { intros a res2 w2. rewrite button_action_eq. cbv zeta.
    destruct (failure hass (fire_entry _ _ _ _)); by intros [= <- <-]. }
  destruct event.
  - destruct (button_action hass "pressed" w1) as [[[]|x] w2] eqn:Hb;
      apply Hact in Hb as (Hs & Ht & Hn); intros [= <- <-].
    + right. unfold armed. cbn. rewrite Ht, Hts, Hn, Hnow.
      repeat split. rewrite cancelled_timers.
      destruct (timer (self w)); by rewrite ?length_alter.
    + left. rewrite Hs, Ht. eauto.
  - intros Hb. apply Hact in Hb as (Hs & Ht & Hn). left.
    rewrite Hs, Ht. repeat split; [done..|discriminate].
  - intros [= <- <-]. left. repeat split; [done..|discriminate].
Qed.

Lemma closure_body_store hass f w res w' :
  closure_body hass f w = (res, w') →
  match f with
  | long_press =>
      (∃ x, res = Raise x) ∧ timers w' = timers w ∧
        timer (self w') = timer (self w) ∨
      res = Ok () ∧
        timers w' = timers w ++ [mkTimer 1000 super_long_press (now w) false Waiting] ∧
        timer (self w') = Some (length (timers w))
  | super_long_press => timers w' = timers w ∧ timer (self w') = None
  end.
Proof.
  destruct f; cbn [closure_body].
  - rewrite long_press_func_eq, button_action_eq. cbv zeta.
    destruct (failure hass (fire_entry _ _ _ _)) as [y|];
      [|destruct (failure hass (log_entry hass _ _ _ _)) as [z|]];
      intros [= <- <-]; cbn; eauto 10.
  - rewrite super_long_press_func_eq, button_action_eq. cbv zeta.
    destruct (failure hass (fire_entry _ _ _ _)); by intros [= <- <-].
Qed.

(** ** The shape of the call history *)

Lemma quiet_failure hass e : quiet e → failure hass e = None.
Proof. unfold quiet, failure. by destruct (what e). Qed.

Lemma quiet_fired e : quiet e → fired_entry e = None.
Proof. unfold quiet, fired_entry. by destruct (what e). Qed.

Lemma quiet_omap_fired qs : Forall quiet qs → omap fired_entry qs = [].
Proof.
  induction 1 as [|e qs He _ IH]; [done|].
  cbn. by rewrite (quiet_fired e He).
Qed.

Lemma emission_log_app hass b tr1 tr2 :
  emission_log hass b tr1 → emission_log hass b tr2 →
  emission_log hass b (tr1 ++ tr2).
Proof.
  intros H1 H2. induction H1; cbn; [done|..].
  - by apply log_quiet.
  - by apply log_failed.
  - by apply log_pair.
Qed.

Lemma emission_log_quiet hass b qs : Forall quiet qs → emission_log hass b qs.
Proof. induction 1; [constructor|by apply log_quiet]. Qed.

Lemma emission_emission_log hass b t th res mid :
  emission hass b t th res mid → emission_log hass b mid.
Proof.
  destruct 1 as [|a x Ha Hf|a x Ha Hf Hl|a Ha Hf Hl|a r Ha Hf Hl].
  - constructor.
  - apply log_failed; [done|by rewrite Hf|constructor].
  - apply log_pair; [done..|constructor].
  - apply log_pair; [done..|constructor].
  - apply log_pair; [done..|]. apply log_quiet; [done|constructor].
Qed.

(** In such a history every fired event has the fixed name and the five
    keys, filled from [b]. *)
Lemma emission_log_payload hass b tr e ty d :
  emission_log hass b tr → e ∈ tr → what e = bus_fire ty d →
  ty = _event b ∧
  ∃ a, a ∈ classified ∧
       d = [ ("id", _id b); ("action", a); ("full_id", _full_id b);
             ("area_name", _area_name b); ("button_name", _button_name b) ].
Proof.
  intros Hlog. revert e.
  induction Hlog as [|e0 tr Hq _ IH|t th a tr Ha Hf _ IH|t th a tr Ha Hf _ IH];
    intros e He Hw.
  - by apply elem_of_nil in He.
  - apply elem_of_cons in He as [->|He]; [|by apply (IH e)].
    unfold quiet in Hq. by rewrite Hw in Hq.
  - apply elem_of_cons in He as [->|He]; [|by apply (IH e)].
    cbn in Hw. injection Hw as <- <-. eauto.
  - apply elem_of_cons in He as [->|He].
    { cbn in Hw. injection Hw as <- <-. eauto. }
    apply elem_of_cons in He as [->|He]; [discriminate|by apply (IH e)].
Qed.

(** The history of a run keeps that shape, and the identity is never
    written. *)
Lemma stepped_emission_log hass b w l res w' :
  stepped hass w l res w' →
  identity (self w) = identity b → emission_log hass (identity b) (trace w) →
  identity (self w') = identity b ∧ emission_log hass (identity b) (trace w').
Proof.
  intros Hs Hid Hlog.
  apply stepped_trace in Hs as (qs & mid & -> & Hq & Hem & Hid' & _).
  split; [congruence|].
  apply emission_log_app; [done|]. apply emission_log_app.
  - by apply emission_log_quiet.
  - rewrite <- Hid. by eapply emission_emission_log.
Qed.

Lemma exec_emission_log hass b ls w w' :
  exec hass ls w = Some w' →
  identity (self w) = identity b → emission_log hass (identity b) (trace w) →
  identity (self w') = identity b ∧ emission_log hass (identity b) (trace w').
Proof.
  revert w. induction ls as [|l ls IH]; intros w.
  - by intros [= <-].
  - rewrite exec_cons. intros (res & w1 & Hs & Hex) Hid Hlog.
    destruct (stepped_emission_log _ _ _ _ _ _ Hs Hid Hlog). by apply (IH w1).
Qed.

(** C7: every emitted event uses the one event name of the object and the
    payload {id, action, full_id, area_name, button_name} filled from the
    attributes the constructor set, and every emission whose [fire] call
    returned is followed at once by one log entry carrying the action and
    the payload as text: in the call history of any run from construction,
    calls on the two collaborators occur only as such pairs (or as a lone
    [fire] that raised). *)
Theorem emissions_have_fixed_shape_and_log_entry
    hass t0 area_name keypad button ls w :
  exec hass ls (construct hass t0 area_name keypad button) = Some w →
  let b := __init__ hass area_name keypad button in
  emission_log hass b (trace w) ∧
  (∀ e ty d, e ∈ trace w → what e = bus_fire ty d →
     ty = "lutron_event" ∧
     ∃ a, a ∈ classified ∧
          d = [ ("id", _id b); ("action", a); ("full_id", _full_id b);
                ("area_name", area_name); ("button_name", name button) ]) ∧
  (∀ pre e post a, trace w = pre ++ e :: post →
     e = fire_entry b (at_time e) (by_thread e) a → failure hass e = None →
     ∃ post', post = log_entry hass b (at_time e) (by_thread e) a :: post').
Proof.
  intros Hex b.
  assert (emission_log hass b (trace w)) as Hlog.
  { eapply (exec_emission_log hass b) in Hex as [_ H]; [exact H|done|].
    cbn. apply log_quiet; [done|constructor]. }
  split; [done|]. split.
  - intros e ty d He Hw.
    by destruct (emission_log_payload _ _ _ _ _ _ Hlog He Hw).
  - clear Hex. induction Hlog as [|e0 tr Hq _ IH|t th a0 tr Ha Hf _ IH
                                 |t th a0 tr Ha Hf _ IH];
      intros pre e post a Htr He Hok.
    + by destruct pre.
    + destruct pre as [|p pre]; simplify_eq/=; [|by eapply IH].
      unfold quiet in Hq. rewrite He in Hq. done.
    + destruct pre as [|p pre]; simplify_eq/=. by eapply IH.
    + destruct pre as [|p pre]; simplify_eq/=.
      * eauto.
      * destruct pre as [|p' pre]; simplify_eq/=. by eapply IH.
Qed.

(** ** Failures of the collaborators *)

(** Among the entries a step appends, a call that raised is the last one. *)
Lemma quiet_then_failure hass qs mid (res : Res unit) :
  Forall quiet qs →
  (∀ pre e post x, mid = pre ++ e :: post → failure hass e = Some x →
                   post = [] ∧ res = Raise x) →
  ∀ pre e post x, qs ++ mid = pre ++ e :: post → failure hass e = Some x →
                  post = [] ∧ res = Raise x.
Proof.
  intros Hq Hmid. induction Hq as [|q qs Hq _ IH]; [done|].
  intros [|p pre] e post x; cbn; intros [= -> Heq] Hf.
  - rewrite (quiet_failure hass e Hq) in Hf. discriminate.
  - by eapply IH.
Qed.

Lemma emission_failure_last hass b t th res mid :
  emission hass b t th res mid →
  ∀ pre e post x, mid = pre ++ e :: post → failure hass e = Some x →
                  post = [] ∧ res = Raise x.
Proof.
  destruct 1 as [|a y Ha Hf|a y Ha Hf Hl|a Ha Hf Hl|a r Ha Hf Hl];
    intros pre e post x Heq Hx.
  - by destruct pre.
  - destruct pre as [|? [|? ?]]; simplify_eq/=. done.
  - destruct pre as [|? [|? [|? ?]]]; simplify_eq/=. done.
  - destruct pre as [|? [|? [|? ?]]]; simplify_eq/=.
  - destruct pre as [|? [|? [|? [|? ?]]]]; simplify_eq/=.
Qed.

(** C8: when the event sink or the log collaborator raises during an
    emission, the body does nothing more (no retry, no further call) and
    the same exception leaves through the caller of the raw-event callback
    or of the timer function: among the calls a step adds to the history,
    one that raised [x] is the last, and the step's result is [Raise x]. *)
Theorem sink_failure_propagates hass l w res w' :
  step hass l w = Some (res, w') →
  ∃ new, trace w' = trace w ++ new ∧
         ∀ pre e post x, new = pre ++ e :: post → failure hass e = Some x →
                         post = [] ∧ res = Raise x.
Proof.
  intros Hs. apply step_stepped in Hs.
  apply stepped_trace in Hs as (qs & mid & Htr & Hq & Hem & _).
  exists (qs ++ mid). split; [done|].
  apply quiet_then_failure; [done|]. by eapply emission_failure_last.
Qed.

(** C10: when the sink raises on the "pressed" emission of a PRESS, the
    callback leaves with that exception before any timer is created:
    [self.timer] is [None], the store holds the timers it held (the old
    one cancelled), no [start()] is called, and a button that was idle is
    idle again. *)
Theorem failed_pressed_emission_arms_no_timer hass w t x :
  now w ≤ t →
  bus_fire_outcome hass t (_event (self w)) (action_data (self w) "pressed")
    = Some x →
  ∃ w', step hass (Raw t PRESSED) w = Some (Raise x, w') ∧
        timer (self w') = None ∧
        timers w' = timers (cancelled w) ∧
        length (timers w') = length (timers w) ∧
        trace w' = trace w ++ opening PRESSED (entering t RawThread w)
                     ++ [fire_entry (self w) t RawThread "pressed"] ∧
        (idle w → idle w').
Proof.
  intros Hnow Hx.
  destruct (cancelled_logged PRESSED (entering t RawThread w))
    as (Htr & Hid & Hn & Hr & Hslot & Hts).
  pose proof (button_callback_eq hass PRESSED (entering t RawThread w)) as Hcb.
  cbv zeta in Hcb. rewrite button_action_eq in Hcb. cbv zeta in Hcb.
  set (w1 := cancelled (logged PRESSED (entering t RawThread w))) in *.
  destruct (entries_identity hass _ _ (now w1) (running w1) "pressed" Hid)
    as [Hfe _].
  rewrite Hfe, Hn, Hr in Hcb. cbn in Hcb. rewrite Hx in Hcb.
  eexists. split.
  { apply step_stepped. apply stepped_raw; [done|exact Hcb]. }
  cbn. rewrite Hslot, Hts, Htr. rewrite <- app_assoc.
  assert (timers (cancelled (entering t RawThread w)) = timers (cancelled w))
    as -> by (rewrite !cancelled_timers; done).
  split; [done|]. split; [done|]. split; [|split; [done|]].
  - rewrite cancelled_timers. destruct (timer (self w)); by rewrite ?length_alter.
  - intros [Hnone Hp]. split; [exact Hslot|].
    unfold pending in *. cbn. rewrite Hts, cancelled_timers. cbn.
    rewrite Hnone. exact Hp.
Qed.

(** ** Outstanding timers *)

Lemma elem_of_pending w r :
  r ∈ pending w ↔ ∃ o, timers w !! r = Some o ∧ outstanding o = true.
Proof.
  unfold pending. rewrite list_elem_of_filter, elem_of_seq. split.
  - intros [H _]. destruct (timers w !! r) as [o|]; [|done].
    exists o. split; [done|]. by injection H.
  - intros (o & Ho & Hout). rewrite Ho. cbn. split; [by rewrite Hout|].
    apply lookup_lt_Some in Ho. lia.
Qed.

Lemma pending_nil w :
  pending w = [] ↔ ∀ r o, timers w !! r = Some o → outstanding o = false.
Proof.
  split.
  - intros Hp r o Ho. destruct (outstanding o) eqn:Hout; [|done].
    assert (r ∈ pending w) as Hin by (apply elem_of_pending; eauto).
    rewrite Hp in Hin. by apply elem_of_nil in Hin.
  - intros H. apply elem_of_nil_inv. intros r Hin.
    apply elem_of_pending in Hin as (o & Ho & Hout).
    rewrite (H r o Ho) in Hout. discriminate.
Qed.

Lemma pending_NoDup w : NoDup (pending w).
Proof. unfold pending. apply NoDup_filter, NoDup_seq. Qed.

(** When every outstanding timer is one and the same, at most one is. *)
Lemma pending_at_most_one w (slot : option nat) :
  (∀ r, r ∈ pending w → slot = Some r) → (length (pending w) ≤ 1)%nat.
Proof.
  intros H. pose proof (pending_NoDup w) as Hnd.
  destruct (pending w) as [|r1 [|r2 rs]]; cbn; [lia..|].
  exfalso. apply NoDup_cons in Hnd as [Hnotin _]. apply Hnotin.
  assert (Some r1 = Some r2) as [= ->].
  { rewrite <- (H r1), <- (H r2); [done|..]; repeat constructor. }
  constructor.
Qed.

(** The timers of a world after a change of phase. *)
Lemma set_phase_lookup r p w r' :
  timers (set_phase r p w) !! r' =
  if decide (r = r') then with_phase p <$> timers w !! r' else timers w !! r'.
Proof.
  unfold set_phase. cbn. destruct (decide (r = r')) as [->|Hne].
  - apply list_lookup_alter_eq.
  - by apply list_lookup_alter_ne.
Qed.

(** An idle button stays idle, silent and unchanged while no raw event
    arrives: the only steps left wake cancelled timers up. *)
Lemma idle_stepped hass w l res w' :
  idle w → is_raw l = false → stepped hass w l res w' →
  idle w' ∧ trace w' = trace w ∧ self w' = self w.
Proof.
  intros [Hnone Hp] Hl Hs. rewrite pending_nil in Hp.
  destruct Hs as [t event res w' Hnow Hb|t r o Hnow Ho Hph Hfin
                 |t r o Hnow Ho Hph Hfin Hdue|t r o w1 Hnow Ho Hph Hb
                 |t r o x w1 Hnow Ho Hph Hb].
  - discriminate.
  - split; [|done]. split; [done|]. apply pending_nil. intros r' o'.
    rewrite set_phase_lookup. cbn. destruct (decide (r = r')) as [<-|Hne].
    + rewrite Ho. cbn. by intros [= <-].
    + apply Hp.
  - specialize (Hp r o Ho). unfold outstanding in Hp.
    rewrite Hph, Hfin in Hp. discriminate.
  - specialize (Hp r o Ho). unfold outstanding in Hp.
    rewrite Hph in Hp. discriminate.
  - specialize (Hp r o Ho). unfold outstanding in Hp.
    rewrite Hph in Hp. discriminate.
Qed.

Lemma idle_quiescent hass ls w w' :
  idle w → timers_only ls → exec hass ls w = Some w' →
  idle w' ∧ trace w' = trace w ∧ self w' = self w.
Proof.
  revert w. induction ls as [|l ls IH]; intros w Hidle Hls.
  - by intros [= <-].
  - rewrite exec_cons. intros (res & w1 & Hs & Hex).
    apply Forall_cons in Hls as [Hl Hls].
    destruct (idle_stepped _ _ _ _ _ Hidle Hl Hs) as (Hidle1 & Htr & Hself).
    destruct (IH w1 Hidle1 Hls Hex) as (? & ? & ?).
    split; [done|]. split; congruence.
Qed.

(** ** Steps on a platform that never raises *)

Lemma button_action_ok hass a w :
  never_raises hass → button_action hass a w = (Ok (), emitted hass a w).
Proof.
  intros [Hfire Hlog]. rewrite button_action_eq. cbv zeta.
  unfold failure. cbn. by rewrite Hfire, Hlog.
Qed.

Lemma step_raw_ok hass t event w :
  never_raises hass → now w ≤ t →
  step hass (Raw t event) w = Some (Ok (), after_raw hass t event w).
Proof.
  intros Hok Hnow. apply step_stepped. apply stepped_raw; [done|].
  rewrite button_callback_eq. cbv zeta. unfold after_raw.
  destruct event; rewrite ?button_action_ok by done; done.
Qed.

Lemma step_run_ok hass t r o w :
  never_raises hass → now w ≤ t →
  timers w !! r = Some o → phase o = Calling →
  step hass (Run t r) w = Some (Ok (), after_run hass t r (function o) w).
Proof.
  intros Hok Hnow Ho Hph. apply step_stepped. unfold after_run.
  eapply stepped_run_ok; [done..|].
  destruct (function o); cbn [closure_body].
  - by rewrite long_press_func_eq, button_action_ok.
  - by rewrite super_long_press_func_eq, button_action_ok.
Qed.

Lemma fired_app w tr :
  omap fired_entry (trace w ++ tr) = fired w ++ omap fired_entry tr.
Proof. apply omap_app. Qed.

(** ** Press and release *)

(** C5: for a button with release capability, PRESS then RELEASE with no
    timer firing in between emits exactly "pressed" then "released" and
    leaves the button idle; the release cancelled the long-press timer, so
    whatever the timer threads do afterwards nothing more is emitted. *)
Theorem press_release_roundtrip hass t0 area_name keypad button t1 t2 :
  never_raises hass →
  _has_release_event (__init__ hass area_name keypad button) = true →
  t0 ≤ t1 → t1 ≤ t2 →
  ∃ w, exec hass [Raw t1 PRESSED; Raw t2 RELEASED]
         (construct hass t0 area_name keypad button) = Some w ∧
       fired w = [(t1, RawThread, "pressed"); (t2, RawThread, "released")] ∧
       idle w ∧
       ∀ ls w', timers_only ls → exec hass ls w = Some w' →
                fired w' = fired w ∧ idle w'.
Proof.
  intros Hok _ H01 H12.
  eexists. split.
  { cbn [exec]. rewrite step_raw_ok by done.
    rewrite step_raw_ok; [reflexivity|done|]. done. }
  split; [by vm_compute|].
  assert (idle (after_raw hass t2 RELEASED
                  (after_raw hass t1 PRESSED
                     (construct hass t0 area_name keypad button)))) as Hidle.
  { split; [reflexivity|by vm_compute]. }
  split; [done|].
  intros ls w' Hls Hex.
  destruct (idle_quiescent _ _ _ _ Hidle Hls Hex) as (Hidle' & Htr & _).
  split; [|done]. unfold fired. by rewrite Htr.
Qed.

(** C1, on the code: a button without release capability (type [Toggle])
    still emits "released" on RELEASE; [_has_release_event] is computed by
    the constructor and read nowhere. *)
Theorem release_emitted_without_release_capability :
  _has_release_event (self Sample.toggle_world) = false ∧
  actions <$> exec Sample.hass [Raw 0 PRESSED; Raw 200 RELEASED] Sample.toggle_world
    = Some ["pressed"; "released"].
Proof. split; reflexivity. Qed.

(** ** Raw events of another kind *)

(** C3 as stated fails: with a timer armed by a PRESS, a raw event of an
    unrecognised kind clears [self.timer] and cancels the timer, so the
    long press that would have followed never comes. *)
Lemma unrecognized_event_cancels_armed_timer :
  (λ w, (timer (self w), pending w))
    <$> exec Sample.hass [Raw 0 PRESSED] Sample.toggle_world
    = Some (Some 0%nat, [0%nat]) ∧
  (λ w, (timer (self w), pending w))
    <$> exec Sample.hass [Raw 0 PRESSED; Raw 100 (OTHER 3)] Sample.toggle_world
    = Some (None, []) ∧
  actions
    <$> exec Sample.hass [Raw 0 PRESSED; Wake 500 0; Run 500 0] Sample.toggle_world
    = Some ["pressed"; "long_pressed"] ∧
  actions
    <$> exec Sample.hass [Raw 0 PRESSED; Raw 100 (OTHER 3); Wake 500 0]
          Sample.toggle_world
    = Some ["pressed"] ∧
  exec Sample.hass [Raw 0 PRESSED; Raw 100 (OTHER 3); Wake 500 0; Run 500 0]
    Sample.toggle_world = None.
Proof. repeat split; reflexivity. Qed.

(** C3, amended: a raw event of a kind other than PRESS and RELEASE emits
    nothing and returns normally, but it still cancels and clears the
    pending timer, as every raw event does first; when no timer is pending
    it leaves the object and every timer as they were. *)
Theorem unrecognized_event_only_cancels hass w t v :
  now w ≤ t →
  ∃ w', step hass (Raw t (OTHER v)) w = Some (Ok (), w') ∧
        fired w' = fired w ∧
        identity (self w') = identity (self w) ∧
        timer (self w') = None ∧
        timers w' = match timer (self w) with
                    | Some r => alter (with_finished true) r (timers w)
                    | None => timers w
                    end ∧
        (timer (self w) = None → self w' = self w ∧ timers w' = timers w).
Proof.
  intros Hnow.
  destruct (cancelled_logged (OTHER v) (entering t RawThread w))
    as (Htr & Hid & _ & _ & Hslot & Hts).
  exists (cancelled (logged (OTHER v) (entering t RawThread w))).
  split.
  { apply step_stepped. apply stepped_raw; [done|].
    by rewrite button_callback_eq. }
  split.
  { unfold fired at 1. rewrite Htr.
    change (trace (entering t RawThread w)) with (trace w).
    rewrite fired_app, quiet_omap_fired by apply opening_quiet.
    apply app_nil_r. }
  split; [done|]. split; [done|].
  rewrite Hts, cancelled_timers. cbn. split; [done|].
  intros Hnone. rewrite Hnone. split; [|done].
  unfold cancelled, logged. cbn. by rewrite Hnone.
Qed.

(** ** Projections of the closed forms *)

Lemma fired_entry_fire b t th a :
  fired_entry (fire_entry b t th a) = Some (t, th, a).
Proof. reflexivity. Qed.

Lemma emitted_fired hass a w :
  fired (emitted hass a w) = fired w ++ [(now w, running w, a)].
Proof. unfold fired, emitted. cbn. by rewrite omap_app. Qed.

Lemma cancelled_fired w : fired (cancelled w) = fired w.
Proof.
  unfold fired. rewrite cancelled_trace, omap_app.
  unfold cancel_entries. destruct (timer (self w)); cbn; by rewrite app_nil_r.
Qed.

Lemma armed_fired i f w : fired (armed i f w) = fired w.
Proof. unfold fired, armed. cbn. rewrite omap_app. cbn. by rewrite app_nil_r. Qed.

Lemma logged_fired event w : fired (logged event w) = fired w.
Proof. unfold fired, logged. cbn. rewrite omap_app. cbn. by rewrite app_nil_r. Qed.

Lemma after_raw_fired hass t event w :
  fired (after_raw hass t event w) =
  fired w ++ match event with
             | PRESSED => [(t, RawThread, "pressed")]
             | RELEASED => [(t, RawThread, "released")]
             | OTHER _ => []
             end.
Proof.
  unfold after_raw.
  destruct event; rewrite ?armed_fired, ?emitted_fired, cancelled_fired,
    logged_fired, ?cancelled_now, ?cancelled_running; cbn; by rewrite ?app_nil_r.
Qed.

Lemma after_raw_timers hass t event w :
  timers (after_raw hass t event w) =
  timers (cancelled w) ++ match event with
                          | PRESSED => [mkTimer 500 long_press t false Waiting]
                          | _ => []
                          end.
Proof.
  unfold after_raw.
  destruct event; cbn; rewrite ?cancelled_now, !cancelled_timers; cbn;
    by rewrite ?app_nil_r.
Qed.

Lemma after_raw_slot hass t event w :
  timer (self (after_raw hass t event w)) =
  match event with
  | PRESSED => Some (length (timers w))
  | _ => None
  end.
Proof.
  unfold after_raw. destruct event; cbn; rewrite ?cancelled_slot; [|done..].
  rewrite cancelled_timers. cbn. destruct (timer (self w)); by rewrite ?length_alter.
Qed.

Lemma after_raw_now hass t event w : now (after_raw hass t event w) = t.
Proof. unfold after_raw. destruct event; cbn; by rewrite cancelled_now. Qed.

Lemma after_run_fired hass t r f w :
  fired (after_run hass t r f w) =
  fired w ++ [(t, TimerThread r, closure_action f)].
Proof.
  unfold after_run, fired. destruct f; cbn; rewrite ?omap_app; cbn;
    by rewrite ?app_nil_r.
Qed.

Lemma after_run_timers hass t r f w :
  timers (after_run hass t r f w) =
  alter (with_finished true) r (alter (with_phase Ran) r
    (timers w ++ match f with
                 | long_press => [mkTimer 1000 super_long_press t false Waiting]
                 | super_long_press => []
                 end)).
Proof. unfold after_run. destruct f; cbn; by rewrite ?app_nil_r. Qed.

Lemma after_run_slot hass t r f w :
  timer (self (after_run hass t r f w)) =
  match f with
  | long_press => Some (length (timers w))
  | super_long_press => None
  end.
Proof. unfold after_run. by destruct f. Qed.

Lemma after_run_now hass t r f w : now (after_run hass t r f w) = t.
Proof. unfold after_run. by destruct f. Qed.

(** On a platform that never raises, what each step is. *)
Lemma stepped_ok_inv hass w l res w' :
  never_raises hass → stepped hass w l res w' →
  res = Ok () ∧ now w ≤ label_time l ∧
  match l with
  | Raw t event => w' = after_raw hass t event w
  | Wake t r =>
      ∃ o, timers w !! r = Some o ∧ phase o = Waiting ∧
           (finished o = true ∧
              w' = set_phase r Skipped (entering t (TimerThread r) w) ∨
            finished o = false ∧ started o + interval o ≤ t ∧
              w' = set_phase r Calling (entering t (TimerThread r) w))
  | Run t r =>
      ∃ o, timers w !! r = Some o ∧ phase o = Calling ∧
           w' = after_run hass t r (function o) w
  end.
Proof.
  intros Hok Hs. pose proof (stepped_now _ _ _ _ _ Hs) as Hnow.
  apply step_stepped in Hs. destruct l as [t event|t r|t r]; cbn in Hnow.
  - rewrite step_raw_ok in Hs by done. by simplify_eq.
  - apply step_stepped in Hs. inversion Hs; subst.
    + split; [done|]. split; [done|]. eauto 10.
    + split; [done|]. split; [done|]. eauto 10.
  - apply step_stepped in Hs.
    assert (∃ o, timers w !! r = Some o ∧ phase o = Calling) as (o & Ho & Hph)
      by (inversion Hs; eauto).
    apply step_stepped in Hs. rewrite (step_run_ok _ _ _ o) in Hs by done.
    simplify_eq. split; [done|]. split; [done|]. eauto.
Qed.

(** ** A press that is held *)

Lemma escalation_stepped hass t1 w l res w' :
  never_raises hass → is_raw l = false →
  escalation t1 w → stepped hass w l res w' → escalation t1 w'.
Proof.
  intros Hok Hl Hesc Hs.
  apply stepped_ok_inv in Hs as (_ & Hnow & Hs); [|done].
  destruct l as [t event|t r|t r]; [discriminate|..]; cbn in Hnow.
  - destruct Hs as (o & Ho & Hph & [[Hfin ->]|(Hfin & Hdue & ->)]);
      destruct Hesc as [Hts Hf|Hts Hd Hf|ta Ha Hts Hf|ta Ha Hd Hts Hf
                       |ta tb Ha Hb Hts Hslot Hf];
      rewrite Hts in Ho; destruct r as [|[|r]]; simplify_eq/=.
    + apply esc_long_due; [unfold set_phase; cbn; by rewrite Hts|cbn; lia|done].
    + eapply esc_super_due; [done| |unfold set_phase; cbn; by rewrite Hts|done].
      cbn. lia.
  - destruct Hs as (o & Ho & Hph & ->);
      destruct Hesc as [Hts Hf|Hts Hd Hf|ta Ha Hts Hf|ta Ha Hd Hts Hf
                       |ta tb Ha Hb Hts Hslot Hf];
      rewrite Hts in Ho; destruct r as [|[|r]]; simplify_eq/=.
    + apply (esc_long _ _ t); [lia| |].
      * by rewrite after_run_timers, Hts.
      * by rewrite after_run_fired, Hf.
    + apply (esc_done _ _ ta t); [done|lia| | |].
      * by rewrite after_run_timers, Hts.
      * by rewrite after_run_slot.
      * by rewrite after_run_fired, Hf.
Qed.

Lemma escalation_exec hass t1 ls w w' :
  never_raises hass → timers_only ls →
  escalation t1 w → exec hass ls w = Some w' → escalation t1 w'.
Proof.
  intros Hok. revert w. induction ls as [|l ls IH]; intros w Hls Hesc.
  - by intros [= <-].
  - rewrite exec_cons. intros (res & w1 & Hs & Hex).
    apply Forall_cons in Hls as [Hl Hls].
    eapply IH; [done| |done]. by eapply escalation_stepped.
Qed.

Lemma step_wake_ok hass t r o w :
  now w ≤ t → timers w !! r = Some o → phase o = Waiting →
  finished o = false → started o + interval o ≤ t →
  step hass (Wake t r) w =
  Some (Ok (), set_phase r Calling (entering t (TimerThread r) w)).
Proof. intros. apply step_stepped. by eapply stepped_wake. Qed.

(** C4: a single PRESS followed by no further raw event emits "pressed"
    at once, "long_pressed" when the 0.5 s timer has fired and
    "super_long_pressed" when the further 1 s timer has fired, in that
    order, and then the button is idle with no pending timer.  The timers
    do fire (first part), and every run without further raw events that
    leaves no timer pending has emitted exactly these three (second
    part). *)
Theorem long_press_escalation hass t0 area_name keypad button t1 :
  never_raises hass → t0 ≤ t1 →
  let w0 := construct hass t0 area_name keypad button in
  (∀ t2 t3 t4 t5,
     t1 + 500 ≤ t2 → t2 ≤ t3 → t3 + 1000 ≤ t4 → t4 ≤ t5 →
     ∃ w, exec hass [Raw t1 PRESSED; Wake t2 0; Run t3 0; Wake t4 1; Run t5 1] w0
            = Some w ∧
          fired w = [(t1, RawThread, "pressed");
                     (t3, TimerThread 0, "long_pressed");
                     (t5, TimerThread 1, "super_long_pressed")] ∧
          idle w) ∧
  (∀ ls w, timers_only ls →
     exec hass (Raw t1 PRESSED :: ls) w0 = Some w → pending w = [] →
     ∃ ta tb, t1 + 500 ≤ ta ∧ ta + 1000 ≤ tb ∧
              fired w = [(t1, RawThread, "pressed");
                         (ta, TimerThread 0, "long_pressed");
                         (tb, TimerThread 1, "super_long_pressed")] ∧
              idle w).
Proof.
  intros Hok H01 w0. split.
  - intros t2 t3 t4 t5 H2 H3 H4 H5. eexists. split.
    { cbn [exec]. rewrite step_raw_ok by done.
      erewrite step_wake_ok; [|cbn; lia|reflexivity|reflexivity|reflexivity|cbn; lia].
      erewrite step_run_ok; [|done|cbn; lia|reflexivity|reflexivity].
      erewrite step_wake_ok; [|cbn; lia|reflexivity|reflexivity|reflexivity|cbn; lia].
      erewrite step_run_ok; [|done|cbn; lia|reflexivity|reflexivity].
      reflexivity. }
    split; [by vm_compute|]. split; [reflexivity|by vm_compute].
  - intros ls w Hls. rewrite exec_cons. intros (res & w1 & Hs & Hex) Hp.
    apply stepped_ok_inv in Hs as (_ & _ & ->); [|done].
    assert (escalation t1 (after_raw hass t1 PRESSED w0)) as Hesc.
    { apply esc_armed; [by rewrite after_raw_timers|by rewrite after_raw_fired]. }
    apply (escalation_exec hass t1 ls _ w Hok Hls) in Hesc; [|done].
    rewrite pending_nil in Hp.
    destruct Hesc as [Hts Hf|Hts Hd Hf|ta Ha Hts Hf|ta Ha Hd Hts Hf
                     |ta tb Ha Hb Hts Hslot Hf].
    + specialize (Hp 0%nat _ ltac:(by rewrite Hts)). discriminate.
    + specialize (Hp 0%nat _ ltac:(by rewrite Hts)). discriminate.
    + specialize (Hp 1%nat _ ltac:(by rewrite Hts)). discriminate.
    + specialize (Hp 1%nat _ ltac:(by rewrite Hts)). discriminate.
    + exists ta, tb. repeat split; [done..|].
      apply pending_nil. exact Hp.
Qed.

(** ** Who made the calls *)

Lemma emission_made_by hass b t th res mid :
  emission hass b t th res mid → Forall (made_by th t) mid.
Proof. destruct 1; repeat constructor. Qed.

Lemma opening_made_by event w :
  Forall (made_by (running w) (now w)) (opening event w).
Proof.
  unfold opening, cancel_entries.
  destruct (timer (self w)); repeat constructor.
Qed.

(** The entries of a step are made by its thread at its time. *)
Lemma stepped_made_by hass w l res w' :
  stepped hass w l res w' →
  ∃ new, trace w' = trace w ++ new ∧
         Forall (made_by (thread_of l) (label_time l)) new.
Proof.
  destruct 1 as [t event res w' Hnow Hb|t r o Hnow Ho Hph Hfin
                |t r o Hnow Ho Hph Hfin Hdue|t r o w1 Hnow Ho Hph Hb
                |t r o x w1 Hnow Ho Hph Hb]; cbn [label_time thread_of].
  - apply button_callback_trace in Hb as (mid & Htr & Hem & _).
    eexists. split; [exact Htr|]. apply Forall_app. split.
    + apply (opening_made_by event (entering t RawThread w)).
    + by eapply emission_made_by.
  - exists []. cbn. by rewrite app_nil_r.
  - exists []. cbn. by rewrite app_nil_r.
  - apply closure_body_trace in Hb as (mid & Htr & Hem & _).
    exists mid. split; [done|]. by eapply emission_made_by.
  - apply closure_body_trace in Hb as (mid & Htr & Hem & _).
    exists mid. split; [done|]. by eapply emission_made_by.
Qed.

(** ** What a step does to a timer it does not run *)

(** The timers of the store after a step, seen from a reference [r] that
    existed before: the object is the one it was, except that a raw event
    sets [finished] on the timer [self.timer] referred to, and that a
    [Wake] or [Run] of [r] itself moves its phase. *)
Lemma stepped_lookup hass w l res w' r o :
  stepped hass w l res w' → timers w !! r = Some o →
  ∃ o', timers w' !! r = Some o' ∧
        interval o' = interval o ∧ function o' = function o ∧
        started o' = started o ∧
        (finished o = true → finished o' = true) ∧
        (thread_of l ≠ TimerThread r → phase o' = phase o) ∧
        (is_raw l = true → timer (self w) = Some r → finished o' = true) ∧
        (timer (self w) ≠ Some r → thread_of l ≠ TimerThread r → o' = o).
Proof.
  intros Hs Hr. pose proof (lookup_lt_Some _ _ _ Hr) as Hlt.
  destruct Hs as [t event res w' Hnow Hb|t r' o1 Hnow Ho Hph Hfin
                 |t r' o1 Hnow Ho Hph Hfin Hdue|t r' o1 w1 Hnow Ho Hph Hb
                 |t r' o1 x w1 Hnow Ho Hph Hb]; cbn [thread_of is_raw].
  - assert (∃ o', timers (cancelled (entering t RawThread w)) !! r = Some o' ∧
              (o' = o ∧ timer (self w) ≠ Some r ∨
               o' = with_finished true o ∧ timer (self w) = Some r))
      as (o' & Ho' & Hcase).
    { rewrite cancelled_timers. cbn. destruct (timer (self w)) as [r0|] eqn:Hslot.
      - destruct (decide (r0 = r)) as [->|Hne].
        + rewrite list_lookup_alter_eq, Hr. cbn. eauto.
        + rewrite list_lookup_alter_ne, Hr by done. eexists. split; [done|].
          left. split; [done|]. congruence.
      - eexists. split; [done|]. left. by split. }
    exists o'. split.
    { apply button_callback_store in Hb as [(-> & _)|(_ & _ & -> & _)]; [done|].
      by apply lookup_app_l_Some. }
    destruct Hcase as [[-> Hne]|[-> Heq]]; cbn; repeat split; done.
  - rewrite set_phase_lookup. cbn. destruct (decide (r' = r)) as [->|Hne].
    + rewrite Hr. cbn. eexists. split; [done|]. cbn. repeat split; try done.
      all: by intros; try congruence.
    + rewrite Hr. exists o. repeat split; try done.
  - rewrite set_phase_lookup. cbn. destruct (decide (r' = r)) as [->|Hne].
    + rewrite Hr. cbn. eexists. split; [done|]. cbn. repeat split; try done.
      all: by intros; try congruence.
    + rewrite Hr. exists o. repeat split; try done.
  - assert (timers w1 !! r = Some o) as Hr1.
    { apply closure_body_store in Hb. destruct (function o1).
      - destruct Hb as [(_ & -> & _)|(_ & -> & _)]; [done|].
        by apply lookup_app_l_Some.
      - by destruct Hb as [-> _]. }
    unfold set_finished, set_phase. cbn. destruct (decide (r' = r)) as [->|Hne].
    + rewrite !list_lookup_alter_eq, Hr1. cbn. eexists. split; [done|]. cbn.
      repeat split; try done. all: by intros; try congruence.
    + rewrite !list_lookup_alter_ne, Hr1 by done. exists o.
      repeat split; try done.
  - assert (timers w1 !! r = Some o) as Hr1.
    { apply closure_body_store in Hb. destruct (function o1).
      - destruct Hb as [(_ & -> & _)|(_ & -> & _)]; [done|].
        by apply lookup_app_l_Some.
      - by destruct Hb as [-> _]. }
    unfold set_phase. cbn. destruct (decide (r' = r)) as [->|Hne].
    + rewrite !list_lookup_alter_eq, Hr1. cbn. eexists. split; [done|]. cbn.
      repeat split; try done. all: by intros; try congruence.
    + rewrite !list_lookup_alter_ne, Hr1 by done. exists o.
      repeat split; try done.
Qed.

(** ** Cancellation *)

Lemma stopped_stepped hass r w l res w' :
  stopped r w → stepped hass w l res w' → stopped r w'.
Proof.
  intros [(o & Ho & Hfin & Hph) Hquiet] Hs.
  destruct (decide (thread_of l = TimerThread r)) as [Heq|Hth].
  - destruct Hs as [|t r' o1 Hnow Ho1 Hph1 Hfin1|t r' o1 Hnow Ho1 Hph1 Hfin1 Hdue
                   |t r' o1 w1 Hnow Ho1 Hph1 Hb|t r' o1 x w1 Hnow Ho1 Hph1 Hb];
      cbn in Heq; simplify_eq.
    + split; [|done]. exists (with_phase Skipped o).
      rewrite set_phase_lookup, decide_True by done. cbn. rewrite Ho. cbn. eauto.
    + congruence.
    + destruct Hph; congruence.
    + destruct Hph; congruence.
  - split.
    + destruct (stepped_lookup _ _ _ _ _ _ _ Hs Ho)
        as (o' & Ho' & _ & _ & _ & Hfin' & Hph' & _).
      exists o'. split; [done|]. split; [by apply Hfin'|].
      by rewrite (Hph' Hth).
    + apply stepped_made_by in Hs as (new & -> & Hnew).
      intros e [He|He]%elem_of_app; [by apply Hquiet|].
      rewrite Forall_forall in Hnew. destruct (Hnew e He) as [-> _]. done.
Qed.

Lemma stopped_exec hass r ls w w' :
  stopped r w → exec hass ls w = Some w' → stopped r w'.
Proof.
  revert w. induction ls as [|l ls IH]; intros w Hst.
  - by intros [= <-].
  - rewrite exec_cons. intros (res & w1 & Hs & Hex).
    eapply IH; [|done]. by eapply stopped_stepped.
Qed.

(** A raw event stops the timer [self.timer] refers to, if its thread is
    still waiting. *)
Lemma raw_stops_waiting_timer hass w t event res w1 r o :
  timer (self w) = Some r → timers w !! r = Some o → phase o = Waiting →
  (∀ e, e ∈ trace w → by_thread e ≠ TimerThread r) →
  stepped hass w (Raw t event) res w1 → stopped r w1.
Proof.
  intros Hslot Ho Hph Hquiet Hs. split.
  - destruct (stepped_lookup _ _ _ _ _ _ _ Hs Ho)
      as (o' & Ho' & _ & _ & _ & _ & Hph' & Hfin' & _).
    exists o'. split; [done|]. split; [by apply Hfin'|].
    left. rewrite Hph' by done. done.
  - apply stepped_made_by in Hs as (new & -> & Hnew).
    intros e [He|He]%elem_of_app; [by apply Hquiet|].
    rewrite Forall_forall in Hnew. destruct (Hnew e He) as [-> _]. done.
Qed.

Lemma exec_now hass ls w w' : exec hass ls w = Some w' → now w ≤ now w'.
Proof.
  revert w. induction ls as [|l ls IH]; intros w.
  - intros [= <-]. lia.
  - rewrite exec_cons. intros (res & w1 & Hs & Hex).
    pose proof (stepped_now _ _ _ _ _ Hs).
    apply stepped_trace in Hs as (_ & _ & _ & _ & _ & _ & Hn).
    apply IH in Hex. lia.
Qed.

Lemma in_window_stepped hass t w l res w' :
  never_raises hass → in_window t w → label_time l < t + 500 →
  stepped hass w l res w' → in_window t w'.
Proof.
  intros Hok (Ht & Hts & Htr) Hl Hs.
  pose proof (stepped_now _ _ _ _ _ Hs) as Hnow.
  assert (thread_of l = RawThread ∨ ∃ r, l = Wake (label_time l) r ∧
            ∃ o, timers w !! r = Some o ∧ finished o = true ∧ phase o = Waiting)
    as Hkind.
  { destruct Hs as [| |t' r o ? Ho ? ? Hdue|t' r o ? ? Ho Hph|t' r o ? ? ? Ho Hph];
      cbn in *; eauto 10.
    - destruct (Hts r o Ho) as (_ & Hd & _). lia.
    - destruct (Hts r o Ho) as ([?|?] & _); congruence.
    - destruct (Hts r o Ho) as ([?|?] & _); congruence. }
  split; [|split].
  - apply stepped_trace in Hs as (_ & _ & _ & _ & _ & _ & ->). lia.
  - intros r o' Ho'.
    pose proof (stepped_ok_inv _ _ _ _ _ Hok Hs) as (_ & _ & Hw').
    destruct l as [t' event|t' r'|t' r']; cbn in Hnow, Hl.
    + subst w'. rewrite after_raw_timers, after_raw_slot in *.
      assert (length (timers (cancelled w)) = length (timers w)) as Hlen.
      { rewrite cancelled_timers. destruct (timer (self w)); by rewrite ?length_alter. }
      apply lookup_app_Some in Ho' as [Ho'|[Hge Ho']].
      * assert (∃ o, timers w !! r = Some o ∧
                  phase o' = phase o ∧ started o' = started o ∧
                  interval o' = interval o ∧ finished o' = true)
          as (o & Ho & -> & -> & -> & ->).
        { rewrite cancelled_timers in Ho'.
          destruct (timer (self w)) as [r0|] eqn:Hslot.
          - destruct (decide (r0 = r)) as [->|Hne].
            + rewrite list_lookup_alter_eq in Ho'.
              destruct (timers w !! r) as [o|] eqn:Ho; simplify_eq/=. eauto 10.
            + rewrite list_lookup_alter_ne in Ho' by done.
              destruct (Hts r o' Ho') as (_ & _ & [?|?]); [|congruence]. eauto 10.
          - destruct (Hts r o' Ho') as (_ & _ & [?|?]); [|congruence]. eauto 10. }
        destruct (Hts r o Ho) as (? & ? & _). eauto.
      * rewrite Hlen in Hge, Ho'. destruct event; cbn in Ho';
          [|by rewrite lookup_nil in Ho'..].
        destruct (r - length (timers w))%nat as [|n] eqn:Hn; simplify_eq/=.
        split; [by left|]. split; [lia|]. right. f_equal. lia.
    + destruct Hkind as [?|(r0 & [= <-] & _)]; [done|].
      destruct Hw' as (o & Ho & Hph & [[Hfin ->]|(Hfin & Hdue & ->)]).
      * rewrite set_phase_lookup in Ho'. cbn in Ho' |- *.
        destruct (decide (r' = r)) as [->|Hne].
        -- rewrite Ho in Ho'. simplify_eq/=.
           destruct (Hts r o Ho) as (_ & ? & _). eauto.
        -- destruct (Hts r o' Ho') as (? & ? & ?). eauto.
      * destruct (Hts r' o Ho) as (_ & ? & _). lia.
    + destruct Hkind as [?|(r0 & [=] & _)]. done.
  - destruct Hkind as [Hraw|(r0 & Heq & o & Ho & Hfin & Hph)].
    + apply stepped_made_by in Hs as (new & -> & Hnew).
      intros e [He|He]%elem_of_app; [by apply Htr|].
      rewrite Forall_forall in Hnew. destruct (Hnew e He) as [-> _]. done.
    + rewrite Heq in Hs.
      apply stepped_ok_inv in Hs as (_ & _ & o1 & Ho1 & _ & [[_ ->]|(Hf & _)]);
        [done|congruence|done].
Qed.

Lemma in_window_exec hass t ls w w' :
  never_raises hass → in_window t w →
  exec hass ls w = Some w' → now w' < t + 500 → in_window t w'.
Proof.
  intros Hok. revert w. induction ls as [|l ls IH]; intros w Hw.
  - by intros [= <-].
  - rewrite exec_cons. intros (res & w1 & Hs & Hex) Hnow.
    apply (IH w1); [|done..].
    eapply in_window_stepped; [done..| |done].
    pose proof (exec_now _ _ _ _ Hex).
    apply stepped_trace in Hs as (_ & _ & _ & _ & _ & _ & Hn). lia.
Qed.

(** Timer objects are never removed from the store. *)
Lemma exec_lookup hass ls w w' r o :
  exec hass ls w = Some w' → timers w !! r = Some o →
  ∃ o', timers w' !! r = Some o'.
Proof.
  revert w o. induction ls as [|l ls IH]; intros w o.
  - intros [= <-]. eauto.
  - rewrite exec_cons. intros (res & w1 & Hs & Hex) Ho.
    destruct (stepped_lookup _ _ _ _ _ _ _ Hs Ho) as (o' & Ho' & _).
    by eapply IH.
Qed.

Lemma stopped_not_ran r w : stopped r w → ¬ ran_after_cancel r w.
Proof.
  intros [_ Hquiet] (i & j & c & e & _ & _ & He & _ & Hby).
  apply list_elem_of_lookup_2 in He. by apply (Hquiet e).
Qed.

(** C2 as stated fails: the thread of the long-press timer leaves its wait
    at 0.5 s with [finished] unset; a second PRESS takes the lock first,
    calls [cancel()] on that timer and arms a new one; then the first
    timer's function obtains the lock and emits "long_pressed" all the
    same (and overwrites [self.timer]). *)
Lemma stale_timer_fires_after_cancel :
  fired <$> exec Sample.hass [Raw 0 PRESSED; Wake 500 0; Raw 500 PRESSED; Run 500 0]
              Sample.toggle_world
    = Some [(0, RawThread, "pressed"); (500, RawThread, "pressed");
            (500, TimerThread 0, "long_pressed")] ∧
  ¬ cancelled_timer_never_runs Sample.hass Sample.toggle_world.
Proof.
  split; [reflexivity|].
  intros H.
  destruct (exec Sample.hass [Raw 0 PRESSED; Wake 500 0; Raw 500 PRESSED; Run 500 0]
              Sample.toggle_world) as [w|] eqn:Hex; [|discriminate].
  apply (H _ w 0%nat Hex).
  vm_compute in Hex. injection Hex as <-.
  exists 6%nat, 10%nat. eexists _, _.
  split; [lia|]. repeat split; reflexivity.
Qed.

(** C2, amended: a timer cancelled by a raw event while its thread is
    still in its wait never runs its function afterwards, whatever the
    schedule; in particular after PRESS at [t] and PRESS at [t + 0.3 s] the
    first long-press timer (due at [t + 0.5 s]) emits nothing.  A timer
    whose thread has already left its wait when the raw event takes the
    lock is not stopped by [cancel()]: the code has no generation token. *)
Theorem timer_cancelled_while_waiting_never_runs hass :
  (∀ w t event res w1 r o ls w',
     timer (self w) = Some r → timers w !! r = Some o → phase o = Waiting →
     (∀ e, e ∈ trace w → by_thread e ≠ TimerThread r) →
     step hass (Raw t event) w = Some (res, w1) →
     exec hass ls w1 = Some w' →
     stopped r w' ∧ ¬ ran_after_cancel r w') ∧
  (never_raises hass →
   ∀ t0 area_name keypad button t ls1 ls2 w',
     exec hass (Raw t PRESSED :: ls1 ++ Raw (t + 300) PRESSED :: ls2)
       (construct hass t0 area_name keypad button) = Some w' →
     stopped 0 w' ∧ ¬ ran_after_cancel 0 w').
Proof.
  split.
  - intros w t event res w1 r o ls w' Hslot Ho Hph Hquiet Hs Hex.
    apply step_stepped in Hs.
    assert (stopped r w') as Hst.
    { eapply stopped_exec; [|done]. by eapply raw_stops_waiting_timer. }
    split; [done|by apply stopped_not_ran].
  - intros Hok t0 area_name keypad button t ls1 ls2 w'.
    rewrite exec_cons. intros (res & w1 & Hs & Hex).
    apply exec_app in Hex as (wm & Hex1 & Hex2).
    apply exec_cons in Hex2 as (res2 & w2 & Hs2 & Hex2).
    pose proof (stepped_now _ _ _ _ _ Hs2) as Hnow2. cbn in Hnow2.
    apply stepped_ok_inv in Hs as (_ & Hnow & ->); [|done]. cbn in Hnow.
    set (w0 := construct hass t0 area_name keypad button) in *.
    assert (in_window t (after_raw hass t PRESSED w0)) as Hwin.
    { split; [by rewrite after_raw_now|]. split.
      - intros r o. rewrite after_raw_timers, after_raw_slot. cbn.
        intros Ho. destruct r as [|[|r]]; simplify_eq/=.
        split; [by left|]. split; [lia|by right].
      - intros e He. vm_compute in He.
        repeat (apply elem_of_cons in He as [->|He]; [reflexivity|]).
        by apply elem_of_nil in He. }
    apply (in_window_exec hass t ls1 _ wm Hok) in Hwin; [|done|lia].
    destruct Hwin as (_ & Hts & Htr).
    assert (∃ o, timers wm !! 0%nat = Some o) as [o Ho].
    { eapply exec_lookup; [done|]. by rewrite after_raw_timers. }
    destruct (Hts _ _ Ho) as (Hph & _ & Hfin).
    assert (stopped 0 w2) as Hst.
    { split.
      - destruct (stepped_lookup _ _ _ _ _ _ _ Hs2 Ho)
          as (o' & Ho' & _ & _ & _ & Hfin' & Hph' & Hraw & _).
        exists o'. split; [done|]. split.
        + destruct Hfin; [by apply Hfin'|by apply Hraw].
        + by rewrite Hph'.
      - apply stepped_made_by in Hs2 as (new & -> & Hnew).
        intros e [He|He]%elem_of_app; [by rewrite (Htr e He)|].
        rewrite Forall_forall in Hnew. destruct (Hnew e He) as [-> _]. done. }
    apply (stopped_exec hass 0 ls2 w2 w') in Hst; [|done].
    split; [done|by apply stopped_not_ran].
Qed.

(** ** One pending timer *)

Lemma cancelled_lookup w r o' :
  timers (cancelled w) !! r = Some o' →
  ∃ o, timers w !! r = Some o ∧
       (o' = o ∧ timer (self w) ≠ Some r ∨
        o' = with_finished true o ∧ timer (self w) = Some r).
Proof.
  rewrite cancelled_timers. destruct (timer (self w)) as [r0|] eqn:Hslot.
  - destruct (decide (r0 = r)) as [->|Hne].
    + rewrite list_lookup_alter_eq.
      destruct (timers w !! r) as [o|]; [|done]. intros [= <-]. eauto.
    + rewrite list_lookup_alter_ne by done. intros Ho. exists o'.
      split; [done|]. left. split; [done|]. congruence.
  - intros Ho. exists o'. split; [done|]. by left.
Qed.

Lemma ran_lookup r1 w1 r :
  timers (set_finished r1 (set_phase r1 Ran w1)) !! r =
  if decide (r1 = r)
  then (λ o, with_finished true (with_phase Ran o)) <$> timers w1 !! r
  else timers w1 !! r.
Proof.
  unfold set_finished, set_phase. cbn. destruct (decide (r1 = r)) as [->|Hne].
  - rewrite !list_lookup_alter_eq. by destruct (timers w1 !! r).
  - by rewrite !list_lookup_alter_ne.
Qed.

Lemma slot_owns_pending_stepped hass w l res w' :
  slot_owns_pending w → (is_raw l = true → none_calling w) →
  stepped hass w l res w' → slot_owns_pending w'.
Proof.
  intros Hown Hrace Hs r Hr.
  apply elem_of_pending in Hr as (o' & Ho' & Hout').
  assert (∀ r0 o0, timers w !! r0 = Some o0 → outstanding o0 = true →
                   timer (self w) = Some r0) as Hown'.
  { intros r0 o0 H1 H2. apply Hown, elem_of_pending. eauto. }
  destruct Hs as [t event res w' Hnow Hb|t r1 o1 Hnow Ho1 Hph1 Hfin1
                 |t r1 o1 Hnow Ho1 Hph1 Hfin1 Hdue|t r1 o1 w1 Hnow Ho1 Hph1 Hb
                 |t r1 o1 x w1 Hnow Ho1 Hph1 Hb].
  - assert (∀ o', timers (cancelled (entering t RawThread w)) !! r = Some o' →
                  outstanding o' = true → False) as Hold.
    { intros o2 Ho2 Hout2.
      apply cancelled_lookup in Ho2 as (o & Ho & [[-> Hne]|[-> Heq]]); cbn in *.
      - apply Hne. by eapply Hown'.
      - unfold outstanding in Hout2. cbn in Hout2.
        destruct (phase o) eqn:Hph; try discriminate.
        by apply (Hrace eq_refl r o). }
    apply button_callback_store in Hb as [(Hts & _)|(_ & _ & Hts & Hslot)].
    + rewrite Hts in Ho'. by destruct (Hold o').
    + rewrite Hts in Ho'. cbn in Hslot. rewrite Hslot.
      apply lookup_app_Some in Ho' as [Ho'|[Hge Ho']]; [by destruct (Hold o')|].
      assert (length (timers (cancelled (entering t RawThread w)))
              = length (timers w)) as Hlen.
      { rewrite cancelled_timers. cbn.
        destruct (timer (self w)); by rewrite ?length_alter. }
      rewrite Hlen in Hge, Ho'.
      destruct (r - length (timers w))%nat as [|n] eqn:Hn; simplify_eq/=.
      f_equal. lia.
  - rewrite set_phase_lookup in Ho'. cbn in Ho' |- *.
    destruct (decide (r1 = r)) as [->|Hne].
    + rewrite Ho1 in Ho'. by simplify_eq/=.
    + by eapply Hown'.
  - rewrite set_phase_lookup in Ho'. cbn in Ho' |- *.
    destruct (decide (r1 = r)) as [->|Hne].
    + eapply Hown'; [done|]. unfold outstanding. by rewrite Hph1, Hfin1.
    + by eapply Hown'.
  - assert (timer (self w) = Some r1) as Hslot1.
    { eapply Hown'; [done|]. unfold outstanding. by rewrite Hph1. }
    rewrite ran_lookup in Ho'. cbn.
    destruct (decide (r1 = r)) as [->|Hne].
    { destruct (timers w1 !! r); by simplify_eq/=. }
    apply closure_body_store in Hb. cbn in Hb. destruct (function o1).
    + destruct Hb as [([x [=]] & _)|(_ & Hts & ->)].
      rewrite Hts in Ho'.
      apply lookup_app_Some in Ho' as [Ho'|[Hge Ho']].
      * exfalso. apply Hne. pose proof (Hown' r o' Ho' Hout'). congruence.
      * destruct (r - length (timers w))%nat as [|n] eqn:Hn; simplify_eq/=.
        f_equal. lia.
    + destruct Hb as [Hts _]. rewrite Hts in Ho'.
      exfalso. apply Hne. pose proof (Hown' r o' Ho' Hout'). congruence.
  - assert (timer (self w) = Some r1) as Hslot1.
    { eapply Hown'; [done|]. unfold outstanding. by rewrite Hph1. }
    rewrite set_phase_lookup in Ho'. cbn.
    destruct (decide (r1 = r)) as [->|Hne].
    { destruct (timers w1 !! r); by simplify_eq/=. }
    exfalso. apply Hne.
    apply closure_body_store in Hb. cbn in Hb. destruct (function o1).
    + destruct Hb as [(_ & Hts & _)|([=] & _)].
      rewrite Hts in Ho'. pose proof (Hown' r o' Ho' Hout'). congruence.
    + destruct Hb as [Hts _]. rewrite Hts in Ho'.
      pose proof (Hown' r o' Ho' Hout'). congruence.
Qed.

(** C6 as stated fails in its first part: in the race of a timer's
    function with a second PRESS, the function overwrites [self.timer]
    with the super-long-press timer while the long-press timer of the
    second PRESS still waits, and two timers are pending at once. *)
Lemma two_timers_pending_after_race :
  (λ w, (timer (self w), pending w))
    <$> exec Sample.hass [Raw 0 PRESSED; Wake 500 0; Raw 500 PRESSED; Run 500 0]
          Sample.toggle_world
    = Some (Some 2%nat, [1%nat; 2%nat]) ∧
  ¬ at_most_one_pending Sample.hass Sample.toggle_world.
Proof.
  split; [reflexivity|].
  intros H.
  destruct (exec Sample.hass [Raw 0 PRESSED; Wake 500 0; Raw 500 PRESSED; Run 500 0]
              Sample.toggle_world) as [w|] eqn:Hex; [|discriminate].
  specialize (H _ w Hex).
  vm_compute in Hex. injection Hex as <-.
  vm_compute in H. lia.
Qed.

Lemma one_outstanding_pending w :
  one_outstanding w → (length (pending w) ≤ 1)%nat.
Proof.
  intros H. pose proof (pending_NoDup w) as Hnd.
  destruct (pending w) as [|r1 [|r2 rs]] eqn:Hp; cbn; [lia..|].
  exfalso. apply NoDup_cons in Hnd as [Hnotin _]. apply Hnotin.
  assert (r1 ∈ pending w) as (o1 & Ho1 & Hout1)%elem_of_pending
    by (rewrite Hp; repeat constructor).
  assert (r2 ∈ pending w) as (o2 & Ho2 & Hout2)%elem_of_pending
    by (rewrite Hp; repeat constructor).
  destruct (H r1 o1 Ho1 Hout1) as [_ Huniq].
  rewrite (Huniq r2 o2 Ho2 Hout2). constructor.
Qed.

Lemma one_outstanding_kept w w' :
  one_outstanding w →
  (∀ r o', timers w' !! r = Some o' → outstanding o' = true →
     (∃ o, timers w !! r = Some o ∧ outstanding o = true) ∧
     (timer (self w') = Some r ∨ phase o' = Calling)) →
  one_outstanding w'.
Proof.
  intros Hinv H r o' Ho' Hout'.
  destruct (H r o' Ho' Hout') as [(o & Ho & Hout) Hslot].
  split; [done|]. intros r2 o2' Ho2' Hout2'.
  destruct (H r2 o2' Ho2' Hout2') as [(o2 & Ho2 & Hout2) _].
  destruct (Hinv r o Ho Hout) as [_ Huniq]. by eapply Huniq.
Qed.

Lemma one_outstanding_owned w' :
  (∀ r o', timers w' !! r = Some o' → outstanding o' = true →
     timer (self w') = Some r) →
  one_outstanding w'.
Proof.
  intros H r o' Ho' Hout'. split; [left; by eapply H|].
  intros r2 o2' Ho2' Hout2'.
  pose proof (H r o' Ho' Hout'). pose proof (H r2 o2' Ho2' Hout2'). congruence.
Qed.

Lemma one_outstanding_stepped hass w l res w' :
  one_outstanding w → (∀ t, l = Raw t PRESSED → none_calling w) →
  stepped hass w l res w' → one_outstanding w'.
Proof.
  intros Hinv Hrace Hs.
  destruct Hs as [t event res w' Hnow Hb|t r1 o1 Hnow Ho1 Hph1 Hfin1
                 |t r1 o1 Hnow Ho1 Hph1 Hfin1 Hdue|t r1 o1 w1 Hnow Ho1 Hph1 Hb
                 |t r1 o1 x w1 Hnow Ho1 Hph1 Hb].
  - assert (∀ r o2, timers (cancelled (entering t RawThread w)) !! r = Some o2 →
                    outstanding o2 = true →
                    (∃ o, timers w !! r = Some o ∧ outstanding o = true ∧
                          phase o = Calling) ∧ phase o2 = Calling) as Hold.
    { intros r o2 Ho2 Hout2.
      apply cancelled_lookup in Ho2 as (o & Ho & [[-> Hne]|[-> Heq]]); cbn in *.
      - destruct (Hinv r o Ho Hout2) as [[Hslot|Hph] _]; [done|]. eauto.
      - unfold outstanding in Hout2. cbn in Hout2.
        destruct (phase o) eqn:Hph; try discriminate.
        split; [|done]. exists o. unfold outstanding. rewrite Hph. eauto. }
    apply button_callback_store in Hb as [(Hts & Hslot & _)|(-> & _ & Hts & Hslot)].
    + apply (one_outstanding_kept w); [done|]. intros r o' Ho' Hout'.
      rewrite Hts in Ho'. destruct (Hold r o' Ho' Hout') as [(o & Ho & Hout & _) Hph].
      split; [eauto|by right].
    + apply one_outstanding_owned. intros r o' Ho' Hout'.
      rewrite Hts in Ho'. cbn in Hslot. rewrite Hslot.
      apply lookup_app_Some in Ho' as [Ho'|[Hge Ho']].
      { destruct (Hold r o' Ho' Hout') as [(o & Ho & _ & Hph) _].
        by destruct (Hrace t eq_refl r o Ho). }
      assert (length (timers (cancelled (entering t RawThread w)))
              = length (timers w)) as Hlen.
      { rewrite cancelled_timers. cbn.
        destruct (timer (self w)); by rewrite ?length_alter. }
      rewrite Hlen in Hge, Ho'.
      destruct (r - length (timers w))%nat as [|n] eqn:Hn; simplify_eq/=.
      f_equal. lia.
  - apply (one_outstanding_kept w); [done|]. intros r o' Ho' Hout'.
    rewrite set_phase_lookup in Ho'. cbn in Ho' |- *.
    destruct (decide (r1 = r)) as [->|Hne].
    + rewrite Ho1 in Ho'. by simplify_eq/=.
    + split; [eauto|]. by destruct (Hinv r o' Ho' Hout') as [? _].
  - apply (one_outstanding_kept w); [done|]. intros r o' Ho' Hout'.
    rewrite set_phase_lookup in Ho'. cbn in Ho' |- *.
    destruct (decide (r1 = r)) as [->|Hne].
    + rewrite Ho1 in Ho'. simplify_eq/=. split; [|by right].
      exists o1. split; [done|]. unfold outstanding. by rewrite Hph1, Hfin1.
    + split; [eauto|]. by destruct (Hinv r o' Ho' Hout') as [? _].
  - assert (outstanding o1 = true) as Hout1 by (unfold outstanding; by rewrite Hph1).
    destruct (Hinv r1 o1 Ho1 Hout1) as [_ Huniq].
    apply one_outstanding_owned. intros r o' Ho' Hout'.
    rewrite ran_lookup in Ho'. cbn.
    destruct (decide (r1 = r)) as [->|Hne].
    { destruct (timers w1 !! r); by simplify_eq/=. }
    apply closure_body_store in Hb. cbn in Hb. destruct (function o1).
    + destruct Hb as [([x [=]] & _)|(_ & Hts & ->)].
      rewrite Hts in Ho'.
      apply lookup_app_Some in Ho' as [Ho'|[Hge Ho']].
      * exfalso. apply Hne. symmetry. by eapply Huniq.
      * destruct (r - length (timers w))%nat as [|n] eqn:Hn; simplify_eq/=.
        f_equal. lia.
    + destruct Hb as [Hts _]. rewrite Hts in Ho'.
      exfalso. apply Hne. symmetry. by eapply Huniq.
  - assert (outstanding o1 = true) as Hout1 by (unfold outstanding; by rewrite Hph1).
    destruct (Hinv r1 o1 Ho1 Hout1) as [_ Huniq].
    apply one_outstanding_owned. intros r o' Ho' Hout'.
    rewrite set_phase_lookup in Ho'. cbn.
    destruct (decide (r1 = r)) as [->|Hne].
    { destruct (timers w1 !! r); by simplify_eq/=. }
    exfalso. apply Hne. symmetry.
    apply closure_body_store in Hb. cbn in Hb. destruct (function o1).
    + destruct Hb as [(_ & Hts & _)|([=] & _)].
      rewrite Hts in Ho'. by eapply Huniq.
    + destruct Hb as [Hts _]. rewrite Hts in Ho'. by eapply Huniq.
Qed.

Lemma one_outstanding_exec hass ls w w' :
  one_outstanding w → press_race_free hass ls w →
  exec hass ls w = Some w' → one_outstanding w'.
Proof.
  revert w. induction ls as [|l ls IH]; intros w Hinv.
  - by intros _ [= <-].
  - cbn [press_race_free exec]. intros [Hrace Hrest].
    destruct (step hass l w) as [[res w1]|] eqn:Hs; [|discriminate].
    intros Hex. apply (IH w1); [|done..].
    apply step_stepped in Hs. by eapply one_outstanding_stepped.
Qed.

(** C6, amended: in every run in which no PRESS is delivered while a
    timer thread that found its timer uncancelled still waits for the
    lock, at most one timer is pending at any instant; and every raw-event
    call, in any run, cancels and clears the timer [self.timer] refers to
    before it does anything else: after the log line its first call is
    that [cancel()], which sets the timer's [finished]; the emission and
    the re-arming are what the rest of the body does from the world [wc]
    in which [self.timer] is [None]; and when the call is left
    [self.timer] is [None], unless the call was a PRESS whose emission
    returned, and then it refers to the timer this call created and
    started. *)
Theorem one_pending_timer_without_race hass :
  (∀ t0 area_name keypad button ls w,
     press_race_free hass ls (construct hass t0 area_name keypad button) →
     exec hass ls (construct hass t0 area_name keypad button) = Some w →
     (length (pending w) ≤ 1)%nat) ∧
  (∀ w t event res w',
     step hass (Raw t event) w = Some (res, w') →
     (∃ rest,
        trace w' =
          trace w
          ++ mkEntry t RawThread (logger_info (_full_id (self w)) event)
             :: match timer (self w) with
                | Some r => [mkEntry t RawThread (timer_cancel r)]
                | None => []
                end
          ++ rest ∧
        emission hass (identity (self w)) t RawThread res rest) ∧
     (∀ r o, timer (self w) = Some r → timers w !! r = Some o →
             ∃ o', timers w' !! r = Some o' ∧ finished o' = true) ∧
     (timer (self w') = None ∨
      event = PRESSED ∧ res = Ok () ∧
      timer (self w') = Some (length (timers w)) ∧
      timers w' !! length (timers w)
        = Some (mkTimer 500 long_press t false Waiting)) ∧
     (∃ wc,
        timer (self wc) = None ∧
        (∀ r o, timer (self w) = Some r → timers w !! r = Some o →
                timers wc !! r = Some (with_finished true o)) ∧
        trace wc =
          trace w
          ++ mkEntry t RawThread (logger_info (_full_id (self w)) event)
             :: match timer (self w) with
                | Some r => [mkEntry t RawThread (timer_cancel r)]
                | None => []
                end ∧
        (res, w') =
          match event with
          | PRESSED =>
              (button_action hass "pressed" ;;
               r ← Timer_new 500 long_press;
               set_timer (Some r) ;;
               Timer_start r) wc
          | RELEASED => button_action hass "released" wc
          | OTHER _ => (Ok (), wc)
          end)).
Proof.
  split.
  - intros t0 area_name keypad button ls w Hrace Hex.
    apply one_outstanding_pending.
    eapply one_outstanding_exec; [|done..].
    intros r o Ho. by destruct r.
  - intros w t event res w' Hs. apply step_stepped in Hs.
    inversion Hs as [t' event' res' w'' Hnow Hb| | | |]; subst.
    pose proof Hb as Hst. pose proof Hb as Heq.
    apply button_callback_trace in Hb as (mid & Htr & Hem & _).
    split; [by exists mid|]. split; [|split].
    + intros r o Hslot Ho.
      destruct (stepped_lookup _ _ _ _ _ _ _ Hs Ho)
        as (o' & Ho' & _ & _ & _ & _ & _ & Hfin & _).
      exists o'. split; [done|]. by apply Hfin.
    + apply button_callback_store in Hst as [(_ & Hslot & _)|(-> & -> & Hts & Hslot)].
      * by left.
      * right. split; [done|]. split; [done|]. split; [exact Hslot|].
        rewrite Hts. cbn.
        assert (length (timers (cancelled (entering t RawThread w)))
                = length (timers w)) as Hlen.
        { rewrite cancelled_timers. cbn.
          destruct (timer (self w)); by rewrite ?length_alter. }
        rewrite lookup_app_r by lia. rewrite Hlen, Nat.sub_diag. done.
    + exists (cancelled (logged event (entering t RawThread w))).
      split; [apply cancelled_slot|]. split; [|split].
      * intros r o Hslot Ho. rewrite cancelled_timers. cbn. rewrite Hslot.
        by rewrite list_lookup_alter_eq, Ho.
      * unfold cancelled, logged. cbn.
        destruct (timer (self w)); cbn; [|done]. by rewrite <- app_assoc.
      * rewrite button_callback_eq in Heq. cbn zeta in Heq. rewrite <- Heq.
        destruct event; [|done..].
        rewrite bind_eq.
        destruct (button_action hass "pressed"
                    (cancelled (logged PRESSED (entering t RawThread w))))
          as [[[]|x] w2]; [|done].
        by rewrite arm_eq.
Qed.

(** ** Several buttons *)

Lemma local_ref_0 ow i : local_ref ow i 0 = 0%nat.
Proof. unfold local_ref. by rewrite take_0. Qed.

Lemma local_ref_nil i r : local_ref [] i r = 0%nat.
Proof. unfold local_ref. by rewrite take_nil. Qed.

Lemma local_ref_S j ow i r :
  local_ref (j :: ow) i (S r) =
  if decide (j = i) then S (local_ref ow i r) else local_ref ow i r.
Proof.
  unfold local_ref. cbn [take]. rewrite filter_cons.
  by destruct (decide (j = i)).
Qed.

Lemma own_timers_nil_r ow i : own_timers ow i [] = [].
Proof. unfold own_timers. by destruct ow. Qed.

Lemma own_timers_cons j ow i o ts :
  own_timers (j :: ow) i (o :: ts) =
  if decide (j = i) then o :: own_timers ow i ts else own_timers ow i ts.
Proof. unfold own_timers. cbn. by destruct (decide (j = i)). Qed.

Lemma own_timers_ext ow i ts ts' :
  (∀ r, ow !! r = Some i → ts' !! r = ts !! r) →
  own_timers ow i ts' = own_timers ow i ts.
Proof.
  revert ts ts'. induction ow as [|j ow IH]; intros ts ts' H; [done|].
  destruct ts as [|o ts], ts' as [|o' ts'].
  - done.
  - rewrite own_timers_nil_r, own_timers_cons.
    destruct (decide (j = i)) as [->|Hne].
    + by specialize (H 0%nat eq_refl).
    + rewrite <- (own_timers_nil_r ow i). apply IH.
      intros r Hr. apply (H (S r) Hr).
  - rewrite own_timers_nil_r, own_timers_cons.
    destruct (decide (j = i)) as [->|Hne].
    + by specialize (H 0%nat eq_refl).
    + rewrite <- (own_timers_nil_r ow i). apply IH.
      intros r Hr. apply (H (S r) Hr).
  - rewrite !own_timers_cons.
    destruct (decide (j = i)) as [->|Hne].
    + specialize (H 0%nat eq_refl) as H0. cbn in H0. injection H0 as ->.
      f_equal. apply IH. intros r Hr. apply (H (S r) Hr).
    + apply IH. intros r Hr. apply (H (S r) Hr).
Qed.

Lemma own_timers_lookup ow i ts r :
  ow !! r = Some i → own_timers ow i ts !! local_ref ow i r = ts !! r.
Proof.
  revert ts r. induction ow as [|j ow IH]; intros ts r Hr; [done|].
  destruct ts as [|o ts].
  { rewrite own_timers_nil_r. by rewrite !lookup_nil. }
  rewrite own_timers_cons. destruct r as [|r].
  - cbn in Hr. injection Hr as ->. rewrite local_ref_0.
    by rewrite decide_True.
  - rewrite local_ref_S. cbn in Hr.
    destruct (decide (j = i)) as [->|Hne]; cbn; by apply IH.
Qed.

Lemma own_timers_alter ow i ts f r :
  ow !! r = Some i →
  own_timers ow i (alter f r ts) = alter f (local_ref ow i r) (own_timers ow i ts).
Proof.
  revert ts r. induction ow as [|j ow IH]; intros ts r Hr; [done|].
  destruct ts as [|o ts].
  { replace (alter f r []) with (@nil Timer) by (by destruct r).
    by rewrite !own_timers_nil_r. }
  destruct r as [|r].
  - cbn in Hr. injection Hr as ->. rewrite local_ref_0.
    cbn [alter list_alter]. rewrite !own_timers_cons.
    by destruct (decide (i = i)).
  - rewrite local_ref_S. cbn in Hr. cbn [alter list_alter].
    change (list_alter f r ts) with (alter f r ts).
    rewrite !own_timers_cons.
    destruct (decide (j = i)) as [->|Hne]; cbn; rewrite IH by done; done.
Qed.

Lemma own_timers_snoc ow i ts o :
  ow !! length ts = Some i →
  own_timers ow i (ts ++ [o]) = own_timers ow i ts ++ [o] ∧
  length (own_timers ow i ts) = local_ref ow i (length ts).
Proof.
  revert ts. induction ow as [|j ow IH]; intros ts Hr; [done|].
  destruct ts as [|o' ts].
  - cbn in Hr. injection Hr as ->. rewrite own_timers_nil_r, local_ref_0.
    cbn [app]. rewrite own_timers_cons, decide_True, own_timers_nil_r by done.
    done.
  - cbn in Hr. destruct (IH ts Hr) as [IH1 IH2].
    cbn [app length]. rewrite !own_timers_cons, local_ref_S.
    destruct (decide (j = i)) as [->|Hne]; cbn; rewrite IH1, IH2; done.
Qed.

Lemma own_timers_prefix ow ext i ts :
  length ow = length ts → own_timers (ow ++ ext) i ts = own_timers ow i ts.
Proof.
  revert ts. induction ow as [|j ow IH]; intros ts Hlen.
  - destruct ts; [|done]. by rewrite !own_timers_nil_r.
  - destruct ts as [|o ts]; [done|]. cbn [app].
    rewrite !own_timers_cons. cbn in Hlen.
    rewrite IH by lia. done.
Qed.

Lemma own_calls_app ow i c1 c2 :
  own_calls ow i (c1 ++ c2) = own_calls ow i c1 ++ own_calls ow i c2.
Proof. unfold own_calls. apply omap_app. Qed.

Lemma own_calls_own ow i tr :
  own_calls ow i (pair i <$> tr) = local_entry ow i <$> tr.
Proof.
  unfold own_calls. induction tr as [|e tr IH]; [done|].
  cbn. rewrite decide_True by done. by f_equal.
Qed.

Lemma own_calls_other ow i j tr :
  j ≠ i → own_calls ow i (pair j <$> tr) = [].
Proof.
  intros Hne. unfold own_calls. induction tr as [|e tr IH]; [done|].
  cbn. by rewrite decide_False.
Qed.

Lemma own_steps_cons ow i j l sched :
  own_steps ow i ((j, l) :: sched) =
  if decide (j = i) then local_label ow i l :: own_steps ow i sched
  else own_steps ow i sched.
Proof. unfold own_steps. cbn. by destruct (decide (j = i)). Qed.

(** *** Bodies commute with the view of one button *)

Section Localise.
Variables (ow : list nat) (i : nat) (tr0 : list Entry).

Lemma localise_entering t th w :
  entering t (local_thread ow i th) (localise ow i tr0 w)
  = localise ow i tr0 (entering t th w).
Proof. reflexivity. Qed.

Lemma localise_logged event w :
  logged event (localise ow i tr0 w) = localise ow i tr0 (logged event w).
Proof.
  unfold logged, localise, with_trace. cbn. f_equal.
  by rewrite fmap_app, app_assoc.
Qed.

Lemma localise_cancelled w :
  (∀ r, timer (self w) = Some r → ow !! r = Some i) →
  cancelled (localise ow i tr0 w) = localise ow i tr0 (cancelled w).
Proof.
  intros Hown. unfold cancelled, localise. cbn.
  destruct (timer (self w)) as [r|] eqn:Hslot; cbn; [|done].
  rewrite own_timers_alter by auto. f_equal.
  by rewrite fmap_app, app_assoc.
Qed.

Lemma localise_armed iv f w :
  ow !! length (timers w) = Some i →
  armed iv f (localise ow i tr0 w) = localise ow i tr0 (armed iv f w).
Proof.
  intros Hnew. unfold armed, localise. cbn.
  destruct (own_timers_snoc ow i (timers w)
              (mkTimer iv f (now w) false Waiting) Hnew) as [-> ->].
  f_equal. by rewrite fmap_app, app_assoc.
Qed.

Lemma localise_set_phase r p w :
  ow !! r = Some i →
  set_phase (local_ref ow i r) p (localise ow i tr0 w)
  = localise ow i tr0 (set_phase r p w).
Proof.
  intros Hr. unfold set_phase, localise, with_timers. cbn.
  by rewrite own_timers_alter.
Qed.

Lemma localise_set_finished r w :
  ow !! r = Some i →
  set_finished (local_ref ow i r) (localise ow i tr0 w)
  = localise ow i tr0 (set_finished r w).
Proof.
  intros Hr. unfold set_finished, localise, with_timers. cbn.
  by rewrite own_timers_alter.
Qed.

Lemma localise_button_action H calls a w :
  answers_alike H (self w) → a ∈ classified →
  button_action (serving H []) a (localise ow i tr0 w) =
  match button_action (serving H calls) a w with
  | (res, w') => (res, localise ow i tr0 w')
  end.
Proof.
  intros Hans Ha. rewrite !button_action_eq. cbn zeta.
  destruct (Hans calls (now w) a Ha) as [Hfire Hlog].
  unfold failure, fire_entry, log_entry. cbn.
  change (action_data (local_self ow i (self w)) a) with (action_data (self w) a).
  change (str_dict (serving H calls)) with (str_dict (serving H [])).
  rewrite Hfire, Hlog.
  destruct (bus_fire_after H [] (now w) (_event (self w)) (action_data (self w) a)).
  - unfold localise, with_trace. cbn. f_equal. f_equal.
    by rewrite fmap_app, app_assoc.
  - f_equal. unfold localise, with_trace. cbn. f_equal.
    by rewrite fmap_app, <- app_assoc.
Qed.

End Localise.

Lemma answers_alike_identity H b b' :
  identity b = identity b' → answers_alike H b → answers_alike H b'.
Proof.
  intros Hid Hans calls t a Ha.
  change (_event b') with (_event (identity b')).
  change (action_data b' a) with (action_data (identity b') a).
  rewrite <- Hid. by apply Hans.
Qed.

Lemma cancelled_length w : length (timers (cancelled w)) = length (timers w).
Proof.
  rewrite cancelled_timers. destruct (timer (self w)); by rewrite ?length_alter.
Qed.

Lemma button_action_frame hass a w res w' :
  button_action hass a w = (res, w') →
  self w' = self w ∧ timers w' = timers w.
Proof.
  rewrite button_action_eq. cbn zeta.
  destruct (failure hass (fire_entry (self w) (now w) (running w) a));
    by intros [= <- <-].
Qed.

(** A step of the whole process by object [i], seen by [i] alone, is the
    same step: the bodies reach timers only through [self.timer] and
    through the reference of the timer whose thread runs them. *)
Lemma step_localise ow i tr0 H calls l w res w' :
  (∀ r, timer (self w) = Some r → ow !! r = Some i) →
  (∀ r, thread_of l = TimerThread r → ow !! r = Some i) →
  (length (timers w') ≠ length (timers w) → ow !! length (timers w) = Some i) →
  answers_alike H (self w) →
  step (serving H calls) l w = Some (res, w') →
  step (serving H []) (local_label ow i l) (localise ow i tr0 w)
    = Some (res, localise ow i tr0 w').
Proof.
  intros Hslot Hth Hnew Hans. unfold step.
  change (now (localise ow i tr0 w)) with (now w).
  replace (label_time (local_label ow i l)) with (label_time l) by (by destruct l).
  destruct (bool_decide (now w ≤ label_time l)); [|discriminate].
  destruct l as [t event|t r|t r]; cbn [local_label].
  - intros [= Hb]. f_equal.
    change (entering t RawThread (localise ow i tr0 w))
      with (localise ow i tr0 (entering t RawThread w)).
    rewrite button_callback_eq in Hb |- *. cbn zeta in *.
    rewrite localise_logged, localise_cancelled by exact Hslot.
    set (w1 := cancelled (logged event (entering t RawThread w))) in *.
    assert (answers_alike H (self w1)) as Hans1.
    { eapply answers_alike_identity; [|exact Hans].
      unfold w1. by rewrite cancelled_identity. }
    assert (length (timers w1) = length (timers w)) as Hlen1.
    { unfold w1. by rewrite cancelled_length. }
    destruct event as [| |v].
    + rewrite (localise_button_action ow i tr0 H calls) by (done || in_classified).
      destruct (button_action (serving H calls) "pressed" w1) as [[u|x] w2] eqn:Hba.
      * injection Hb as <- <-. f_equal.
        apply button_action_frame in Hba as [_ Hts].
        apply localise_armed. rewrite Hts, Hlen1. apply Hnew.
        unfold armed. cbn. rewrite length_app, Hts, Hlen1. cbn. lia.
      * by injection Hb as <- <-.
    + rewrite (localise_button_action ow i tr0 H calls) by (done || in_classified).
      by rewrite Hb.
    + by injection Hb as <- <-.
  - assert (ow !! r = Some i) as Hr by (by apply Hth).
    change (timers (localise ow i tr0 w)) with (own_timers ow i (timers w)).
    rewrite own_timers_lookup by done.
    destruct (timers w !! r) as [o|]; [|discriminate].
    destruct (bool_decide (phase o = Waiting)); [|discriminate].
    destruct (finished o).
    + intros [= <- <-]. f_equal. f_equal.
      change (entering t (TimerThread (local_ref ow i r)) (localise ow i tr0 w))
        with (localise ow i tr0 (entering t (TimerThread r) w)).
      by apply localise_set_phase.
    + destruct (bool_decide (started o + interval o ≤ t)); [|discriminate].
      intros [= <- <-]. f_equal. f_equal.
      change (entering t (TimerThread (local_ref ow i r)) (localise ow i tr0 w))
        with (localise ow i tr0 (entering t (TimerThread r) w)).
      by apply localise_set_phase.
  - assert (ow !! r = Some i) as Hr by (by apply Hth).
    change (timers (localise ow i tr0 w)) with (own_timers ow i (timers w)).
    rewrite own_timers_lookup by done.
    destruct (timers w !! r) as [o|]; [|discriminate].
    destruct (bool_decide (phase o = Calling)); [|discriminate].
    change (entering t (TimerThread (local_ref ow i r)) (localise ow i tr0 w))
      with (localise ow i tr0 (entering t (TimerThread r) w)).
    set (w0 := entering t (TimerThread r) w) in *.
    destruct (function o); cbn [closure_body].
    + rewrite !long_press_func_eq.
      rewrite (localise_button_action ow i tr0 H calls) by (done || in_classified).
      destruct (button_action (serving H calls) "long_pressed" w0)
        as [[u|x] w2] eqn:Hba.
      * apply button_action_frame in Hba as [_ Hts].
        intros [= <- <-]. f_equal. f_equal.
        rewrite localise_armed.
        -- by rewrite localise_set_phase, localise_set_finished.
        -- rewrite Hts. apply Hnew. unfold set_finished, set_phase, armed. cbn.
           rewrite !length_alter, length_app, Hts. cbn. lia.
      * intros [= <- <-]. f_equal. f_equal. by apply localise_set_phase.
    + rewrite !super_long_press_func_eq.
      change (with_self (with_timer None (self (localise ow i tr0 w0)))
                (localise ow i tr0 w0))
        with (localise ow i tr0 (with_self (with_timer None (self w0)) w0)).
      rewrite (localise_button_action ow i tr0 H calls) by (done || in_classified).
      destruct (button_action (serving H calls) "super_long_pressed"
                  (with_self (with_timer None (self w0)) w0)) as [[u|x] w2] eqn:Hba.
      * intros [= <- <-]. f_equal. f_equal.
        by rewrite localise_set_phase, localise_set_finished.
      * intros [= <- <-]. f_equal. f_equal. by apply localise_set_phase.
Qed.

(** *** Steps of the whole process *)

Lemma home_step_inv H j l h h1 :
  home_step H (j, l) h = Some h1 →
  ∃ b res w',
    buttons h !! j = Some b ∧ acts_for j l h = true ∧
    stepped (serving H (history h)) (view h b) l res w' ∧
    h1 = mkHome (<[j := self w']> (buttons h)) (timers w')
           (owner h ++ replicate (length (timers w') - length (heap h)) j)
           (now w') (history h ++ (pair j <$> trace w')).
Proof.
  unfold home_step. cbn [fst snd].
  destruct (buttons h !! j) as [b|]; [|discriminate].
  destruct (acts_for j l h) eqn:Hact; [|discriminate].
  destruct (step (serving H (history h)) l (view h b)) as [[res w']|] eqn:Hs;
    [|discriminate].
  intros [= <-]. exists b, res, w'. by rewrite <- step_stepped.
Qed.

(** A body leaves the number of timers and [self.timer] as they are, or
    clears [self.timer], or creates one timer and stores it there. *)
Lemma stepped_growth hass w l res w' :
  stepped hass w l res w' →
  now w' = label_time l ∧ identity (self w') = identity (self w) ∧
  (length (timers w') = length (timers w) ∧
     (timer (self w') = None ∨ timer (self w') = timer (self w)) ∨
   length (timers w') = S (length (timers w)) ∧
     timer (self w') = Some (length (timers w))).
Proof.
  intros Hs.
  destruct (stepped_trace _ _ _ _ _ Hs) as (_ & _ & _ & _ & _ & Hid & Hnow).
  split; [done|]. split; [done|].
  destruct Hs as [t event res w' Hnow' Hb|t r1 o1 Hnow' Ho1 Hph1 Hfin1
                 |t r1 o1 Hnow' Ho1 Hph1 Hfin1 Hdue|t r1 o1 w1 Hnow' Ho1 Hph1 Hb
                 |t r1 o1 x w1 Hnow' Ho1 Hph1 Hb].
  - apply button_callback_store in Hb as [(Hts & Hslot & _)|(_ & _ & Hts & Hslot)].
    + left. rewrite Hts, cancelled_length. split; [done|by left].
    + right. rewrite Hts, length_app, cancelled_length. cbn.
      split; [lia|done].
  - left. unfold set_phase. cbn. rewrite length_alter. split; [done|by right].
  - left. unfold set_phase. cbn. rewrite length_alter. split; [done|by right].
  - apply closure_body_store in Hb. unfold set_finished, set_phase. cbn.
    rewrite !length_alter. cbn in Hb. destruct (function o1).
    + destruct Hb as [(_ & -> & ->)|(_ & -> & ->)].
      * left. split; [done|by right].
      * right. rewrite length_app. cbn. split; [lia|done].
    + destruct Hb as [-> ->]. left. split; [done|by left].
  - apply closure_body_store in Hb. unfold set_phase. cbn.
    rewrite !length_alter. cbn in Hb. destruct (function o1).
    + destruct Hb as [(_ & -> & ->)|(_ & -> & ->)].
      * left. split; [done|by right].
      * right. rewrite length_app. cbn. split; [lia|done].
    + destruct Hb as [-> ->]. left. split; [done|by left].
Qed.

Lemma home_step_owner H il h h1 :
  home_step H il h = Some h1 → owner h `prefix_of` owner h1.
Proof.
  destruct il as [j l].
  intros (b & res & w' & _ & _ & _ & ->)%home_step_inv. cbn.
  by apply prefix_app_r.
Qed.

Lemma home_exec_owner H sched h hF :
  home_exec H sched h = Some hF → owner h `prefix_of` owner hF.
Proof.
  revert h. induction sched as [|il sched IH]; intros h.
  - by intros [= <-].
  - cbn [home_exec]. destruct (home_step H il h) as [h1|] eqn:Hs; [|discriminate].
    intros Hex. etrans; [by eapply home_step_owner|by apply IH].
Qed.

Lemma slots_owned_step H il h h1 :
  slots_owned h → home_step H il h = Some h1 → slots_owned h1.
Proof.
  destruct il as [j l]. intros [Hlen Hown].
  intros (b & res & w' & Hb & Hact & Hs & ->)%home_step_inv.
  apply stepped_growth in Hs as (_ & _ & Hgrow). cbn in Hgrow.
  split; cbn.
  - rewrite length_app, length_replicate. lia.
  - intros j' b' r Hb' Hslot.
    apply list_lookup_insert_Some in Hb' as [(<- & <- & _)|(Hne & Hb')].
    + destruct Hgrow as [(Hl & [Hnone|Heq])|(Hl & Hnew)].
      * congruence.
      * apply lookup_app_l_Some. apply (Hown j b r Hb). congruence.
      * rewrite Hl. replace (S (length (heap h)) - length (heap h))%nat
          with 1%nat by lia.
        rewrite Hslot in Hnew. injection Hnew as ->.
        rewrite lookup_app_r by lia. by rewrite Hlen, Nat.sub_diag.
    + apply lookup_app_l_Some. by eapply Hown.
Qed.

Lemma slots_owned_exec H sched h hF :
  slots_owned h → home_exec H sched h = Some hF → slots_owned hF.
Proof.
  revert h. induction sched as [|il sched IH]; intros h Hown.
  - by intros [= <-].
  - cbn [home_exec]. destruct (home_step H il h) as [h1|] eqn:Hs; [|discriminate].
    apply IH. by eapply slots_owned_step.
Qed.

(** A step of object [j] touches nothing of another object [i]: not its
    attributes, not a timer it created, and it makes no call in its name. *)
Lemma home_step_other H i j l h h1 owF :
  j ≠ i → slots_owned h → home_step H (j, l) h = Some h1 →
  owner h1 `prefix_of` owF →
  buttons h1 !! i = buttons h !! i ∧
  own_timers owF i (heap h1) = own_timers owF i (heap h) ∧
  own_calls owF i (history h1) = own_calls owF i (history h) ∧
  filter (λ ie, ie.1 = i) (history h1) = filter (λ ie, ie.1 = i) (history h) ∧
  clock h ≤ clock h1.
Proof.
  intros Hne [Hlen Hown].
  intros (b & res & w' & Hb & Hact & Hs & ->)%home_step_inv.
  cbn [buttons heap owner clock history].
  intros Hpre. pose proof (stepped_now _ _ _ _ _ Hs) as Hnow.
  destruct (stepped_growth _ _ _ _ _ Hs) as (Hnow' & _ & Hgrow).
  cbn in Hnow, Hgrow.
  split; [by apply list_lookup_insert_ne|]. split; [|split; [|split]].
  - apply own_timers_ext. intros r Hr.
    destruct (heap h !! r) as [o|] eqn:Ho.
    + assert (owner h !! r = Some i) as Hri.
      { destruct (owner h !! r) as [x|] eqn:Hx.
        - rewrite <- Hr. symmetry. eapply prefix_lookup_Some; [|exact Hpre].
          by apply lookup_app_l_Some.
        - apply lookup_ge_None in Hx. apply lookup_lt_Some in Ho. lia. }
      destruct (stepped_lookup _ _ _ _ _ r o Hs Ho)
        as (o' & Ho' & _ & _ & _ & _ & _ & _ & Hsame).
      rewrite Ho'. f_equal. apply Hsame.
      * cbn. intros Hslot. pose proof (Hown j b r Hb Hslot). congruence.
      * intros Hth. destruct l as [| |]; cbn in Hth, Hact; simplify_eq;
          apply bool_decide_eq_true_1 in Hact; congruence.
    + apply lookup_ge_None in Ho. apply lookup_ge_None.
      destruct Hgrow as [(Hl & _)|(Hl & _)]; [lia|].
      destruct (decide (r = length (heap h))) as [->|]; [|lia].
      exfalso. apply Hne.
      assert ((owner h ++ replicate (length (timers w') - length (heap h)) j)
                !! length (heap h) = Some j) as Hj.
      { rewrite Hl. replace (S (length (heap h)) - length (heap h))%nat
          with 1%nat by lia.
        rewrite lookup_app_r by lia. by rewrite Hlen, Nat.sub_diag. }
      pose proof (prefix_lookup_Some _ _ _ _ Hj Hpre). congruence.
  - by rewrite own_calls_app, own_calls_other, app_nil_r.
  - rewrite filter_app. rewrite <- (app_nil_r (filter _ (history h))) at 2.
    f_equal. induction (trace w') as [|e tr IH]; [done|].
    rewrite fmap_cons, filter_cons. cbn [fst]. by rewrite decide_False.
  - lia.
Qed.

Lemma step_agree hass l w1 w2 x :
  self w1 = self w2 → timers w1 = timers w2 → trace w1 = trace w2 →
  now w1 ≤ now w2 →
  step hass l w2 = Some x → step hass l w1 = Some x.
Proof.
  destruct w1 as [b1 ts1 n1 th1 tr1], w2 as [b2 ts2 n2 th2 tr2]. cbn.
  intros -> -> -> Hnow. unfold step. cbn.
  destruct (bool_decide (n2 ≤ label_time l)) eqn:Hle; [|discriminate].
  apply bool_decide_eq_true_1 in Hle.
  rewrite bool_decide_eq_true_2 by lia. done.
Qed.

(** A step of object [i] is the step [i] alone takes. *)
Lemma home_step_own H i l h h1 owF w :
  slots_owned h → home_step H (i, l) h = Some h1 →
  owner h1 `prefix_of` owF →
  (∀ b, buttons h !! i = Some b → answers_alike H b) →
  part_of owF i h w →
  ∃ res w1, step (serving H []) (local_label owF i l) w = Some (res, w1) ∧
            part_of owF i h1 w1 ∧
            (∀ b, buttons h1 !! i = Some b → answers_alike H b).
Proof.
  intros [Hlen Hown].
  intros (b & res & w' & Hb & Hact & Hs & ->)%home_step_inv.
  cbn [buttons heap owner clock history].
  intros Hpre Hans (b' & Hb' & Hself & Hts & Htr & Hnow).
  assert (b' = b) as -> by congruence.
  destruct (stepped_growth _ _ _ _ _ Hs) as (Hnow' & Hid & Hgrow).
  cbn in Hgrow, Hid.
  assert (∀ r x, owner h !! r = Some x → owF !! r = Some x) as Hext.
  { intros r x Hr. eapply prefix_lookup_Some; [|exact Hpre].
    by apply lookup_app_l_Some. }
  assert (step (serving H []) (local_label owF i l)
            (localise owF i (trace w) (view h b))
          = Some (res, localise owF i (trace w) w')) as Hloc.
  { apply (step_localise owF i (trace w) H (history h)).
    - cbn. intros r Hslot. apply Hext. by eapply Hown.
    - intros r Hth. apply Hext.
      destruct l as [| |]; cbn in Hth, Hact; simplify_eq;
        by apply bool_decide_eq_true_1 in Hact.
    - cbn. intros Hneq.
      destruct Hgrow as [(Hl & _)|(Hl & _)]; [done|].
      eapply prefix_lookup_Some; [|exact Hpre].
      rewrite Hl. replace (S (length (heap h)) - length (heap h))%nat
        with 1%nat by lia.
      rewrite lookup_app_r by lia. by rewrite Hlen, Nat.sub_diag.
    - cbn. by apply Hans.
    - by apply step_stepped. }
  exists res, (localise owF i (trace w) w'). split; [|split].
  - eapply step_agree; [..|exact Hloc]; cbn; [done|done| |done].
    by rewrite app_nil_r.
  - exists (self w'). unfold localise.
    cbn [buttons heap owner clock history self timers trace now].
    split; [|split; [|split; [|split]]].
    + apply list_lookup_insert_eq. by eapply lookup_lt_Some.
    + done.
    + done.
    + by rewrite own_calls_app, own_calls_own, Htr.
    + done.
  - intros b1 Hb1.
    rewrite list_lookup_insert_eq in Hb1 by (by eapply lookup_lt_Some).
    injection Hb1 as <-.
    eapply answers_alike_identity; [symmetry; exact Hid|]. by apply Hans.
Qed.

Lemma home_exec_part H i sched h hF w :
  home_exec H sched h = Some hF → slots_owned h →
  (∀ b, buttons h !! i = Some b → answers_alike H b) →
  part_of (owner hF) i h w →
  ∃ w', exec (serving H []) (own_steps (owner hF) i sched) w = Some w' ∧
        part_of (owner hF) i hF w'.
Proof.
  revert h w. induction sched as [|[j l] sched IH]; intros h w.
  - intros [= <-] _ _ Hpart. by exists w.
  - cbn [home_exec].
    destruct (home_step H (j, l) h) as [h1|] eqn:Hs; [|discriminate].
    intros Hex Hown Hans Hpart.
    pose proof (home_exec_owner _ _ _ _ Hex) as Hpre.
    pose proof (slots_owned_step _ _ _ _ Hown Hs) as Hown1.
    rewrite own_steps_cons. destruct (decide (j = i)) as [->|Hne].
    + destruct (home_step_own _ _ _ _ _ _ _ Hown Hs Hpre Hans Hpart)
        as (res & w1 & Hstep & Hpart1 & Hans1).
      destruct (IH h1 w1 Hex Hown1 Hans1 Hpart1) as (w' & Hex' & Hpart').
      exists w'. split; [|done]. cbn [exec]. by rewrite Hstep.
    + destruct (home_step_other _ i _ _ _ _ _ Hne Hown Hs Hpre)
        as (Hbs & Hts & Hcs & _ & Hclock).
      apply (IH h1 w Hex Hown1).
      * intros b. rewrite Hbs. apply Hans.
      * destruct Hpart as (b & Hb & Hself & Htsw & Htr & Hnow).
        exists b. rewrite Hbs, Hts, Hcs. repeat split; try done. lia.
Qed.

Lemma own_calls_seq_later ow i e m n :
  (i < m)%nat → own_calls ow i ((λ j, (j, e)) <$> seq m n) = [].
Proof.
  revert m. induction n as [|n IH]; intros m Hm; [done|].
  cbn [seq]. rewrite fmap_cons. unfold own_calls in *. cbn [omap list_omap fst].
  rewrite decide_False by lia. apply IH. lia.
Qed.

Lemma own_calls_seq ow i e k n :
  (k ≤ i < k + n)%nat →
  own_calls ow i ((λ j, (j, e)) <$> seq k n) = [local_entry ow i e].
Proof.
  revert k. induction n as [|n IH]; intros k Hi; [lia|].
  cbn [seq]. rewrite fmap_cons.
  change (own_calls ow i ((k, e) :: ((λ j, (j, e)) <$> seq (S k) n)))
    with (match (if decide (k = i) then Some (local_entry ow i e) else None) with
          | Some y => y :: own_calls ow i ((λ j, (j, e)) <$> seq (S k) n)
          | None => own_calls ow i ((λ j, (j, e)) <$> seq (S k) n)
          end).
  destruct (decide (k = i)) as [->|Hne].
  - f_equal. apply own_calls_seq_later. lia.
  - apply IH. lia.
Qed.

(** C9: interleaving the steps of the buttons of one process, which share
    the [hass] object, the timers' memory and the clock, changes nothing
    for any of them.  Whatever the shared [hass] answers, a step of one
    object leaves the attributes of every other object, the timers that
    object created and the calls it made as they are.  And for an object
    whose calls the shared [hass] answers the same way whatever was called
    on it before, its part of the process after any interleaved run (its
    attributes with [self.timer], its timers, the calls it made, hence the
    events it emitted) is the world its own steps alone lead to from its
    construction; references to timers are those of the object alone. *)
Theorem buttons_are_isolated H t0 specs sched h i :
  home_exec H sched (install H t0 specs) = Some h →
  (∀ j l h', j ≠ i → home_step H (j, l) h = Some h' →
     buttons h' !! i = buttons h !! i ∧
     own_timers (owner h') i (heap h') = own_timers (owner h) i (heap h) ∧
     filter (λ ie, ie.1 = i) (history h')
       = filter (λ ie, ie.1 = i) (history h)) ∧
  (∀ area_name keypad button,
     specs !! i = Some (area_name, keypad, button) →
     answers_alike H (__init__ (serving H []) area_name keypad button) →
     ∃ w, exec (serving H []) (own_steps (owner h) i sched)
               (construct (serving H []) t0 area_name keypad button) = Some w ∧
          (∃ b, buttons h !! i = Some b ∧ self w = local_self (owner h) i b) ∧
          timers w = own_timers (owner h) i (heap h) ∧
          trace w = own_calls (owner h) i (history h)).
Proof.
  intros Hex.
  assert (slots_owned (install H t0 specs)) as Hown0.
  { split; [done|]. cbn. intros j b r Hb Hslot.
    apply list_lookup_fmap_Some in Hb as (s & -> & _). discriminate. }
  pose proof (slots_owned_exec _ _ _ _ Hown0 Hex) as Hown.
  split.
  - intros j l h' Hne Hs.
    destruct (home_step_other H i j l h h' (owner h') Hne Hown Hs)
      as (Hbs & Hts & _ & Hcs & _); [done|].
    split; [done|]. split; [|done]. rewrite Hts.
    destruct (home_step_owner _ _ _ _ Hs) as [ext ->].
    apply own_timers_prefix. by destruct Hown.
  - intros area_name keypad button Hspec Hans.
    destruct (home_exec_part H i sched (install H t0 specs) h
                (construct (serving H []) t0 area_name keypad button) Hex Hown0)
      as (w & Hexw & b & Hb & Hself & Hts & Htr & _).
    + cbn. intros b Hb. rewrite list_lookup_fmap, Hspec in Hb.
      by injection Hb as <-.
    + exists (__init__ (serving H []) area_name keypad button).
      split; [|split; [|split; [|split]]]; cbn [install buttons heap history clock].
      * by rewrite list_lookup_fmap, Hspec.
      * done.
      * by rewrite own_timers_nil_r.
      * rewrite own_calls_seq; [done|].
        apply lookup_lt_Some in Hspec. lia.
      * cbn. lia.
    + exists w. split; [done|]. split; [|done]. by exists b.
Qed.

(** ** The theorems at concrete inputs *)

Lemma never_raises_sample : never_raises Sample.hass.
Proof. split; reflexivity. Defined.

Lemma made_no_call (r : nat) (tr : list Entry) :
  forallb (λ e, bool_decide (by_thread e ≠ TimerThread r)) tr = true →
  ∀ e, e ∈ tr → by_thread e ≠ TimerThread r.
Proof.
  intros H e He. rewrite forallb_forall in H.
  apply list_elem_of_In in He. apply H in He. by apply bool_decide_eq_true_1 in He.
Defined.

Lemma timer_cancelled_while_waiting_never_runs_witness :
  (step Sample.hass (Raw 200 RELEASED) Sample.pressed_world
     = Some (Ok (), Sample.release_step_world) ∧
   exec Sample.hass [Wake 200 0] Sample.release_step_world
     = Some Sample.released_world ∧
   stopped 0 Sample.released_world) ∧
  (never_raises Sample.hass ∧
   exec Sample.hass
     (Raw 0 PRESSED :: [] ++ Raw (0 + 300) PRESSED :: Sample.repress_tail)
     Sample.toggle_world = Some Sample.repressed_world ∧
   stopped 0 Sample.repressed_world ∧ ¬ ran_after_cancel 0 Sample.repressed_world).
Proof.
  assert (step Sample.hass (Raw 200 RELEASED) Sample.pressed_world
            = Some (Ok (), Sample.release_step_world)) as Hs
    by (vm_compute; reflexivity).
  assert (exec Sample.hass [Wake 200 0] Sample.release_step_world
            = Some Sample.released_world) as Hex
    by (vm_compute; reflexivity).
  assert (exec Sample.hass
            (Raw 0 PRESSED :: [] ++ Raw (0 + 300) PRESSED :: Sample.repress_tail)
            Sample.toggle_world = Some Sample.repressed_world) as Hex2
    by (vm_compute; reflexivity).
  split.
  - split; [exact Hs|]. split; [exact Hex|].
    refine (proj1 (proj1 (timer_cancelled_while_waiting_never_runs Sample.hass)
                     Sample.pressed_world 200 RELEASED (Ok ())
                     Sample.release_step_world 0%nat
                     (mkTimer 500 long_press 0 false Waiting)
                     [Wake 200 0] Sample.released_world
                     _ _ _ _ Hs Hex)).
    + vm_compute; reflexivity.
    + vm_compute; reflexivity.
    + reflexivity.
    + apply made_no_call. vm_compute; reflexivity.
  - split; [exact never_raises_sample|]. split; [exact Hex2|].
    exact (proj2 (timer_cancelled_while_waiting_never_runs Sample.hass)
             never_raises_sample 0 "Hall" Sample.keypad Sample.toggle 0 []
             Sample.repress_tail Sample.repressed_world Hex2).
Defined.

Lemma unrecognized_event_only_cancels_witness :
  now Sample.pressed_world ≤ 100 ∧
  ∃ w', step Sample.hass (Raw 100 (OTHER 3)) Sample.pressed_world = Some (Ok (), w') ∧
        fired w' = fired Sample.pressed_world ∧
        timer (self w') = None.
Proof.
  assert (now Sample.pressed_world ≤ 100) as Hnow by (vm_compute; discriminate).
  split; [exact Hnow|].
  destruct (unrecognized_event_only_cancels Sample.hass Sample.pressed_world 100 3 Hnow)
    as (w' & Hs & Hf & _ & Hslot & _).
  exists w'. split; [exact Hs|]. split; [exact Hf|exact Hslot].
Defined.

Lemma long_press_escalation_witness :
  never_raises Sample.hass ∧ 0 ≤ 0 ∧ timers_only Sample.held ∧
  exec Sample.hass (Raw 0 PRESSED :: Sample.held) Sample.toggle_world
    = Some Sample.held_world ∧
  pending Sample.held_world = [] ∧
  ∃ ta tb, 0 + 500 ≤ ta ∧ ta + 1000 ≤ tb ∧
           fired Sample.held_world =
             [(0, RawThread, "pressed"); (ta, TimerThread 0, "long_pressed");
              (tb, TimerThread 1, "super_long_pressed")] ∧
           idle Sample.held_world.
Proof.
  assert (timers_only Sample.held) as Hheld by (repeat constructor).
  assert (exec Sample.hass (Raw 0 PRESSED :: Sample.held) Sample.toggle_world
            = Some Sample.held_world) as Hex by (vm_compute; reflexivity).
  assert (pending Sample.held_world = []) as Hp by (vm_compute; reflexivity).
  assert (0 ≤ 0) as H0 by lia.
  split; [exact never_raises_sample|]. split; [exact H0|]. split; [exact Hheld|].
  split; [exact Hex|]. split; [exact Hp|].
  exact (proj2 (long_press_escalation Sample.hass 0 "Hall" Sample.keypad
                  Sample.toggle 0 never_raises_sample H0)
           Sample.held Sample.held_world Hheld Hex Hp).
Defined.

Lemma press_release_roundtrip_witness :
  never_raises Sample.hass ∧
  _has_release_event (__init__ Sample.hass "Hall" Sample.keypad Sample.raise_btn) = true ∧
  0 ≤ 0 ∧ 0 ≤ 200 ∧
  ∃ w, exec Sample.hass [Raw 0 PRESSED; Raw 200 RELEASED] Sample.raise_world = Some w ∧
       fired w = [(0, RawThread, "pressed"); (200, RawThread, "released")] ∧
       idle w.
Proof.
  assert (_has_release_event
            (__init__ Sample.hass "Hall" Sample.keypad Sample.raise_btn) = true)
    as Hflag by (vm_compute; reflexivity).
  assert (0 ≤ 0) as H0 by lia. assert (0 ≤ 200) as H1 by lia.
  split; [exact never_raises_sample|]. split; [exact Hflag|].
  split; [exact H0|]. split; [exact H1|].
  destruct (press_release_roundtrip Sample.hass 0 "Hall" Sample.keypad
              Sample.raise_btn 0 200 never_raises_sample Hflag H0 H1)
    as (w & Hex & Hf & Hidle & _).
  exists w. split; [exact Hex|]. split; [exact Hf|exact Hidle].
Defined.

Lemma one_pending_timer_without_race_witness :
  (press_race_free Sample.hass Sample.late_release Sample.toggle_world ∧
   exec Sample.hass Sample.late_release Sample.toggle_world
     = Some Sample.late_release_world ∧
   (length (pending Sample.late_release_world) ≤ 1)%nat) ∧
  (step Sample.hass (Raw 200 RELEASED) Sample.pressed_world
     = Some (Ok (), Sample.release_step_world) ∧
   ∃ rest,
     trace Sample.release_step_world =
       trace Sample.pressed_world
       ++ mkEntry 200 RawThread
            (logger_info (_full_id (self Sample.pressed_world)) RELEASED)
          :: match timer (self Sample.pressed_world) with
             | Some r => [mkEntry 200 RawThread (timer_cancel r)]
             | None => []
             end ++ rest).
Proof.
  assert (press_race_free Sample.hass Sample.late_release Sample.toggle_world)
    as Hrace.
  { vm_compute. repeat split; try discriminate.
    all: intros t [= <-] r o; destruct r as [|[|[|r]]]; intros [= <-]; discriminate. }
  assert (exec Sample.hass Sample.late_release Sample.toggle_world
            = Some Sample.late_release_world) as Hex by (vm_compute; reflexivity).
  assert (step Sample.hass (Raw 200 RELEASED) Sample.pressed_world
            = Some (Ok (), Sample.release_step_world)) as Hs
    by (vm_compute; reflexivity).
  split.
  - split; [exact Hrace|]. split; [exact Hex|].
    exact (proj1 (one_pending_timer_without_race Sample.hass)
             0 "Hall" Sample.keypad Sample.toggle
             Sample.late_release Sample.late_release_world Hrace Hex).
  - split; [exact Hs|].
    destruct (proj2 (one_pending_timer_without_race Sample.hass)
                Sample.pressed_world 200 RELEASED (Ok ())
                Sample.release_step_world Hs)
      as ((rest & Htr & _) & _).
    exists rest. exact Htr.
Defined.

Lemma emissions_have_fixed_shape_and_log_entry_witness :
  exec Sample.hass (Raw 0 PRESSED :: Sample.held) Sample.toggle_world
    = Some Sample.held_world ∧
  emission_log Sample.hass (__init__ Sample.hass "Hall" Sample.keypad Sample.toggle)
    (trace Sample.held_world).
Proof.
  assert (exec Sample.hass (Raw 0 PRESSED :: Sample.held) Sample.toggle_world
            = Some Sample.held_world) as Hex by (vm_compute; reflexivity).
  split; [exact Hex|].
  exact (proj1 (emissions_have_fixed_shape_and_log_entry Sample.hass 0 "Hall"
                  Sample.keypad Sample.toggle (Raw 0 PRESSED :: Sample.held)
                  Sample.held_world Hex)).
Defined.

Lemma sink_failure_propagates_witness :
  step Sample.broken (Raw 0 PRESSED) Sample.toggle_world
    = Some (Raise (Exception "HomeAssistantError"), Sample.failed_world) ∧
  ∃ new, trace Sample.failed_world = trace Sample.toggle_world ++ new ∧
         ∀ pre e post x, new = pre ++ e :: post →
                         failure Sample.broken e = Some x →
                         post = [] ∧
                         @Raise unit (Exception "HomeAssistantError") = Raise x.
Proof.
  assert (step Sample.broken (Raw 0 PRESSED) Sample.toggle_world
            = Some (Raise (Exception "HomeAssistantError"), Sample.failed_world))
    as Hs by (vm_compute; reflexivity).
  split; [exact Hs|].
  exact (sink_failure_propagates Sample.broken (Raw 0 PRESSED) Sample.toggle_world
           _ _ Hs).
Defined.

Lemma buttons_are_isolated_witness :
  home_exec Sample.crowded Sample.interleaved
    (install Sample.crowded 0 Sample.specs) = Some Sample.two_buttons_after ∧
  (home_step Sample.crowded (0%nat, Raw 800 PRESSED) Sample.two_buttons_after
     = Some Sample.toggle_pressed_after ∧
   buttons Sample.toggle_pressed_after !! 1%nat
     = buttons Sample.two_buttons_after !! 1%nat ∧
   own_timers (owner Sample.toggle_pressed_after) 1
     (heap Sample.toggle_pressed_after)
     = own_timers (owner Sample.two_buttons_after) 1
         (heap Sample.two_buttons_after)) ∧
  Sample.specs !! 1%nat = Some ("Hall", Sample.keypad, Sample.raise_btn) ∧
  answers_alike Sample.crowded
    (__init__ (serving Sample.crowded []) "Hall" Sample.keypad Sample.raise_btn) ∧
  ∃ w, exec (serving Sample.crowded [])
         (own_steps (owner Sample.two_buttons_after) 1 Sample.interleaved)
         (construct (serving Sample.crowded []) 0 "Hall" Sample.keypad
            Sample.raise_btn) = Some w ∧
       timers w = own_timers (owner Sample.two_buttons_after) 1
                    (heap Sample.two_buttons_after) ∧
       trace w = own_calls (owner Sample.two_buttons_after) 1
                   (history Sample.two_buttons_after).
Proof.
  assert (home_exec Sample.crowded Sample.interleaved
            (install Sample.crowded 0 Sample.specs)
          = Some Sample.two_buttons_after) as Hex by (vm_compute; reflexivity).
  assert (home_step Sample.crowded (0%nat, Raw 800 PRESSED)
            Sample.two_buttons_after = Some Sample.toggle_pressed_after)
    as Hstep by (vm_compute; reflexivity).
  assert (0%nat ≠ 1%nat) as Hne by discriminate.
  assert (Sample.specs !! 1%nat = Some ("Hall", Sample.keypad, Sample.raise_btn))
    as Hspec by reflexivity.
  assert (answers_alike Sample.crowded
            (__init__ (serving Sample.crowded []) "Hall" Sample.keypad
               Sample.raise_btn)) as Hans.
  { intros calls t a Ha. split; reflexivity. }
  split; [exact Hex|]. split; [|split; [exact Hspec|split; [exact Hans|]]].
  - split; [exact Hstep|].
    destruct (proj1 (buttons_are_isolated Sample.crowded 0 Sample.specs
                       Sample.interleaved Sample.two_buttons_after 1%nat Hex)
                0%nat (Raw 800 PRESSED) Sample.toggle_pressed_after Hne Hstep)
      as (Hbs & Hts & _).
    split; [exact Hbs|exact Hts].
  - destruct (proj2 (buttons_are_isolated Sample.crowded 0 Sample.specs
                       Sample.interleaved Sample.two_buttons_after 1%nat Hex)
                "Hall" Sample.keypad Sample.raise_btn Hspec Hans)
      as (w & Hw & _ & Hts & Htr).
    exists w. split; [exact Hw|]. split; [exact Hts|exact Htr].
Defined.

Lemma failed_pressed_emission_arms_no_timer_witness :
  now Sample.toggle_world ≤ 0 ∧
  bus_fire_outcome Sample.broken 0 (_event (self Sample.toggle_world))
    (action_data (self Sample.toggle_world) "pressed")
    = Some (Exception "HomeAssistantError") ∧
  ∃ w', step Sample.broken (Raw 0 PRESSED) Sample.toggle_world
          = Some (Raise (Exception "HomeAssistantError"), w') ∧
        timer (self w') = None ∧
        length (timers w') = length (timers Sample.toggle_world).
Proof.
  assert (now Sample.toggle_world ≤ 0) as Hnow by (vm_compute; discriminate).
  assert (bus_fire_outcome Sample.broken 0 (_event (self Sample.toggle_world))
            (action_data (self Sample.toggle_world) "pressed")
            = Some (Exception "HomeAssistantError")) as Hx by reflexivity.
  split; [exact Hnow|]. split; [exact Hx|].
  destruct (failed_pressed_emission_arms_no_timer Sample.broken Sample.toggle_world
              0 (Exception "HomeAssistantError") Hnow Hx)
    as (w' & Hs & Hslot & _ & Hlen & _).
  exists w'. split; [exact Hs|]. split; [exact Hslot|exact Hlen].
Defined.

(** ** What a step fires *)

Lemma button_action_fired hass a w res w' :
  button_action hass a w = (res, w') →
  fired w' = fired w ++ [(now w, running w, a)] ∧
  self w' = self w ∧ timers w' = timers w ∧ now w' = now w ∧
  running w' = running w.
Proof.
  rewrite button_action_eq. cbv zeta.
  destruct (failure hass (fire_entry _ _ _ _)); intros [= <- <-];
    unfold fired; cbn; by rewrite omap_app.
Qed.

Lemma set_phase_fired r p w : fired (set_phase r p w) = fired w.
Proof. reflexivity. Qed.

Lemma set_finished_fired r w : fired (set_finished r w) = fired w.
Proof. reflexivity. Qed.

(** Whatever the collaborators do, a step fires what its label says. *)
Lemma stepped_fired hass w l res w' :
  stepped hass w l res w' → fired w' = fired w ++ label_fired l w.
Proof.
  destruct 1 as [t event res w' Hnow Hb|t r o Hnow Ho Hph Hfin
                |t r o Hnow Ho Hph Hfin Hdue|t r o w1 Hnow Ho Hph Hb
                |t r o x w1 Hnow Ho Hph Hb]; cbn [label_fired].
  - rewrite button_callback_eq in Hb. cbv zeta in Hb.
    assert (fired (cancelled (logged event (entering t RawThread w))) = fired w)
      as Hf by (by rewrite cancelled_fired, logged_fired).
    assert (now (cancelled (logged event (entering t RawThread w))) = t)
      as Hn by (by rewrite cancelled_now).
    assert (running (cancelled (logged event (entering t RawThread w))) = RawThread)
      as Hr by (by rewrite cancelled_running).
    destruct event.
    + destruct (button_action hass "pressed" _) as [[[]|x] w2] eqn:Ha;
        apply button_action_fired in Ha as (Hf2 & _); simplify_eq;
        rewrite ?armed_fired, Hf2; congruence.
    + apply button_action_fired in Hb as (Hf2 & _). congruence.
    + simplify_eq. by rewrite Hf, app_nil_r.
  - by rewrite set_phase_fired, app_nil_r.
  - by rewrite set_phase_fired, app_nil_r.
  - rewrite Ho, set_finished_fired, set_phase_fired.
    destruct (function o); cbn [closure_body closure_action] in *.
    + rewrite long_press_func_eq in Hb.
      destruct (button_action hass "long_pressed" _) as [[[]|x] w2] eqn:Ha;
        apply button_action_fired in Ha as (Hf2 & _); simplify_eq.
      by rewrite armed_fired, Hf2.
    + rewrite super_long_press_func_eq in Hb.
      by apply button_action_fired in Hb as (Hf2 & _).
  - rewrite Ho, set_phase_fired.
    destruct (function o); cbn [closure_body closure_action] in *.
    + rewrite long_press_func_eq in Hb.
      destruct (button_action hass "long_pressed" _) as [[[]|y] w2] eqn:Ha;
        apply button_action_fired in Ha as (Hf2 & _); simplify_eq.
      done.
    + rewrite super_long_press_func_eq in Hb.
      by apply button_action_fired in Hb as (Hf2 & _).
Qed.

(** ** Where exceptions come from *)

Lemma emission_raise_last hass b t th x mid :
  emission hass b t th (Raise x) mid →
  ∃ pre e, mid = pre ++ [e] ∧ failure hass e = Some x.
Proof.
  inversion 1 as [|a y Ha Hf|a y Ha Hf Hl| |]; subst.
  - by exists [], (fire_entry b t th a).
  - by exists [fire_entry b t th a], (log_entry hass b t th a).
Qed.

(** X1: the callback and the timer functions raise nothing of their own:
    when a step leaves with an exception, the last call it made was a call
    of [hass.bus.fire] or [logbook.log_entry] that raised that exception;
    so with collaborators that do not raise, no step raises. *)
Theorem only_collaborators_raise hass l w res w' :
  step hass l w = Some (res, w') →
  (∀ x, res = Raise x →
        ∃ pre e, trace w' = trace w ++ pre ++ [e] ∧ failure hass e = Some x) ∧
  (never_raises hass → res = Ok ()).
Proof.
  intros Hs. apply step_stepped in Hs.
  apply stepped_trace in Hs as (qs & mid & Htr & _ & Hem & _).
  assert (∀ x, res = Raise x →
            ∃ pre e, trace w' = trace w ++ pre ++ [e] ∧ failure hass e = Some x)
    as Hraise.
  { intros x ->. apply emission_raise_last in Hem as (pre & e & -> & Hf).
    exists (qs ++ pre), e. by rewrite Htr, <- !app_assoc. }
  split; [done|].
  intros [Hfire Hlog]. destruct res as [[]|x]; [done|].
  destruct (Hraise x eq_refl) as (pre & e & _ & Hf).
  unfold failure in Hf. destruct (what e); try discriminate.
  - by rewrite Hfire in Hf.
  - by rewrite Hlog in Hf.
Qed.

(** ** Emissions and input, one to one *)

Lemma raw_fired_app w l :
  filter (λ p : Z * Thread * string, p.1.2 = RawThread) (fired w ++ l)
  = raw_fired w ++ filter (λ p : Z * Thread * string, p.1.2 = RawThread) l.
Proof. apply filter_app. Qed.

(** X2: the raw thread fires exactly what the raw input asks for, in its
    order: one "pressed" for each PRESS and one "released" for each
    RELEASE delivered, nothing for any other raw event, whatever the
    timers and the collaborators do in between; and every step that fires
    at all (a PRESS, a RELEASE, a timer function that runs) fires exactly
    one event. *)
Theorem emissions_mirror_input hass ls w w' :
  exec hass ls w = Some w' →
  raw_fired w' = raw_fired w ++ raw_input ls ∧
  length (fired w') = (length (fired w) + length (filter (λ l, fires l = true) ls))%nat.
Proof.
  revert w. induction ls as [|l ls IH]; intros w.
  - intros [= <-]. cbn. by rewrite app_nil_r, Nat.add_0_r.
  - rewrite exec_cons. intros (res & w1 & Hs & Hex).
    destruct (IH w1 Hex) as [IHraw IHlen].
    pose proof (stepped_fired _ _ _ _ _ Hs) as Hf.
    assert (∀ t r, l = Run t r → ∃ o, timers w !! r = Some o) as Hrun.
    { intros t r ->. inversion Hs; eauto. }
    split.
    + rewrite IHraw. unfold raw_fired at 1. rewrite Hf, raw_fired_app, <- app_assoc.
      f_equal. unfold raw_input. cbn [omap].
      destruct l as [t [| |v]|t r|t r]; cbn; try done.
      destruct (timers w !! r); cbn; [|done].
      by destruct (decide (TimerThread r = RawThread)).
    + rewrite IHlen, Hf, length_app.
      destruct l as [t [| |v]|t r|t r]; cbn [label_fired fires];
        rewrite ?filter_cons_True, ?filter_cons_False by done; cbn; try lia.
      destruct (Hrun t r eq_refl) as [o ->]. cbn. lia.
Qed.

(** ** When timers fire *)

(** A timer object that appears in a step is the long-press timer of a
    PRESS or the super-long-press timer of a long-press function, started
    at the time of the step. *)
Lemma stepped_new_timer hass w l res w' r o' :
  stepped hass w l res w' →
  timers w' !! r = Some o' → timers w !! r = None →
  (l = Raw (label_time l) PRESSED ∧
   o' = mkTimer 500 long_press (label_time l) false Waiting) ∨
  (∃ r1 o1, l = Run (label_time l) r1 ∧ timers w !! r1 = Some o1 ∧
            function o1 = long_press ∧
            o' = mkTimer 1000 super_long_press (label_time l) false Waiting).
Proof.
  intros Hs Ho' Hnone. apply lookup_ge_None in Hnone.
  destruct Hs as [t event res w' Hnow Hb|t r1 o1 Hnow Ho1 Hph1 Hfin1
                 |t r1 o1 Hnow Ho1 Hph1 Hfin1 Hdue|t r1 o1 w1 Hnow Ho1 Hph1 Hb
                 |t r1 o1 x w1 Hnow Ho1 Hph1 Hb]; cbn [label_time].
  - assert (length (timers (cancelled (entering t RawThread w)))
            = length (timers w)) as Hlen.
    { rewrite cancelled_timers. cbn.
      destruct (timer (self w)); by rewrite ?length_alter. }
    apply button_callback_store in Hb as [(Hts & _)|(-> & _ & Hts & _)].
    + rewrite Hts in Ho'. apply lookup_lt_Some in Ho'. lia.
    + left. split; [done|]. rewrite Hts in Ho'.
      apply lookup_app_Some in Ho' as [Ho'|[_ Ho']].
      { apply lookup_lt_Some in Ho'. lia. }
      rewrite Hlen in Ho'. cbn in Ho'.
      destruct (r - length (timers w))%nat; by simplify_eq/=.
  - apply lookup_lt_Some in Ho'. unfold set_phase in Ho'. cbn in Ho'.
    rewrite length_alter in Ho'. lia.
  - apply lookup_lt_Some in Ho'. unfold set_phase in Ho'. cbn in Ho'.
    rewrite length_alter in Ho'. lia.
  - assert (r1 ≠ r) as Hne.
    { intros ->. apply lookup_lt_Some in Ho1. lia. }
    rewrite ran_lookup, decide_False in Ho' by done.
    apply closure_body_store in Hb. cbn in Hb. destruct (function o1) eqn:Hfn.
    + destruct Hb as [([y [=]] & _)|(_ & Hts & _)]. rewrite Hts in Ho'.
      apply lookup_app_Some in Ho' as [Ho'|[_ Ho']].
      { apply lookup_lt_Some in Ho'. lia. }
      right. exists r1, o1. cbn in Ho'.
      destruct (r - length (timers w))%nat; by simplify_eq/=.
    + destruct Hb as [Hts _]. rewrite Hts in Ho'.
      apply lookup_lt_Some in Ho'. lia.
  - assert (r1 ≠ r) as Hne.
    { intros ->. apply lookup_lt_Some in Ho1. lia. }
    rewrite set_phase_lookup, decide_False in Ho' by done.
    apply closure_body_store in Hb. cbn in Hb. destruct (function o1) eqn:Hfn.
    + destruct Hb as [(_ & Hts & _)|([=] & _)]. rewrite Hts in Ho'.
      apply lookup_lt_Some in Ho'. lia.
    + destruct Hb as [Hts _]. rewrite Hts in Ho'.
      apply lookup_lt_Some in Ho'. lia.
Qed.

(** The phase a timer is in after a step of its own thread. *)
Lemma stepped_phase hass w l res w' r o o' :
  stepped hass w l res w' →
  timers w !! r = Some o → timers w' !! r = Some o' →
  phase o' = phase o ∨
  (phase o' = Skipped ∧ phase o = Waiting) ∨
  (phase o' = Calling ∧ phase o = Waiting ∧
     started o + interval o ≤ label_time l) ∨
  (phase o' = Ran ∧ phase o = Calling).
Proof.
  intros Hs Ho Ho'.
  destruct (decide (thread_of l = TimerThread r)) as [Heq|Hth].
  - destruct Hs as [|t r' o1 Hnow Ho1 Hph1 Hfin1|t r' o1 Hnow Ho1 Hph1 Hfin1 Hdue
                   |t r' o1 w1 Hnow Ho1 Hph1 Hb|t r' o1 x w1 Hnow Ho1 Hph1 Hb];
      cbn in Heq; simplify_eq.
    + rewrite set_phase_lookup, decide_True in Ho' by done. cbn in Ho'.
      match goal with H : timers w !! r = Some _ |- _ => rewrite H in Ho' end.
      simplify_eq/=. eauto.
    + rewrite set_phase_lookup, decide_True in Ho' by done. cbn in Ho'.
      match goal with H : timers w !! r = Some _ |- _ => rewrite H in Ho' end.
      simplify_eq/=. eauto 10.
    + rewrite ran_lookup, decide_True in Ho' by done.
      destruct (timers w1 !! r); simplify_eq/=. eauto 10.
    + rewrite set_phase_lookup, decide_True in Ho' by done.
      destruct (timers w1 !! r); simplify_eq/=. eauto 10.
  - destruct (stepped_lookup _ _ _ _ _ _ _ Hs Ho)
      as (o'' & Ho'' & _ & _ & _ & _ & Hph & _).
    left. rewrite Ho' in Ho''. simplify_eq. by apply Hph.
Qed.

Lemma timed_stepped hass w l res w' :
  timed w → stepped hass w l res w' → timed w'.
Proof.
  intros (Hts & Hfired & Hraw) Hs.
  pose proof (stepped_now _ _ _ _ _ Hs) as Hnow.
  pose proof (stepped_fired _ _ _ _ _ Hs) as Hf.
  assert (now w' = label_time l) as Hnow'.
  { by apply stepped_trace in Hs as (_ & _ & _ & _ & _ & _ & ?). }
  split; [|split].
  - intros r o' Ho'. destruct (timers w !! r) as [o|] eqn:Ho.
    + destruct (stepped_lookup _ _ _ _ _ _ _ Hs Ho)
        as (o'' & Ho'' & Hi & Hfn & Hst & _).
      rewrite Ho' in Ho''. injection Ho'' as <-.
      destruct (Hts r o Ho) as [Harm Hdue]. rewrite Hi, Hfn, Hst, Hf. split.
      * destruct (function o); [destruct Harm as [? ?]|destruct Harm as [? [r' ?]]];
          (split; [done|]); [|exists r']; apply elem_of_app; by left.
      * intros Hph.
        destruct (stepped_phase _ _ _ _ _ _ _ _ Hs Ho Ho')
          as [Hsame|[[? ?]|[(_ & _ & ?)|[_ Hcall]]]].
        -- rewrite Hsame in Hph. specialize (Hdue Hph). lia.
        -- destruct Hph; congruence.
        -- lia.
        -- specialize (Hdue (or_introl Hcall)). lia.
    + destruct (stepped_new_timer _ _ _ _ _ _ _ Hs Ho' Ho)
        as [[Hl ->]|(r1 & o1 & Hl & Ho1 & Hfn1 & ->)]; cbn; rewrite Hf, Hl;
        cbn [label_fired label_time].
      * split; [|intros [?|?]; discriminate]. split; [done|].
        apply elem_of_app. right. by left.
      * rewrite Ho1, Hfn1. split; [|intros [?|?]; discriminate]. split; [done|].
        exists r1. apply elem_of_app. right. by left.
  - intros t r a. rewrite Hf. intros [Hin|Hin]%elem_of_app.
    + destruct (Hfired t r a Hin) as (o & Ho & -> & Hdue).
      destruct (stepped_lookup _ _ _ _ _ _ _ Hs Ho)
        as (o' & Ho' & Hi & Hfn & Hst & _).
      exists o'. by rewrite Hi, Hfn, Hst.
    + destruct l as [t1 [| |v]|t1 r1|t1 r1]; cbn in Hin;
        try (by apply elem_of_nil in Hin);
        try (apply list_elem_of_singleton in Hin; discriminate).
      destruct (timers w !! r1) as [o|] eqn:Ho; [|by apply elem_of_nil in Hin].
      apply list_elem_of_singleton in Hin. injection Hin as -> -> ->.
      destruct (stepped_lookup _ _ _ _ _ _ _ Hs Ho)
        as (o' & Ho' & Hi & Hfn & Hst & _).
      exists o'. rewrite Hi, Hfn, Hst. split; [done|]. split; [done|].
      destruct (Hts r1 o Ho) as [_ Hdue]. cbn in Hnow.
      assert (phase o = Calling) as Hph by (inversion Hs; congruence).
      specialize (Hdue (or_introl Hph)). lia.
  - intros t a. rewrite Hf. intros [Hin|Hin]%elem_of_app; [by eapply Hraw|].
    destruct l as [t1 [| |v]|t1 r1|t1 r1]; cbn in Hin;
      try (by apply elem_of_nil in Hin);
      try (apply list_elem_of_singleton in Hin; injection Hin as -> ->; eauto).
    destruct (timers w !! r1); [|by apply elem_of_nil in Hin].
    apply list_elem_of_singleton in Hin. discriminate.
Qed.

Lemma timed_exec hass ls w w' :
  timed w → exec hass ls w = Some w' → timed w'.
Proof.
  revert w. induction ls as [|l ls IH]; intros w Hw.
  - by intros [= <-].
  - rewrite exec_cons. intros (res & w1 & Hs & Hex).
    eapply IH; [|done]. by eapply timed_stepped.
Qed.

Lemma timed_construct hass t0 area_name keypad button :
  timed (construct hass t0 area_name keypad button).
Proof.
  split; [|split].
  - intros r o Ho. by destruct r.
  - intros t r a Hin. by apply elem_of_nil in Hin.
  - intros t a Hin. by apply elem_of_nil in Hin.
Qed.

(** X3: in every run from construction, races and failing collaborators
    included, "long_pressed" is fired only by a timer thread, at least
    0.5 s after a "pressed" was fired; "super_long_pressed" only by a
    timer thread, at least 1 s after a "long_pressed" was fired; and the
    raw thread fires "pressed" and "released" only. *)
Theorem escalation_is_never_early hass t0 area_name keypad button ls w :
  exec hass ls (construct hass t0 area_name keypad button) = Some w →
  (∀ t th, (t, th, "long_pressed") ∈ fired w →
     ∃ r t1, th = TimerThread r ∧
             (t1, RawThread, "pressed") ∈ fired w ∧ t1 + 500 ≤ t) ∧
  (∀ t th, (t, th, "super_long_pressed") ∈ fired w →
     ∃ r r' ta, th = TimerThread r ∧
                (ta, TimerThread r', "long_pressed") ∈ fired w ∧ ta + 1000 ≤ t) ∧
  (∀ t a, (t, RawThread, a) ∈ fired w → a = "pressed" ∨ a = "released").
Proof.
  intros Hex.
  pose proof (timed_exec _ _ _ _ (timed_construct hass t0 area_name keypad button) Hex)
    as (Hts & Hfired & Hraw).
  split; [|split; [|done]].
  - intros t th Hin. destruct th as [|r].
    { destruct (Hraw t _ Hin); discriminate. }
    destruct (Hfired t r _ Hin) as (o & Ho & Ha & Hdue).
    destruct (Hts r o Ho) as [Harm _].
    destruct (function o); [|discriminate].
    destruct Harm as [Hi Hp]. exists r, (started o). split; [done|].
    split; [done|]. lia.
  - intros t th Hin. destruct th as [|r].
    { destruct (Hraw t _ Hin); discriminate. }
    destruct (Hfired t r _ Hin) as (o & Ho & Ha & Hdue).
    destruct (Hts r o Ho) as [Harm _].
    destruct (function o); [discriminate|].
    destruct Harm as [Hi [r' Hp]]. exists r, r', (started o). split; [done|].
    split; [done|]. lia.
Qed.

(** ** A release in any quiet state *)

(** X4: a raw event other than a PRESS, delivered while no timer thread
    waits for the lock and [self.timer] refers to whatever is pending,
    ends the escalation at whatever stage it is: the button is idle, at
    most the "released" of a RELEASE was fired, and nothing more is fired
    until the next raw event (no "long_pressed", no
    "super_long_pressed"), whatever the collaborators do. *)
Theorem release_ends_escalation hass w t event res w' :
  slot_owns_pending w → none_calling w → event ≠ PRESSED →
  step hass (Raw t event) w = Some (res, w') →
  idle w' ∧
  fired w' = fired w ++ label_fired (Raw t event) w ∧
  ∀ ls w'', timers_only ls → exec hass ls w' = Some w'' →
            fired w'' = fired w' ∧ idle w''.
Proof.
  intros Hown Hcall Hev Hs. apply step_stepped in Hs.
  assert (idle w') as Hidle.
  { assert (timer (self w') = None) as Hslot.
    { inversion Hs; subst.
      match goal with
      | H : button_callback _ _ _ = _ |- _ =>
          by apply button_callback_store in H as [(_ & ? & _)|(? & _)]
      end. }
    split; [done|]. apply elem_of_nil_inv. intros r Hr.
    pose proof (slot_owns_pending_stepped _ _ _ _ _ Hown (λ _, Hcall) Hs r Hr).
    congruence. }
  split; [done|]. split; [by eapply stepped_fired|].
  intros ls w'' Hls Hex.
  destruct (idle_quiescent _ _ _ _ Hidle Hls Hex) as (? & Htr & _).
  split; [|done]. unfold fired. by rewrite Htr.
Qed.
(** ** A press in any quiet state *)

Lemma dead_lookup old r o :
  Forall dead old → old !! r = Some o →
  (phase o = Waiting → finished o = true) ∧ phase o ≠ Calling.
Proof.
  intros Hold Ho. rewrite Forall_lookup in Hold.
  specialize (Hold r o Ho). unfold dead, outstanding in Hold.
  split; intros Hph; rewrite Hph in Hold; [by destruct (finished o)|done].
Qed.

Lemma chain_stage_later t1 n nw nw' slot chain new :
  nw ≤ nw' → chain_stage t1 n nw slot chain new →
  chain_stage t1 n nw' slot chain new.
Proof.
  intros Hle Hst. destruct Hst.
  - apply stage_armed.
  - apply stage_long_due. lia.
  - by apply stage_long.
  - apply stage_super_due; [done|lia].
  - by apply stage_done.
Qed.

Lemma escalating_stepped hass n f0 t1 w l res w' :
  never_raises hass → is_raw l = false →
  escalating n f0 t1 w → stepped hass w l res w' → escalating n f0 t1 w'.
Proof.
  intros Hok Hl (old & chain & new & Hlen & Hold & Hts & Hf & Hst) Hs.
  apply stepped_ok_inv in Hs as (_ & Hnow & Hs); [|done].
  destruct l as [t event|t r|t r]; [discriminate|..]; cbn in Hnow.
  - destruct Hs as (o & Ho & Hph & Hcase).
    rewrite Hts in Ho. apply lookup_app_Some in Ho as [Ho|[Hge Ho]].
    + destruct (dead_lookup old r o Hold Ho) as [Hfin _]. specialize (Hfin Hph).
      destruct Hcase as [[_ ->]|(Hfin' & _)]; [|congruence].
      exists (alter (with_phase Skipped) r old), chain, new.
      rewrite length_alter. split; [done|]. split.
      { apply Forall_alter; [done|]. by intros o' _ Hd. }
      split.
      { unfold set_phase. cbn. rewrite Hts. apply alter_app_l.
        by eapply lookup_lt_Some. }
      split; [done|]. cbn. by eapply chain_stage_later.
    + assert (r = (length old + (r - length old))%nat) as Hr by lia.
      destruct Hst as [|Hd|ta Ha|ta Ha Hd|ta tb Ha Hb Hslot];
        destruct (r - length old)%nat as [|[|k]]; simplify_eq/=.
      * destruct Hcase as [[? _]|(_ & Hdue & ->)]; [done|].
        exists old, [mkTimer 500 long_press t1 false Calling],
          [(t1, RawThread, "pressed")].
        split; [done|]. split; [done|]. split.
        { unfold set_phase. cbn. by rewrite Hts, alter_app_r. }
        split; [done|]. apply stage_long_due. cbn. lia.
      * destruct Hcase as [[? _]|(_ & Hdue & ->)]; [done|].
        exists old, [mkTimer 500 long_press t1 true Ran;
                     mkTimer 1000 super_long_press ta false Calling],
          [(t1, RawThread, "pressed");
           (ta, TimerThread (length old), "long_pressed")].
        split; [done|]. split; [done|]. split.
        { unfold set_phase. cbn. by rewrite Hts, alter_app_r. }
        split; [done|]. apply stage_super_due; [done|]. cbn. lia.
  - destruct Hs as (o & Ho & Hph & ->).
    rewrite Hts in Ho. apply lookup_app_Some in Ho as [Ho|[Hge Ho]].
    + by destruct (dead_lookup old r o Hold Ho) as [_ ?].
    + assert (r = (length old + (r - length old))%nat) as Hr by lia.
      destruct Hst as [|Hd|ta Ha|ta Ha Hd|ta tb Ha Hb Hslot];
        destruct (r - length old)%nat as [|[|k]]; simplify_eq/=.
      * exists old, [mkTimer 500 long_press t1 true Ran;
                     mkTimer 1000 super_long_press t false Waiting],
          [(t1, RawThread, "pressed");
           (t, TimerThread (length old), "long_pressed")].
        split; [done|]. split; [done|]. split.
        { rewrite after_run_timers, Hts. cbn. rewrite <- app_assoc.
          by rewrite !alter_app_r. }
        split.
        { rewrite after_run_fired, Hf, <- app_assoc. cbn.
          by rewrite Nat.add_0_r. }
        apply stage_long. lia.
      * exists old, [mkTimer 500 long_press t1 true Ran;
                     mkTimer 1000 super_long_press ta true Ran],
          [(t1, RawThread, "pressed");
           (ta, TimerThread (length old), "long_pressed");
           (t, TimerThread (S (length old)), "super_long_pressed")].
        split; [done|]. split; [done|]. split.
        { rewrite after_run_timers, Hts. cbn. rewrite app_nil_r.
          by rewrite !alter_app_r. }
        split.
        { rewrite after_run_fired, Hf, <- app_assoc. cbn.
          by rewrite Nat.add_1_r. }
        apply stage_done; [done|lia|]. by rewrite after_run_slot.
Qed.

Lemma escalating_exec hass n f0 t1 ls w w' :
  never_raises hass → timers_only ls →
  escalating n f0 t1 w → exec hass ls w = Some w' → escalating n f0 t1 w'.
Proof.
  intros Hok. revert w. induction ls as [|l ls IH]; intros w Hls Hesc.
  - by intros [= <-].
  - rewrite exec_cons. intros (res & w1 & Hs & Hex).
    apply Forall_cons in Hls as [Hl Hls].
    eapply IH; [done| |done]. by eapply escalating_stepped.
Qed.

(** In a quiet world a raw event leaves no old timer to run. *)
Lemma cancelled_dead w :
  slot_owns_pending w → none_calling w → Forall dead (timers (cancelled w)).
Proof.
  intros Hown Hcall. apply Forall_lookup. intros r o' Ho'.
  apply cancelled_lookup in Ho' as (o & Ho & [[-> Hne]|[-> Heq]]).
  - unfold dead. destruct (outstanding o) eqn:Hout; [|done].
    exfalso. apply Hne, Hown, elem_of_pending. eauto.
  - unfold dead, outstanding. cbn.
    destruct (phase o) eqn:Hph; try done. by destruct (Hcall r o Ho).
Qed.

(** X5: a PRESS delivered in any quiet state (no timer thread waiting for
    the lock, [self.timer] referring to whatever is pending: idle, or in
    the middle of an earlier escalation) restarts the chain from scratch:
    while no raw event follows, the events fired after it are "pressed",
    then "long_pressed" at least 0.5 s later, then "super_long_pressed" at
    least 1 s after that, fired by the two timers it creates, the
    cancelled older timers fire nothing, and when no timer is pending any
    more all three were fired and the button is idle. *)
Theorem press_restarts_escalation hass w t ls w' :
  never_raises hass → slot_owns_pending w → none_calling w →
  timers_only ls →
  exec hass (Raw t PRESSED :: ls) w = Some w' →
  let n := length (timers w) in
  ∃ ta tb k,
    t + 500 ≤ ta ∧ ta + 1000 ≤ tb ∧ (1 ≤ k)%nat ∧
    fired w' = fired w ++ take k [(t, RawThread, "pressed");
                                  (ta, TimerThread n, "long_pressed");
                                  (tb, TimerThread (S n), "super_long_pressed")] ∧
    (pending w' = [] → k = 3%nat ∧ idle w').
Proof.
  intros Hok Hown Hcall Hls. rewrite exec_cons.
  intros (res & w1 & Hs & Hex) n.
  apply stepped_ok_inv in Hs as (_ & Hnow & ->); [|done]. cbn in Hnow.
  assert (escalating n (fired w) t (after_raw hass t PRESSED w)) as Hesc.
  { exists (timers (cancelled w)), [mkTimer 500 long_press t false Waiting],
      [(t, RawThread, "pressed")].
    split. { rewrite cancelled_timers. destruct (timer (self w)); by rewrite ?length_alter. }
    split; [by apply cancelled_dead|].
    split; [by rewrite after_raw_timers|].
    split; [by rewrite after_raw_fired|]. apply stage_armed. }
  apply (escalating_exec hass n _ t ls _ w' Hok Hls) in Hesc; [|done].
  destruct Hesc as (old & chain & new & Hlen & Hold & Hts & Hf & Hst).
  assert (∀ k o, chain !! k = Some o → outstanding o = true → pending w' ≠ [])
    as Hpend.
  { intros k o Hk Hout Hnil. rewrite pending_nil in Hnil.
    rewrite (Hnil (length old + k)%nat o) in Hout; [done|].
    rewrite Hts, lookup_app_r by lia.
    by replace (length old + k - length old)%nat with k by lia. }
  destruct Hst as [|Hd|ta Ha|ta Ha Hd|ta tb Ha Hb Hslot].
  - exists (t + 500), (t + 1500), 1%nat.
    split; [lia|]. split; [lia|]. split; [lia|]. split; [done|].
    intros Hnil. by destruct (Hpend 0%nat _ eq_refl eq_refl).
  - exists (t + 500), (t + 1500), 1%nat.
    split; [lia|]. split; [lia|]. split; [lia|]. split; [done|].
    intros Hnil. by destruct (Hpend 0%nat _ eq_refl eq_refl).
  - exists ta, (ta + 1000), 2%nat.
    split; [lia|]. split; [lia|]. split; [lia|]. split; [done|].
    intros Hnil. by destruct (Hpend 1%nat _ eq_refl eq_refl).
  - exists ta, (ta + 1000), 2%nat.
    split; [lia|]. split; [lia|]. split; [lia|]. split; [done|].
    intros Hnil. by destruct (Hpend 1%nat _ eq_refl eq_refl).
  - exists ta, tb, 3%nat.
    split; [lia|]. split; [lia|]. split; [lia|]. split; [done|].
    intros Hnil. split; [done|]. by split.
Qed.

(** ** The constructor *)

Lemma append_nil_l (s : string) : "" +:+ s = s.
Proof. reflexivity. Qed.

Lemma append_cons_l c (s t : string) : String c s +:+ t = String c (s +:+ t).
Proof. reflexivity. Qed.

Lemma prefix_spec (s1 s2 : string) :
  String.prefix s1 s2 = true ↔ ∃ post, s2 = s1 +:+ post.
Proof.
  revert s2. induction s1 as [|c s1 IH]; intros s2.
  - destruct s2; cbn; (split; [intros _; by eexists|done]).
  - destruct s2 as [|c2 s2]; cbn.
    + split; [done|]. intros [post Hp]. by rewrite append_cons_l in Hp.
    + destruct (Ascii.ascii_dec c c2) as [->|Hne].
      * rewrite IH. split; intros [post Hp]; exists post;
          rewrite append_cons_l in *; congruence.
      * split; [done|]. intros [post Hp]. rewrite append_cons_l in Hp.
        congruence.
Qed.

Lemma str_contains_spec needle hay :
  str_contains needle hay = true ↔ substring_of needle hay.
Proof.
  unfold substring_of. induction hay as [|c hay IH]; cbn [str_contains].
  - rewrite orb_false_r, prefix_spec. split.
    + intros [post Hp]. by exists "", post.
    + intros (pre & post & Hp). destruct pre as [|c pre].
      * by exists post.
      * by rewrite append_cons_l in Hp.
  - rewrite orb_true_iff, prefix_spec, IH. split.
    + intros [[post Hp]|(pre & post & Hp)].
      * by exists "", post.
      * exists (String c pre), post. by rewrite append_cons_l, Hp.
    + intros (pre & post & Hp). destruct pre as [|c' pre].
      * left. by exists post.
      * right. rewrite append_cons_l in Hp. injection Hp as -> Hp.
        by exists pre, post.
Qed.

(** X6: the constructor gives a button release capability exactly when
    its pylutron button type is set and has "RaiseLower" as a substring;
    a button without a type has none. *)
Theorem release_capability_iff_raise_lower hass area_name keypad button :
  _has_release_event (__init__ hass area_name keypad button) = true ↔
  ∃ ty, button_type button = Some ty ∧ substring_of "RaiseLower" ty.
Proof.
  cbn [__init__ _has_release_event]. destruct (button_type button) as [ty|].
  - rewrite str_contains_spec. split; [eauto|]. by intros (ty' & [= <-] & H).
  - split; [done|]. by intros (ty & [=] & _).
Qed.

(** X7: the ids are the slugs of "keypad: button" and of
    "area keypad: button"; the number of a button enters them only for a
    button called "Unknown Button", behind a blank, so two unknown buttons
    of one keypad are given the same name only if their numbers are the
    same, while a named button's ids do not depend on its number. *)
Theorem button_ids_from_label hass area_name keypad button :
  _id (__init__ hass area_name keypad button)
    = slugify hass (button_label keypad button) ∧
  _full_id (__init__ hass area_name keypad button)
    = slugify hass (area_name +:+ " " +:+ button_label keypad button) ∧
  (name button ≠ "Unknown Button" →
   button_label keypad button = keypad_name keypad +:+ ": " +:+ name button) ∧
  (∀ button', name button = "Unknown Button" → name button' = "Unknown Button" →
     button_label keypad button = button_label keypad button' →
     number button = number button').
Proof.
  split; [done|]. split; [done|]. split.
  - intros Hne. unfold button_label. by rewrite bool_decide_eq_false_2.
  - intros button' Hn Hn'. unfold button_label.
    rewrite !bool_decide_eq_true_2 by done. rewrite Hn, Hn'.
    intros H. repeat apply String.app_inj in H. by apply pretty_Z_inj in H.
Qed.

(** ** [setup] *)

Lemma setup_bind_eq {A B} (m : Setup A) (k : A → Setup B) (s : SetupState) :
  (m ≫= k) s =
  match m s with
  | (Ok a, s1) => k a s1
  | (Raise e, s1) => (Raise e, s1)
  end.
Proof. reflexivity. Qed.

Lemma subscript_inv config k s res s' :
  subscript config k s = (res, s') →
  s' = s ∧
  match res with
  | Ok v => ∃ d, config = Some d ∧ dict_get k d = Some v
  | Raise _ => config = None ∨ ∃ d, config = Some d ∧ dict_get k d = None
  end.
Proof.
  unfold subscript. destruct config as [d|].
  - destruct (dict_get k d) as [v|] eqn:Hk; intros [= <- <-]; eauto 10.
  - intros [= <- <-]. eauto.
Qed.

(** [setup], case by case. *)
Lemma setup_cases hass net t0 base_config s res s' :
  setup hass net t0 base_config s = (res, s') →
  (∃ x, res = Raise x ∧
        (∃ c, data s' = with_controller c empty_data) ∧
        (∃ new, setup_calls s' = setup_calls s ++ new ∧
                ∀ p d, load_platform p d ∉ new) ∧
        (config_get DOMAIN base_config = None →
         setup_calls s' = setup_calls s ∧ data s' = empty_data)) ∨
  (∃ d host user password g ars,
     res = Ok true ∧
     config_get DOMAIN base_config = Some d ∧
     dict_get CONF_HOST d = Some host ∧
     dict_get CONF_USERNAME d = Some user ∧
     dict_get CONF_PASSWORD d = Some password ∧
     xml_db net host user password = inr (g, ars) ∧
     connect_outcome net host user password = None ∧
     data s' = setup_data hass t0 host user password g ars ∧
     setup_calls s' = setup_calls s ++ setup_calls_ok host user password).
Proof.
  assert (∀ new : list SetupCall,
            Forall (λ c, ∀ p d, c ≠ load_platform p d) new →
            ∀ p d, load_platform p d ∉ new) as Hno.
  { intros new Hnew p d Hin. rewrite Forall_forall in Hnew.
    by apply (Hnew _ Hin p d). }
  unfold setup, subscript, setup_raise, setup_call, set_data, PLATFORMS.
  unfold mbind, Setup_bind, mret, Setup_ret. cbn.
  destruct (config_get DOMAIN base_config) as [d|] eqn:Hcfg; cbn.
  2:{ intros [= <- <-]. left. eexists. split; [done|]. cbn.
      split; [by exists None|]. split; [|done].
      exists []. rewrite app_nil_r. split; [done|]. apply Hno. constructor. }
  destruct (dict_get CONF_HOST d) as [host|] eqn:Hhost; cbn.
  2:{ intros [= <- <-]. left. eexists. split; [done|]. cbn.
      split; [by exists None|]. split; [|done].
      exists []. rewrite app_nil_r. split; [done|]. apply Hno. constructor. }
  destruct (dict_get CONF_USERNAME d) as [user|] eqn:Huser; cbn.
  2:{ intros [= <- <-]. left. eexists. split; [done|]. cbn.
      split; [by exists None|]. split; [|done].
      exists []. rewrite app_nil_r. split; [done|]. apply Hno. constructor. }
  destruct (dict_get CONF_PASSWORD d) as [password|] eqn:Hpw; cbn.
  2:{ intros [= <- <-]. left. eexists. split; [done|]. cbn.
      split; [by exists None|]. split; [|done].
      exists []. rewrite app_nil_r. split; [done|]. apply Hno. constructor. }
  destruct (xml_db net host user password) as [x|[g ars]] eqn:Hxml; cbn.
  { intros [= <- <-]. left. eexists. split; [done|]. cbn.
    split; [by eexists|]. split; [|done].
    eexists. rewrite <- !app_assoc. split; [done|]. apply Hno.
    repeat constructor; discriminate. }
  destruct (connect_outcome net host user password) as [x|] eqn:Hconn; cbn.
  { intros [= <- <-]. left. eexists. split; [done|]. cbn.
    split; [by eexists|]. split; [|done].
    eexists. rewrite <- !app_assoc. split; [done|]. apply Hno.
    repeat constructor; discriminate. }
  intros [= <- <-]. right. exists d, host, user, password, g, ars.
  cbn. rewrite <- !app_assoc. done.
Qed.

(** ** The loops of [setup] *)

(** What the loop over the outputs of an area adds. *)
Lemma fold_sort_output area_name outs d :
  let d' := fold_left (sort_output area_name) outs d in
  cover_devices d' =
    cover_devices d ++ filter (λ p, is_cover p.2) ((λ o, (area_name, o)) <$> outs) ∧
  light_devices d' =
    light_devices d ++ filter (λ p, is_light p.2) ((λ o, (area_name, o)) <$> outs) ∧
  switch_devices d' =
    switch_devices d ++ filter (λ p, is_switch p.2) ((λ o, (area_name, o)) <$> outs) ∧
  lutron_buttons d' = lutron_buttons d ∧
  scene_devices d' = scene_devices d ∧
  binary_sensor_devices d' = binary_sensor_devices d ∧
  lutron_controller d' = lutron_controller d.
Proof.
  revert d. induction outs as [|o outs IH]; intros d; cbn [fold_left fmap list_fmap].
  - cbn. by rewrite !app_nil_r.
  - destruct (IH (sort_output area_name d o)) as (-> & -> & -> & -> & -> & -> & ->).
    unfold sort_output, is_light, is_switch, is_cover.
    rewrite !filter_cons. cbn [snd].
    destruct (bool_decide (o_type o = "SYSTEM_SHADE")); cbn;
      [|destruct (o_is_dimmable o); cbn]; by rewrite <- ?app_assoc.
Qed.

(** What the loop over the buttons of a keypad adds. *)
Lemma fold_add_button hass t0 area keypad bs d :
  let d' := fold_left (add_button hass t0 (a_name area) keypad) bs d in
  lutron_buttons d' =
    lutron_buttons d ++ (button_world hass t0 <$> ((λ b, (area, keypad, b)) <$> bs)) ∧
  scene_devices d' =
    scene_devices d ++ omap scene_entry ((λ b, (area, keypad, b)) <$> bs) ∧
  cover_devices d' = cover_devices d ∧
  light_devices d' = light_devices d ∧
  switch_devices d' = switch_devices d ∧
  binary_sensor_devices d' = binary_sensor_devices d ∧
  lutron_controller d' = lutron_controller d.
Proof.
  revert d. induction bs as [|b bs IH]; intros d;
    cbn [fold_left fmap list_fmap omap list_omap].
  - cbn. by rewrite !app_nil_r.
  - destruct (IH (add_button hass t0 (a_name area) keypad d b))
      as (-> & -> & -> & -> & -> & -> & ->).
    unfold add_button, scene_entry at 2. cbn [button_world].
    destruct (is_scene_button b); cbn; by rewrite <- ?app_assoc.
Qed.

(** What the loop over the keypads of an area adds. *)
Lemma fold_add_keypad hass t0 area kps d :
  let d' := fold_left
              (λ d keypad,
                 fold_left (add_button hass t0 (a_name area) keypad)
                   (kp_buttons keypad) d) kps d in
  lutron_buttons d' =
    lutron_buttons d
    ++ (button_world hass t0
          <$> (kps ≫= λ keypad, (λ b, (area, keypad, b)) <$> kp_buttons keypad)) ∧
  scene_devices d' =
    scene_devices d
    ++ omap scene_entry
         (kps ≫= λ keypad, (λ b, (area, keypad, b)) <$> kp_buttons keypad) ∧
  cover_devices d' = cover_devices d ∧
  light_devices d' = light_devices d ∧
  switch_devices d' = switch_devices d ∧
  binary_sensor_devices d' = binary_sensor_devices d ∧
  lutron_controller d' = lutron_controller d.
Proof.
  revert d. induction kps as [|k kps IH]; intros d; cbn [fold_left].
  - cbn. by rewrite !app_nil_r.
  - destruct (IH (fold_left (add_button hass t0 (a_name area) k) (kp_buttons k) d))
      as (-> & -> & -> & -> & -> & -> & ->).
    destruct (fold_add_button hass t0 area k (kp_buttons k) d)
      as (-> & -> & -> & -> & -> & -> & ->).
    rewrite bind_cons, fmap_app, omap_app, <- !app_assoc. done.
Qed.

(** What the loop over the areas adds. *)
Lemma fold_add_area hass t0 ars d :
  let d' := fold_left (add_area hass t0) ars d in
  cover_devices d' =
    cover_devices d ++ filter (λ p, is_cover p.2) (all_outputs ars) ∧
  light_devices d' =
    light_devices d ++ filter (λ p, is_light p.2) (all_outputs ars) ∧
  switch_devices d' =
    switch_devices d ++ filter (λ p, is_switch p.2) (all_outputs ars) ∧
  lutron_buttons d' =
    lutron_buttons d ++ (button_world hass t0 <$> all_buttons ars) ∧
  scene_devices d' = scene_devices d ++ omap scene_entry (all_buttons ars) ∧
  binary_sensor_devices d' = binary_sensor_devices d ++ omap sensor_entry ars ∧
  lutron_controller d' = lutron_controller d.
Proof.
  revert d. induction ars as [|area ars IH]; intros d; cbn [fold_left].
  - cbn. by rewrite !app_nil_r.
  - destruct (IH (add_area hass t0 d area)) as (-> & -> & -> & -> & -> & -> & ->).
    unfold add_area.
    set (d1 := fold_left (sort_output (a_name area)) (a_outputs area) d).
    destruct (fold_sort_output (a_name area) (a_outputs area) d)
      as (Hc & Hl & Hs & Hb & Hsc & Hbs & Hct). fold d1 in Hc, Hl, Hs, Hb, Hsc, Hbs, Hct.
    destruct (fold_add_keypad hass t0 area (a_keypads area) d1)
      as (Hb2 & Hsc2 & Hc2 & Hl2 & Hs2 & Hbs2 & Hct2).
    cbv zeta in Hb2, Hsc2, Hc2, Hl2, Hs2, Hbs2, Hct2.
    unfold all_outputs, all_buttons. rewrite !bind_cons.
    rewrite !filter_app, fmap_app, omap_app. cbn [omap list_omap].
    unfold sensor_entry at 2.
    destruct (a_occupancy_group area) as [g|]; cbn;
      rewrite ?Hb2, ?Hsc2, ?Hc2, ?Hl2, ?Hs2, ?Hbs2, ?Hct2,
        ?Hc, ?Hl, ?Hs, ?Hb, ?Hsc, ?Hbs, ?Hct, <- ?app_assoc; done.
Qed.

(** ** What a successful [setup] leaves in [hass.data] *)

Lemma setup_ok_data hass net t0 base_config s b s' :
  setup hass net t0 base_config s = (Ok b, s') →
  ∃ c, lutron_controller (data s') = Some c ∧
       cover_devices (data s') = filter (λ p, is_cover p.2) (all_outputs (areas c)) ∧
       light_devices (data s') = filter (λ p, is_light p.2) (all_outputs (areas c)) ∧
       switch_devices (data s') = filter (λ p, is_switch p.2) (all_outputs (areas c)) ∧
       lutron_buttons (data s') = (button_world hass t0 <$> all_buttons (areas c)) ∧
       scene_devices (data s') = omap scene_entry (all_buttons (areas c)) ∧
       binary_sensor_devices (data s') = omap sensor_entry (areas c).
Proof.
  intros Hs. apply setup_cases in Hs as [(x & [=] & _)|Hs].
  destruct Hs as (d & host & user & password & g & ars & _ & _ & _ & _ & _ & _ & _
                  & Hdata & _).
  rewrite Hdata. unfold setup_data.
  destruct (fold_add_area hass t0 ars
              (with_controller (Some (mkLutron host user password ars g)) empty_data))
    as (-> & -> & -> & -> & -> & -> & ->).
  eexists. split; [reflexivity|]. done.
Qed.

Lemma output_kinds_partition (l : list (string * Output)) :
  filter (λ p, is_cover p.2) l ++ filter (λ p, is_light p.2) l
    ++ filter (λ p, is_switch p.2) l ≡ₚ l.
Proof.
  induction l as [|p l IH]; [done|].
  rewrite !filter_cons.
  assert (is_light p.2 = negb (is_cover p.2) && o_is_dimmable p.2) as -> by done.
  assert (is_switch p.2 = negb (is_cover p.2) && negb (o_is_dimmable p.2))
    as -> by done.
  destruct (is_cover p.2); cbn.
  - repeat case_decide; try done. cbn. by rewrite IH.
  - destruct (o_is_dimmable p.2); cbn; repeat case_decide; try done.
    + etrans; [symmetry; apply Permutation_middle|]. apply perm_skip, IH.
    + rewrite app_assoc.
      etrans; [symmetry; apply Permutation_middle|]. apply perm_skip.
      rewrite <- app_assoc. apply IH.
Qed.

(** X8: a successful [setup] puts every output of every area into exactly
    one of the lists "cover", "light" and "switch", with the name of its
    area and in the order of discovery: shades (type SYSTEM_SHADE) are
    covers whether dimmable or not, the other dimmable outputs are lights,
    the rest are switches; no output is lost or listed twice. *)
Theorem setup_sorts_every_output_once hass net t0 base_config s b s' :
  setup hass net t0 base_config s = (Ok b, s') →
  ∃ c, lutron_controller (data s') = Some c ∧
       cover_devices (data s')
         = filter (λ p, o_type p.2 = "SYSTEM_SHADE") (all_outputs (areas c)) ∧
       light_devices (data s')
         = filter (λ p, o_type p.2 ≠ "SYSTEM_SHADE" ∧ o_is_dimmable p.2 = true)
             (all_outputs (areas c)) ∧
       switch_devices (data s')
         = filter (λ p, o_type p.2 ≠ "SYSTEM_SHADE" ∧ o_is_dimmable p.2 = false)
             (all_outputs (areas c)) ∧
       cover_devices (data s') ++ light_devices (data s') ++ switch_devices (data s')
         ≡ₚ all_outputs (areas c).
Proof.
  intros Hs.
  apply setup_ok_data in Hs as (c & Hc & Hcov & Hli & Hsw & _).
  exists c. split; [done|]. rewrite Hcov, Hli, Hsw.
  split; [|split; [|split]].
  - apply list_filter_iff. intros p. unfold is_cover.
    by rewrite bool_decide_spec.
  - apply list_filter_iff. intros p. unfold is_light, is_cover.
    rewrite andb_True, negb_True, bool_decide_spec, Is_true_true. done.
  - apply list_filter_iff. intros p. unfold is_switch, is_cover.
    rewrite andb_True, !negb_True, bool_decide_spec, Is_true_false. done.
  - apply output_kinds_partition.
Qed.

(** X9: a successful [setup] creates one [LutronButton] for every button
    of every keypad of every area, named or not, in the order of
    discovery; each is constructed with the name of its area and its
    keypad, is subscribed, and starts idle with no timer. *)
Theorem setup_creates_one_object_per_button hass net t0 base_config s b s' :
  setup hass net t0 base_config s = (Ok b, s') →
  ∃ c, lutron_controller (data s') = Some c ∧
       lutron_buttons (data s')
         = ((λ abk, construct hass t0 (a_name abk.1.1) (kp_keypad abk.1.2) abk.2)
              <$> all_buttons (areas c)) ∧
       length (lutron_buttons (data s')) = length (all_buttons (areas c)) ∧
       Forall (λ w, idle w ∧ timers w = [] ∧
                    trace w = [mkEntry t0 RawThread button_subscribe])
         (lutron_buttons (data s')).
Proof.
  intros Hs.
  apply setup_ok_data in Hs as (c & Hc & _ & _ & _ & Hb & _).
  exists c. split; [done|]. rewrite Hb.
  split; [|split].
  - apply list_fmap_ext. by intros i [[area keypad] button] _.
  - by rewrite length_fmap.
  - apply Forall_fmap, Forall_forall. intros [[area keypad] button] _. cbn.
    split; [|done]. by split.
Qed.

Lemma button_led_spec keypad button :
  match button_led keypad button with
  | Some led => led ∈ kp_leds keypad ∧ led_number led = number button
  | None => ∀ led, led ∈ kp_leds keypad → led_number led ≠ number button
  end.
Proof.
  unfold button_led.
  destruct (find _ (kp_leds keypad)) as [led|] eqn:Hfind.
  - apply find_some in Hfind as [Hin Heq]. split.
    + by apply list_elem_of_In.
    + by apply bool_decide_eq_true_1 in Heq.
  - intros led Hin Heq. apply list_elem_of_In in Hin.
    pose proof (find_none _ _ Hfind led Hin) as Hf. cbn in Hf.
    by apply bool_decide_eq_false_1 in Hf.
Qed.

Lemma elem_of_all_buttons ars area keypad button :
  (area, keypad, button) ∈ all_buttons ars ↔
  area ∈ ars ∧ keypad ∈ a_keypads area ∧ button ∈ kp_buttons keypad.
Proof.
  unfold all_buttons. rewrite list_elem_of_bind. split.
  - intros (area' & Hin & Har).
    apply list_elem_of_bind in Hin as (keypad' & Hin & Hkp).
    apply list_elem_of_fmap in Hin as (button' & [= -> -> ->] & Hb). done.
  - intros (Har & Hkp & Hb). exists area. split; [|done].
    apply list_elem_of_bind. exists keypad. split; [|done].
    apply list_elem_of_fmap. eauto.
Qed.

Lemma is_scene_button_spec button :
  is_scene_button button = true ↔
  name button ≠ "Unknown Button" ∧
  ∃ ty, button_type button = Some ty ∧ ty ∈ scene_types.
Proof.
  unfold is_scene_button. rewrite andb_true_iff, bool_decide_eq_true.
  destruct (button_type button) as [ty|].
  - rewrite bool_decide_eq_true. split.
    + intros [? ?]. eauto.
    + by intros [? (ty' & [= <-] & ?)].
  - split; [by intros [_ ?]|]. by intros [_ (ty & [=] & _)].
Qed.

Lemma scene_devices_elem ars an kn button led :
  (an, kn, button, led) ∈ omap scene_entry (all_buttons ars) ↔
  ∃ area keypad,
    area ∈ ars ∧ keypad ∈ a_keypads area ∧ button ∈ kp_buttons keypad ∧
    an = a_name area ∧ kn = keypad_name (kp_keypad keypad) ∧
    is_scene_button button = true ∧ led = button_led keypad button.
Proof.
  rewrite list_elem_of_omap. split.
  - intros ([[area keypad] button'] & Hin & Hentry).
    apply elem_of_all_buttons in Hin as (Har & Hkp & Hb).
    unfold scene_entry in Hentry.
    destruct (is_scene_button button') eqn:Hscene; [|discriminate].
    injection Hentry as <- <- <- <-. exists area, keypad. done.
  - intros (area & keypad & Har & Hkp & Hb & -> & -> & Hscene & ->).
    exists (area, keypad, button). split; [by apply elem_of_all_buttons|].
    unfold scene_entry. by rewrite Hscene.
Qed.

(** X10: after a successful [setup] the list "scene" holds exactly the
    buttons that have a name other than "Unknown Button" and one of the
    four scene types, each with the names of its area and keypad; the LED
    listed with a button is an LED of the same keypad with the button's
    number, and [None] is listed only when the keypad has no such LED. *)
Theorem setup_scenes hass net t0 base_config s b s' :
  setup hass net t0 base_config s = (Ok b, s') →
  ∃ c, lutron_controller (data s') = Some c ∧
       scene_devices (data s') = omap scene_entry (all_buttons (areas c)) ∧
       ∀ an kn button led,
         (an, kn, button, led) ∈ scene_devices (data s') ↔
         ∃ area keypad,
           area ∈ areas c ∧ keypad ∈ a_keypads area ∧
           button ∈ kp_buttons keypad ∧
           an = a_name area ∧ kn = keypad_name (kp_keypad keypad) ∧
           name button ≠ "Unknown Button" ∧
           (∃ ty, button_type button = Some ty ∧ ty ∈ scene_types) ∧
           led = button_led keypad button ∧
           match led with
           | Some l => l ∈ kp_leds keypad ∧ led_number l = number button
           | None => ∀ l, l ∈ kp_leds keypad → led_number l ≠ number button
           end.
Proof.
  intros Hs.
  apply setup_ok_data in Hs as (c & Hc & _ & _ & _ & _ & Hsc & _).
  exists c. split; [done|]. split; [done|].
  intros an kn button led. rewrite Hsc, scene_devices_elem. split.
  - intros (area & keypad & Har & Hkp & Hb & -> & -> & Hscene & ->).
    apply is_scene_button_spec in Hscene as [Hname Hty].
    exists area, keypad. repeat (split; [done|]). apply button_led_spec.
  - intros (area & keypad & Har & Hkp & Hb & -> & -> & Hname & Hty & -> & _).
    exists area, keypad. repeat (split; [done|]).
    split; [|done]. by apply is_scene_button_spec.
Qed.

(** X11: of the buttons [setup] lists as scenes, the constructor gives
    release capability to those of the types SingleSceneRaiseLower and
    MasterRaiseLower and to no other (not to SingleAction and Toggle
    buttons). *)
Theorem scene_buttons_with_release hass net t0 base_config s b s' :
  setup hass net t0 base_config s = (Ok b, s') →
  ∀ an kn button led area_name keypad,
    (an, kn, button, led) ∈ scene_devices (data s') →
    (_has_release_event (__init__ hass area_name keypad button) = true ↔
     button_type button = Some "SingleSceneRaiseLower" ∨
     button_type button = Some "MasterRaiseLower").
Proof.
  intros Hs an kn button led area_name keypad Hin.
  apply setup_ok_data in Hs as (c & _ & _ & _ & _ & _ & Hsc & _).
  rewrite Hsc in Hin.
  apply scene_devices_elem in Hin as (_ & _ & _ & _ & _ & _ & _ & Hscene & _).
  apply is_scene_button_spec in Hscene as (_ & ty & Hty & Hin).
  cbn [__init__ _has_release_event]. rewrite Hty.
  unfold scene_types in Hin.
  repeat (apply elem_of_cons in Hin as [->|Hin]);
    [| | | |by apply elem_of_nil in Hin]; cbn; split; intros H;
    try done; try (by eauto); by destruct H as [[=]|[=]].
Qed.

(** X12: after a successful [setup] the list "binary_sensor" holds, in
    the order of the areas, the occupancy group of every area that has
    one, with the name of the area, and nothing else. *)
Theorem setup_occupancy_sensors hass net t0 base_config s b s' :
  setup hass net t0 base_config s = (Ok b, s') →
  ∃ c, lutron_controller (data s') = Some c ∧
       binary_sensor_devices (data s') = omap sensor_entry (areas c) ∧
       ∀ an group,
         (an, group) ∈ binary_sensor_devices (data s') ↔
         ∃ area, area ∈ areas c ∧ an = a_name area ∧
                 a_occupancy_group area = Some group.
Proof.
  intros Hs.
  apply setup_ok_data in Hs as (c & Hc & _ & _ & _ & _ & _ & Hbs).
  exists c. split; [done|]. split; [done|].
  intros an group. rewrite Hbs, list_elem_of_omap. unfold sensor_entry. split.
  - intros (area & Hin & Hentry). exists area.
    destruct (a_occupancy_group area); by simplify_eq/=.
  - intros (area & Hin & -> & Hg). exists area. by rewrite Hg.
Qed.

(** ** When [setup] fails, and when it does not *)

(** X13: when [setup] raises (no configuration for the domain, a key
    missing, the XML database or the connection failing), it has created
    no button object, listed no device and loaded no platform; and without
    a configuration for the domain it raises before it calls anything. *)
Theorem failed_setup_creates_nothing hass net t0 base_config s :
  (∀ x s', setup hass net t0 base_config s = (Raise x, s') →
     lutron_buttons (data s') = [] ∧
     light_devices (data s') = [] ∧ cover_devices (data s') = [] ∧
     switch_devices (data s') = [] ∧ scene_devices (data s') = [] ∧
     binary_sensor_devices (data s') = [] ∧
     ∃ new, setup_calls s' = setup_calls s ++ new ∧
            ∀ p d, load_platform p d ∉ new) ∧
  (config_get DOMAIN base_config = None →
   ∃ x s', setup hass net t0 base_config s = (Raise x, s') ∧
           setup_calls s' = setup_calls s ∧ data s' = empty_data).
Proof.
  split.
  - intros x s' Hs.
    apply setup_cases in Hs as [(x' & _ & [c ->] & Hnew & _)|Hs].
    + done.
    + by destruct Hs as (? & ? & ? & ? & ? & ? & [=] & _).
  - intros Hnone.
    destruct (setup hass net t0 base_config s) as [res s'] eqn:Hs.
    apply setup_cases in Hs as [(x & -> & _ & _ & Habs)|Hs].
    + exists x, s'. split; [done|]. by apply Habs.
    + destruct Hs as (? & ? & ? & ? & ? & ? & _ & Hcfg & _). congruence.
Qed.

(** The preconditions suffice for [setup] to return. *)
Lemma setup_runs hass net t0 base_config s d host user password g ars :
  config_get DOMAIN base_config = Some d →
  dict_get CONF_HOST d = Some host →
  dict_get CONF_USERNAME d = Some user →
  dict_get CONF_PASSWORD d = Some password →
  xml_db net host user password = inr (g, ars) →
  connect_outcome net host user password = None →
  ∃ s', setup hass net t0 base_config s = (Ok true, s').
Proof.
  intros Hcfg Hh Hu Hp Hxml Hconn.
  unfold setup, subscript, setup_raise, setup_call, set_data, PLATFORMS.
  unfold mbind, Setup_bind, mret, Setup_ret. cbn.
  rewrite Hcfg. cbn. rewrite Hh. cbn. rewrite Hu. cbn. rewrite Hp. cbn.
  rewrite Hxml. cbn. rewrite Hconn. cbn. eauto.
Qed.

(** X14: [setup] returns, and returns [True], exactly when the
    configuration has the domain with host, username and password, the XML
    database loads and the connection succeeds; then it has created the
    controller with these three, loaded the database, connected and logged
    the host before anything else, and loaded the five platforms last, in
    the order light, cover, switch, scene, binary_sensor. *)
Theorem setup_succeeds_iff hass net t0 base_config s :
  (∀ b s', setup hass net t0 base_config s = (Ok b, s') →
     b = true ∧
     ∃ d host user password g ars,
       config_get "lutron_custom" base_config = Some d ∧
       dict_get "host" d = Some host ∧
       dict_get "username" d = Some user ∧
       dict_get "password" d = Some password ∧
       xml_db net host user password = inr (g, ars) ∧
       connect_outcome net host user password = None ∧
       lutron_controller (data s') = Some (mkLutron host user password ars g) ∧
       setup_calls s' =
         setup_calls s
         ++ [Lutron_init host user password; load_xml_db; connect;
             info_connected host;
             load_platform "light" "lutron_custom";
             load_platform "cover" "lutron_custom";
             load_platform "switch" "lutron_custom";
             load_platform "scene" "lutron_custom";
             load_platform "binary_sensor" "lutron_custom"]) ∧
  (∀ d host user password g ars,
     config_get "lutron_custom" base_config = Some d →
     dict_get "host" d = Some host →
     dict_get "username" d = Some user →
     dict_get "password" d = Some password →
     xml_db net host user password = inr (g, ars) →
     connect_outcome net host user password = None →
     ∃ s', setup hass net t0 base_config s = (Ok true, s')).
Proof.
  split.
  - intros b s' Hs.
    apply setup_cases in Hs as [(x & [=] & _)|Hs].
    destruct Hs as (d & host & user & password & g & ars & [= ->] & Hcfg & Hh & Hu
                    & Hp & Hxml & Hconn & Hdata & Hcalls).
    split; [done|].
    exists d, host, user, password, g, ars. repeat (split; [done|]).
    split; [|done]. rewrite Hdata. unfold setup_data.
    by destruct (fold_add_area hass t0 ars
                   (with_controller (Some (mkLutron host user password ars g))
                      empty_data)) as (_ & _ & _ & _ & _ & _ & ->).
  - intros d host user password g ars. apply setup_runs.
Qed.

(** ** [LutronDevice] *)

(** X15: an entity has a unique id exactly when its pylutron device has a
    UUID, and two entities of one controller have the same unique id only
    if their devices have the same UUID. *)
Theorem unique_id_tells_devices_apart (e1 e2 : LutronDevice) :
  (unique_id e1 = None ↔ device_uuid (_lutron_device e1) = None) ∧
  (guid (_controller e1) = guid (_controller e2) →
   unique_id e1 = unique_id e2 →
   device_uuid (_lutron_device e1) = device_uuid (_lutron_device e2)).
Proof.
  unfold unique_id. split.
  - by destruct (device_uuid (_lutron_device e1)).
  - intros Hg.
    destruct (device_uuid (_lutron_device e1)) as [u1|],
             (device_uuid (_lutron_device e2)) as [u2|]; try done.
    rewrite Hg. intros [= H]. f_equal.
    by repeat apply String.app_inj in H.
Qed.

(** ** The further theorems at concrete inputs *)

Lemma slot_owns_pending_sample (w : World) (r0 : nat) :
  timer (self w) = Some r0 → pending w = [r0] → slot_owns_pending w.
Proof.
  intros Hslot Hp r Hr. rewrite Hp in Hr.
  apply list_elem_of_singleton in Hr. by subst.
Defined.

Lemma none_calling_sample (w : World) :
  forallb (λ o, bool_decide (phase o ≠ Calling)) (timers w) = true →
  none_calling w.
Proof.
  intros H r o Ho. rewrite forallb_forall in H.
  apply list_elem_of_lookup_2, list_elem_of_In in Ho.
  apply H in Ho. by apply bool_decide_eq_true_1 in Ho.
Defined.

Lemma only_collaborators_raise_witness :
  step Sample.broken (Raw 0 PRESSED) Sample.toggle_world
    = Some (Raise (Exception "HomeAssistantError"), Sample.failed_world) ∧
  ∃ pre e, trace Sample.failed_world = trace Sample.toggle_world ++ pre ++ [e] ∧
           failure Sample.broken e = Some (Exception "HomeAssistantError").
Proof.
  assert (step Sample.broken (Raw 0 PRESSED) Sample.toggle_world
            = Some (Raise (Exception "HomeAssistantError"), Sample.failed_world))
    as Hs by (vm_compute; reflexivity).
  split; [exact Hs|].
  exact (proj1 (only_collaborators_raise Sample.broken (Raw 0 PRESSED)
                  Sample.toggle_world _ _ Hs) _ eq_refl).
Defined.

Lemma emissions_mirror_input_witness :
  exec Sample.hass (Raw 0 PRESSED :: Raw 300 PRESSED :: Sample.repress_tail)
    Sample.toggle_world = Some Sample.repressed_world ∧
  raw_fired Sample.repressed_world
    = raw_fired Sample.toggle_world
      ++ raw_input (Raw 0 PRESSED :: Raw 300 PRESSED :: Sample.repress_tail).
Proof.
  assert (exec Sample.hass (Raw 0 PRESSED :: Raw 300 PRESSED :: Sample.repress_tail)
            Sample.toggle_world = Some Sample.repressed_world) as Hex
    by (vm_compute; reflexivity).
  split; [exact Hex|].
  exact (proj1 (emissions_mirror_input Sample.hass _ _ _ Hex)).
Defined.

Lemma escalation_is_never_early_witness :
  exec Sample.hass (Raw 0 PRESSED :: Sample.held) Sample.toggle_world
    = Some Sample.held_world ∧
  (1500, TimerThread 1, "super_long_pressed") ∈ fired Sample.held_world ∧
  ∃ r r' ta, TimerThread 1 = TimerThread r ∧
             (ta, TimerThread r', "long_pressed") ∈ fired Sample.held_world ∧
             ta + 1000 ≤ 1500.
Proof.
  assert (exec Sample.hass (Raw 0 PRESSED :: Sample.held) Sample.toggle_world
            = Some Sample.held_world) as Hex by (vm_compute; reflexivity).
  assert ((1500, TimerThread 1, "super_long_pressed") ∈ fired Sample.held_world)
    as Hin by (vm_compute; repeat constructor).
  split; [exact Hex|]. split; [exact Hin|].
  exact (proj1 (proj2 (escalation_is_never_early Sample.hass 0 "Hall"
                         Sample.keypad Sample.toggle _ _ Hex)) _ _ Hin).
Defined.

Lemma release_ends_escalation_witness :
  slot_owns_pending SampleHome.long_pressed_world ∧
  none_calling SampleHome.long_pressed_world ∧
  RELEASED ≠ PRESSED ∧
  step Sample.hass (Raw 700 RELEASED) SampleHome.long_pressed_world
    = Some (Ok (), SampleHome.let_go_world) ∧
  idle SampleHome.let_go_world ∧
  fired SampleHome.let_go_world
    = fired SampleHome.long_pressed_world ++ [(700, RawThread, "released")].
Proof.
  assert (slot_owns_pending SampleHome.long_pressed_world) as Hown.
  { apply (slot_owns_pending_sample _ 1); vm_compute; reflexivity. }
  assert (none_calling SampleHome.long_pressed_world) as Hcall.
  { apply none_calling_sample. vm_compute; reflexivity. }
  assert (RELEASED ≠ PRESSED) as Hev by discriminate.
  assert (step Sample.hass (Raw 700 RELEASED) SampleHome.long_pressed_world
            = Some (Ok (), SampleHome.let_go_world)) as Hs
    by (vm_compute; reflexivity).
  split; [exact Hown|]. split; [exact Hcall|]. split; [exact Hev|].
  split; [exact Hs|].
  destruct (release_ends_escalation Sample.hass _ 700 RELEASED _ _
              Hown Hcall Hev Hs) as (Hidle & Hf & _).
  split; [exact Hidle|exact Hf].
Defined.

Lemma press_restarts_escalation_witness :
  never_raises Sample.hass ∧
  slot_owns_pending Sample.pressed_world ∧ none_calling Sample.pressed_world ∧
  timers_only Sample.repress_tail ∧
  exec Sample.hass (Raw 300 PRESSED :: Sample.repress_tail) Sample.pressed_world
    = Some Sample.repressed_world ∧
  ∃ ta tb k,
    300 + 500 ≤ ta ∧ ta + 1000 ≤ tb ∧ (1 ≤ k)%nat ∧
    fired Sample.repressed_world
      = fired Sample.pressed_world
        ++ take k [(300, RawThread, "pressed");
                   (ta, TimerThread (length (timers Sample.pressed_world)),
                    "long_pressed");
                   (tb, TimerThread (S (length (timers Sample.pressed_world))),
                    "super_long_pressed")] ∧
    (pending Sample.repressed_world = [] → k = 3%nat ∧ idle Sample.repressed_world).
Proof.
  assert (slot_owns_pending Sample.pressed_world) as Hown.
  { apply (slot_owns_pending_sample _ 0); vm_compute; reflexivity. }
  assert (none_calling Sample.pressed_world) as Hcall.
  { apply none_calling_sample. vm_compute; reflexivity. }
  assert (timers_only Sample.repress_tail) as Htail by (repeat constructor).
  assert (exec Sample.hass (Raw 300 PRESSED :: Sample.repress_tail)
            Sample.pressed_world = Some Sample.repressed_world) as Hex
    by (vm_compute; reflexivity).
  split; [exact never_raises_sample|]. split; [exact Hown|].
  split; [exact Hcall|]. split; [exact Htail|]. split; [exact Hex|].
  exact (press_restarts_escalation Sample.hass _ 300 _ _
           never_raises_sample Hown Hcall Htail Hex).
Defined.

Lemma release_capability_iff_raise_lower_witness :
  (∃ ty, button_type Sample.raise_btn = Some ty ∧ substring_of "RaiseLower" ty) ∧
  _has_release_event (__init__ Sample.hass "Hall" Sample.keypad Sample.raise_btn)
    = true.
Proof.
  assert (∃ ty, button_type Sample.raise_btn = Some ty ∧
                substring_of "RaiseLower" ty) as H.
  { exists "MasterRaiseLower". split; [reflexivity|]. by exists "Master", "". }
  split; [exact H|].
  exact (proj2 (release_capability_iff_raise_lower Sample.hass "Hall"
                  Sample.keypad Sample.raise_btn) H).
Defined.

Lemma button_ids_from_label_witness :
  name Sample.toggle ≠ "Unknown Button" ∧
  button_label Sample.keypad Sample.toggle = "Entry: Scene 1" ∧
  _id (__init__ Sample.hass "Hall" Sample.keypad
         (mkButton "Unknown Button" 2 None)) = "Entry: Unknown Button 2".
Proof.
  assert (name Sample.toggle ≠ "Unknown Button") as Hne by discriminate.
  split; [exact Hne|]. split.
  - exact (proj1 (proj2 (proj2 (button_ids_from_label Sample.hass "Hall"
                                   Sample.keypad Sample.toggle))) Hne).
  - exact (proj1 (button_ids_from_label Sample.hass "Hall" Sample.keypad
                    (mkButton "Unknown Button" 2 None))).
Defined.

Lemma setup_sample :
  setup Sample.hass SampleHome.net 0 SampleHome.base_config SampleHome.before
    = (Ok true, SampleHome.after).
Proof. vm_compute. reflexivity. Defined.

Lemma setup_sorts_every_output_once_witness :
  setup Sample.hass SampleHome.net 0 SampleHome.base_config SampleHome.before
    = (Ok true, SampleHome.after) ∧
  ∃ c, lutron_controller (data SampleHome.after) = Some c ∧
       cover_devices (data SampleHome.after)
         ++ light_devices (data SampleHome.after)
         ++ switch_devices (data SampleHome.after)
         ≡ₚ all_outputs (areas c).
Proof.
  split; [exact setup_sample|].
  destruct (setup_sorts_every_output_once _ _ _ _ _ _ _ setup_sample)
    as (c & Hc & _ & _ & _ & Hperm).
  exists c. split; [exact Hc|exact Hperm].
Defined.

Lemma setup_creates_one_object_per_button_witness :
  setup Sample.hass SampleHome.net 0 SampleHome.base_config SampleHome.before
    = (Ok true, SampleHome.after) ∧
  ∃ c, lutron_controller (data SampleHome.after) = Some c ∧
       length (lutron_buttons (data SampleHome.after))
         = length (all_buttons (areas c)).
Proof.
  split; [exact setup_sample|].
  destruct (setup_creates_one_object_per_button _ _ _ _ _ _ _ setup_sample)
    as (c & Hc & _ & Hlen & _).
  exists c. split; [exact Hc|exact Hlen].
Defined.

Lemma setup_scenes_witness :
  setup Sample.hass SampleHome.net 0 SampleHome.base_config SampleHome.before
    = (Ok true, SampleHome.after) ∧
  ∃ c, lutron_controller (data SampleHome.after) = Some c ∧
       scene_devices (data SampleHome.after)
         = omap scene_entry (all_buttons (areas c)).
Proof.
  split; [exact setup_sample|].
  destruct (setup_scenes _ _ _ _ _ _ _ setup_sample) as (c & Hc & Hsc & _).
  exists c. split; [exact Hc|exact Hsc].
Defined.

Lemma scene_buttons_with_release_witness :
  setup Sample.hass SampleHome.net 0 SampleHome.base_config SampleHome.before
    = (Ok true, SampleHome.after) ∧
  ("Hall", "Entry", mkButton "Raise" 3 (Some "MasterRaiseLower"), None)
    ∈ scene_devices (data SampleHome.after) ∧
  (_has_release_event
     (__init__ Sample.hass "Hall" (mkKeypad "Entry")
        (mkButton "Raise" 3 (Some "MasterRaiseLower"))) = true ↔
   Some "MasterRaiseLower" = Some "SingleSceneRaiseLower" ∨
   Some "MasterRaiseLower" = Some "MasterRaiseLower").
Proof.
  assert (("Hall", "Entry", mkButton "Raise" 3 (Some "MasterRaiseLower"), None)
            ∈ scene_devices (data SampleHome.after)) as Hin
    by (vm_compute; repeat constructor).
  split; [exact setup_sample|]. split; [exact Hin|].
  exact (scene_buttons_with_release _ _ _ _ _ _ _ setup_sample
           _ _ _ _ "Hall" (mkKeypad "Entry") Hin).
Defined.

Lemma setup_occupancy_sensors_witness :
  setup Sample.hass SampleHome.net 0 SampleHome.base_config SampleHome.before
    = (Ok true, SampleHome.after) ∧
  ∃ c, lutron_controller (data SampleHome.after) = Some c ∧
       binary_sensor_devices (data SampleHome.after) = omap sensor_entry (areas c).
Proof.
  split; [exact setup_sample|].
  destruct (setup_occupancy_sensors _ _ _ _ _ _ _ setup_sample)
    as (c & Hc & Hbs & _).
  exists c. split; [exact Hc|exact Hbs].
Defined.

Lemma failed_setup_creates_nothing_witness :
  config_get DOMAIN [("homeassistant", [])] = None ∧
  ∃ x s', setup Sample.hass SampleHome.net 0 [("homeassistant", [])]
            SampleHome.before = (Raise x, s') ∧
          setup_calls s' = setup_calls SampleHome.before ∧ data s' = empty_data.
Proof.
  assert (config_get DOMAIN [("homeassistant", [])] = None) as Hnone
    by (vm_compute; reflexivity).
  split; [exact Hnone|].
  exact (proj2 (failed_setup_creates_nothing Sample.hass SampleHome.net 0
                  [("homeassistant", [])] SampleHome.before) Hnone).
Defined.

Lemma setup_succeeds_iff_witness :
  config_get "lutron_custom" SampleHome.base_config = Some SampleHome.settings ∧
  dict_get "host" SampleHome.settings = Some "10.0.0.2" ∧
  dict_get "username" SampleHome.settings = Some "lutron" ∧
  dict_get "password" SampleHome.settings = Some "integration" ∧
  xml_db SampleHome.net "10.0.0.2" "lutron" "integration"
    = inr ("0x0123", [SampleHome.hall; SampleHome.den]) ∧
  connect_outcome SampleHome.net "10.0.0.2" "lutron" "integration" = None ∧
  ∃ s', setup Sample.hass SampleHome.net 0 SampleHome.base_config SampleHome.before
          = (Ok true, s').
Proof.
  assert (config_get "lutron_custom" SampleHome.base_config
            = Some SampleHome.settings) as H1 by (vm_compute; reflexivity).
  assert (dict_get "host" SampleHome.settings = Some "10.0.0.2") as H2
    by (vm_compute; reflexivity).
  assert (dict_get "username" SampleHome.settings = Some "lutron") as H3
    by (vm_compute; reflexivity).
  assert (dict_get "password" SampleHome.settings = Some "integration") as H4
    by (vm_compute; reflexivity).
  assert (xml_db SampleHome.net "10.0.0.2" "lutron" "integration"
            = inr ("0x0123", [SampleHome.hall; SampleHome.den])) as H5
    by reflexivity.
  assert (connect_outcome SampleHome.net "10.0.0.2" "lutron" "integration" = None)
    as H6 by reflexivity.
  repeat (split; [assumption|]).
  exact (proj2 (setup_succeeds_iff Sample.hass SampleHome.net 0
                  SampleHome.base_config SampleHome.before)
           _ _ _ _ _ _ H1 H2 H3 H4 H5 H6).
Defined.

Lemma unique_id_tells_devices_apart_witness :
  guid (_controller SampleHome.shade) = guid (_controller SampleHome.shade_again) ∧
  unique_id SampleHome.shade = unique_id SampleHome.shade_again ∧
  device_uuid (_lutron_device SampleHome.shade)
    = device_uuid (_lutron_device SampleHome.shade_again).
Proof.
  assert (guid (_controller SampleHome.shade)
            = guid (_controller SampleHome.shade_again)) as Hg by reflexivity.
  assert (unique_id SampleHome.shade = unique_id SampleHome.shade_again) as Hu
    by reflexivity.
  split; [exact Hg|]. split; [exact Hu|].
  exact (proj2 (unique_id_tells_devices_apart SampleHome.shade
                  SampleHome.shade_again) Hg Hu).
Defined.
